(* ===== verification/_CoqProject ===== *)
-Q . S2P
Prelude.v
Int32.v
Machine.v
Spec.v
Memory.v
Foo.v
StopFlag.v
Worker.v
Driver.v
System.v
Lifecycle.v
Once.v
Verdict.v
Refinement.v
Progress.v
Race.v
