(* ===== verification/Prelude.v ===== *)
(** * atomic_conditional: a verification development

    ** The program

    src/main.cpp and its variant src/main_seqcst_padding.cpp are a
    lock-free stop signal.  An object of class [Foo] owns an atomic counter
    [m_v] and a thread [m_thread] that runs [do_thing]: the thread calls
    [do_work], which adds one to the counter, for as long as the
    class-level atomic flag [Foo::m_cond] reads false.  [main] builds the
    objects [a], [b], [c] with the seeds 1, 2, 3, samples the three
    counters ([tpc_count]), polls the counter of [a] until it has reached a
    threshold, sets the flag with a [compare_exchange_weak] retry loop that
    counts its spurious failures, samples again, calls [a.do_work()]
    itself, samples a third time, prints whether the counter of [a] has
    moved by one and those of [b] and [c] not at all, and returns, which
    joins the three threads.  The two files differ in the memory orders
    (release/acquire/relaxed against the default [seq_cst]), in the order
    in which [m_thread] and [m_v] are declared, and in the threshold
    ([cnt >= 10] against [cnt > 1]): the record [variant] of [Foo] holds
    these, and every definition takes it as a parameter ([main_cpp],
    [main_seqcst_padding_cpp]).

    ** Files, in dependency order

    - [Prelude] (this file): notation scope, the tactics ([invc],
      [case_bool], [opt_inv], [step_cases]), the hint databases [acond] and
      [acond_rw], lemmas on lists, maps and transition sequences that the
      components share.
    - [Int32]: the type [int] of [std::atomic_int], 32 bits in two's
      complement, as [Z] with the wrap-around written out ([wrap_int],
      [int_add]), and the built-in [+] on [int], which has no value when
      the sum is out of range ([int_add_checked]).
    - [Machine]: what the components have in common.  A machine is a
      partial step function from a label and a state ([Machine]); [mrun]
      is a run along a list of labels; [Refines] states that a machine
      implements a more abstract one through an invariant, an abstraction
      function and a map from steps to events.  Proved once for every
      instance: a refinement of steps is a refinement of runs.
    - [Spec]: the contract of the program as a machine without memory
      orders: the flag is a boolean, a counter is an [int]; its events are
      the creation of a counter, the store of a seed, an increment, the
      transition of the flag, a second write of [true], and silence.
      Theorems: the flag makes its transition at most once in a run, a
      counter moves by its increments.
    - [Memory]: the atomic objects of the C++ library.  An atomic object is
      a history of messages in modification order; a message carries a
      value and the view its writer released; a thread has a view, the
      timestamp of the newest message it has observed per location.
      [atomic_load], [atomic_store], [atomic_fetch_add] and
      [compare_exchange_weak] are functions of the [std::memory_order]
      arguments the source passes.  The locations a view holds are those
      whose initialisation, or an access to which, happens before
      ([knows]); what each operation can learn is proved here.
    - [Foo]: class [Foo].  [memory] is the flag and the counters of the
      objects; [do_work] (lines 29-35), [count] (37-41), [Foo_ctor_body]
      (15-19), [Foo_init_m_v] (47), [ctor_steps] (the member initialisers
      in declaration order, then the body), [Foo_dtor_joins] (21-27).
      Theorems: what [do_work] and [count] return on every branch, the
      counting invariant [counts_from] and its preservation, monotonicity
      of successive [count]s, release/acquire synchronisation between
      [do_work] and [count], overflow at [INT_MAX].
    - [StopFlag]: lines 106-115 of [main], the load of [finish_work] and
      the retry loop, as a machine ([stop_state], [try_stop_step]) with one
      step per atomic operation.  Theorems: the flag is one-shot
      ([flag_hist]), the loop ends only on the set flag, the transition
      from false to true happens once, [spurious] counts exactly the
      spurious failures, the loop terminates after any number of spurious
      failures, and where the code leaves the spec: a compare-exchange of
      true for true succeeds on the set flag, [++spurious] overflows.
    - [Worker]: [do_thing] (lines 59-65) as a machine ([worker],
      [do_thing_step]).  Theorems: a step touches only the counter of its
      object, a thread returns only once it has seen the flag set and does
      no work after that; under [seq_cst] at most one increment follows the
      setting of the flag, and the thread returns within two steps; under
      acquire no number of stale reads is excluded.
    - [Driver]: [main] (lines 70-140) as a machine ([main_state],
      [main_step]) on the state of the whole program ([state]: memory, the
      state of [main], the threads and their handles): construction with
      the start of the threads ([ctor_step_exec]), checkpoints, the outer
      loop, the loop of [StopFlag], the extra [do_work], destruction with
      join ([dtor_exec]), and what is printed at lines 134-136
      ([verdict], with [ckp2_a + 1] computed on [int]: no value at
      [INT_MAX]).  [main_trans] is the same machine as a step relation,
      one rule per statement of [main]; [main_step] and [main_trans] are
      proved to agree, and the later files reason by cases on the rules.
    - [System]: the program as an interleaving of the atomic actions of
      its four threads ([exec], [run], [reachable]).  The invariant
      [sys_inv] of the reachable states (memory well formed, the flag
      one-shot, the views of all threads within memory, a thread returned
      or [main] past its loop only having seen the flag set, counters and
      threads existing exactly as far as construction has come) is
      preserved by every step.  Theorems: the flag is never reset by any
      thread, [main] leaves the loop and threads return only on the set
      flag, the threads of src/main_seqcst_padding.cpp never touch an
      uninitialised counter.  Complete runs of both files, evaluated by the
      kernel, show a run in which the comparison for [b] prints [false],
      the undefined behaviour of src/main.cpp (thread started before the
      counter is initialised) and the increments the constructor's store
      overwrites.  [undefined] holds of the states in which a thread has
      stopped because an operation had no result (a call of [do_work] on
      a counter that does not exist yet, the overflow of [spurious]).
    - [Lifecycle]: the lifetime of the threads.  The invariant [life_inv]
      gives the handle of each thread as a function of the position of
      [main] (not started, joinable, joined).  Theorems: the destructor
      finds its thread joinable and completes only once [do_thing] has
      returned, no thread outlives [main], the outer loop ends as soon as
      the retry loop has ended.
    - [Once]: the flag is written once.  Only [main] runs the
      compare-exchange loop, and it reaches the loop only while the flag is
      unset: the invariant [once_inv] gives that the history of the flag
      is [false] or [false; true], that [finish_work] is never [true] and
      that the loop is never left through the test on [finish_work].
    - [Verdict]: the three comparisons of lines 134-136.  The invariant
      [ckp_inv], indexed by the position of [main] from the second
      checkpoint on, relates the samples taken so far to the newest value
      of each counter.  Theorems: with [seq_cst] on [count], if the threads
      have returned when the second checkpoint starts, every continuation
      prints three times [true]; with acquire a complete run prints [false]
      for [a] in the same situation, the second sample being stale.
    - [Refinement]: the program implements [Spec].  [abs] keeps the newest
      value of the flag and of each counter, [event] names the abstract
      step of each step of [main] and of the threads; [system_refines] is
      the instance of [Refines].  The value of the flag is that of the
      newest message of its history, not the length of the history: a
      write of [false] would be a step the abstract machine does not have.
      Theorems: every step of the program is
      the abstract step of its event; in every run the flag goes from
      false to true at most once, whichever thread tries and however often
      the compare-exchange fails or succeeds again; along every run after
      the constructors a counter moves by the number of calls of [do_work]
      on its object, modulo 2^32.
    - [Progress]: the waits of the program are never in vain.  From every
      reachable state that is not [undefined] a schedule of steps that
      read the newest message takes [main] to its return ([live_exit], by
      induction on [rank], the distance of a position of [main] from the
      end): the thread of [a] counts to the threshold, the compare-exchange
      sets the flag, every thread returns at its next test, every
      destructor joins.  In particular no reachable state is a deadlock.
    - [Race]: the data race of src/main.cpp.  The initialisation of [m_v]
      (line 47) is not an atomic operation; it is ordered before the
      [fetch_add] of the thread of the object only if the thread is
      started after it.  A state [races] when a thread is about to call
      [fetch_add] on a counter of which its view does not know.  Theorems:
      in src/main_seqcst_padding.cpp ([m_v] declared first) every thread
      knows of its counter in every reachable state (invariant [ordered]),
      and no state races; in src/main.cpp ([m_thread] declared first) a
      run in which no state races leaves the counters and the flag as the
      constructors left them and [main] in the outer loop (invariant
      [unraced]), so every run that reaches the compare-exchange loop, and
      every complete run, goes through a state that races.

    ** Model of memory

    Timestamps are positions in a history; stores and read-modify-writes
    append.  This is the promise-free fragment of the view-based semantics
    of release/acquire (see [Memory] for why appending loses no behaviour
    of this program).  A load names the message it reads ([pick]): any
    message not older than the thread's view, or only the newest one when
    the order is [memory_order_seq_cst].  A weak compare-exchange either
    acts on the newest message, or fails having read some message; it
    failed spuriously when the value it read was the expected one.  The
    choice of the message is the only non-determinism of a thread, and the
    choice of the thread the only other one: a label of [System] names
    both, so every definition is a function and runs are evaluated.

    ** Bounds

    No definition uses fuel: a step function takes one step, and a run
    takes one step per element of its schedule ([try_stop_run],
    [do_thing_run], [run]).  Termination is stated as the existence of a
    schedule that reaches the final state: of a given length for a loop run
    alone, and from any reachable state for the whole program ([Progress]),
    where the thread of [a] is scheduled as often as the counter is far
    from a value that reaches the threshold.  Counters and
    [spurious] are kept at the width of [int]: the counter wraps (atomic
    arithmetic), [++spurious] at [INT_MAX] is undefined behaviour.  The
    complete runs are those of the program itself: three objects, nine
    increments to the threshold of src/main.cpp, one to that of
    src/main_seqcst_padding.cpp.

    ** What is not modelled

    Console output and its formatting; [std::this_thread::sleep_for] (a
    sleep only lets other threads run, which every interleaving already
    allows: [short_sleep] is a step of [main] without effect); the padding
    bytes [pad1], [pad] of the second variant, which change the layout and
    not the behaviour; failure of [std::thread] to start.  What a
    compiler may do to a program with a data race: the model gives the
    [fetch_add] of src/main.cpp that races with the initialisation of
    [m_v] the result of the atomic operation on the initialised counter,
    so the theorems on the runs of src/main.cpp say what its atomic
    operations do, and [Race] says that the C++ standard promises nothing
    of these runs.  Fairness of the
    scheduler is not assumed: liveness is the existence of a schedule that
    reaches the end, from every reachable state.  The
    refinement keeps the newest value of each atomic object only: what a
    thread may still read of older values is the subject of [Worker] and
    [Verdict], not of [Spec]. *)

From stdpp Require Export base tactics option list gmap relations.
From Stdlib Require Export ZArith Lia.

Declare Scope acond_scope.
Delimit Scope acond_scope with acond.

Create HintDb acond discriminated.
Create Rewrite HintDb acond_rw.

(** ** Tactics *)

(** [invc H]: inversion that leaves no copy of [H] behind. *)
Ltac invc H := inversion H; clear H; simplify_eq.

(** [case_bool]: split on the boolean tests of the goal and of the
    hypotheses, turning each into the proposition it decides. *)
Ltac case_bool :=
  repeat match goal with
  | |- context [bool_decide ?P] => destruct (bool_decide_reflect P)
  | H : context [bool_decide ?P] |- _ => destruct (bool_decide_reflect P)
  | H : _ && _ = true |- _ => apply andb_prop in H; destruct H
  | H : negb _ = true |- _ => apply negb_true_iff in H
  | H : negb _ = false |- _ => apply negb_false_iff in H
  end.

(** [opt_inv]: take apart hypotheses of the form [mbind .. = Some _]. *)
Ltac opt_inv :=
  repeat match goal with
  | H : _ ≫= _ = Some _ |- _ => apply bind_Some in H; destruct H as (? & ? & H)
  | H : Some _ = Some _ |- _ => injection H as H
  | H : (_, _) = (_, _) |- _ => injection H as ? ?
  | H : None = Some _ |- _ => discriminate H
  | H : Some _ = None |- _ => discriminate H
  end; subst.

(** [step_cases]: take apart a hypothesis that a step function, written
    with [mbind], pairs and tests, returns [Some _]: one goal for each way
    through the function. *)
Ltac step_cases :=
  repeat (simplify_option_eq;
    repeat match goal with
    | H : context [let '(_, _) := ?x in _] |- _ => destruct x
    | H : context [if ?b then _ else _] |- _ => destruct b
    | H : context [match ?x with _ => _ end] |- _ => destruct x eqn:?
    end).

(** ** Lists *)

Section lists.
Context {A : Type}.
Implicit Types (l : list A) (x : A).

Lemma last_lookup_pred l : last l = l !! pred (length l).
Proof. apply last_lookup. Qed.

Lemma last_is_Some l : l ≠ [] → is_Some (last l).
Proof. destruct l using rev_ind; [done|]. rewrite last_snoc. eauto. Qed.

Lemma lookup_snoc_old l x i y : l !! i = Some y → (l ++ [x]) !! i = Some y.
Proof. intros H. apply lookup_app_l_Some. done. Qed.

Lemma lookup_snoc_new l x : (l ++ [x]) !! length l = Some x.
Proof. by rewrite list_lookup_middle. Qed.

Lemma snoc_ne_nil l x : l ++ [x] ≠ [].
Proof. by destruct l. Qed.

Lemma length_snoc l x : length (l ++ [x]) = S (length l).
Proof. rewrite length_app. simpl. lia. Qed.

Lemma prefix_snoc l x : l `prefix_of` l ++ [x].
Proof. by exists [x]. Qed.

End lists.

(** ** Maps *)

Section maps.
Context `{Countable K} {A : Type}.
Implicit Types (m : gmap K A).

(** The keys of a map after an insertion. *)
Lemma is_Some_insert_iff m k x k' (P : Prop) :
  (is_Some (m !! k') ↔ P) → is_Some (<[k := x]> m !! k') ↔ P ∨ k' = k.
Proof.
  intros HP. rewrite lookup_insert_is_Some, HP.
  destruct (decide (k = k')); intuition auto.
Qed.

(** Overwriting a key keeps the keys of a map. *)
Lemma is_Some_insert_same m k x y k' :
  m !! k = Some y → is_Some (<[k := x]> m !! k') ↔ is_Some (m !! k').
Proof.
  intros Hk. rewrite lookup_insert_is_Some.
  destruct (decide (k = k')) as [<-|]; [rewrite Hk|]; intuition auto.
Qed.

End maps.

#[export] Hint Resolve snoc_ne_nil prefix_snoc lookup_snoc_old : acond.
#[export] Hint Rewrite @length_snoc @last_snoc @lookup_snoc_new : acond_rw.

(** ** Transition sequences *)

Section sequences.
Context {St : Type} (R : relation St).

(** An invariant of one step is an invariant of every sequence. *)
Lemma rtc_invariant (P : St → Prop) :
  (∀ x y, P x → R x y → P y) → ∀ x y, rtc R x y → P x → P y.
Proof. intros Hstep x y Hxy. induction Hxy; eauto. Qed.

(** A relation between a state and its successors that is a preorder and
    holds of single steps holds along every sequence. *)
Lemma rtc_monotone (Q : relation St) `{!PreOrder Q} :
  (∀ x y, R x y → Q x y) → ∀ x y, rtc R x y → Q x y.
Proof.
  intros Hstep x y Hxy. induction Hxy; [done|]. etrans; eauto.
Qed.

(** The same, for steps taken from states that satisfy an invariant. *)
Lemma rtc_monotone_inv (P : St → Prop) (Q : relation St) `{!PreOrder Q} :
  (∀ x y, P x → R x y → P y) →
  (∀ x y, P x → R x y → Q x y) →
  ∀ x y, rtc R x y → P x → Q x y.
Proof.
  intros HP HQ x y Hxy. induction Hxy; [done|].
  intros Hx. etrans; eauto.
Qed.

End sequences.
