(* ===== verification/Int32.v ===== *)
(** * Int32: the type [int] of the counters

    [std::atomic_int] holds an [int]: 32 bits, two's complement.  The
    arithmetic of [std::atomic<int>::fetch_add] wraps around (the standard
    defines it so for atomics: there is no undefined overflow).  A value is
    a [Z] in the range [INT_MIN .. INT_MAX]; [wrap_int] brings any integer
    back into the range, and [int_add] is addition followed by [wrap_int]. *)

From S2P Require Import Prelude.

#[local] Open Scope Z_scope.

Definition INT_MIN : Z := -2147483648.
Definition INT_MAX : Z := 2147483647.
Definition int_modulus : Z := 4294967296.

(** [z] is a value of the type [int]. *)
Definition in_int (z : Z) : Prop := INT_MIN <= z <= INT_MAX.

Definition in_intb (z : Z) : bool := (INT_MIN <=? z) && (z <=? INT_MAX).

(** Reduction modulo 2^32 into the signed range. *)
Definition wrap_int (z : Z) : Z := (z - INT_MIN) mod int_modulus + INT_MIN.

(** The sum as [fetch_add] computes it. *)
Definition int_add (a b : Z) : Z := wrap_int (a + b).

(** The sum of two [int]s with the built-in [+]: signed overflow is
    undefined behaviour, and the sum has no value then. *)
Definition int_add_checked (a b : Z) : option Z :=
  if in_intb (a + b) then Some (a + b) else None.

#[export] Instance in_int_dec z : Decision (in_int z).
Proof. unfold in_int. apply _. Defined.

(** ** Lemmas *)

Lemma in_intb_spec z : in_intb z = true ↔ in_int z.
Proof. unfold in_intb, in_int. rewrite andb_true_iff, !Z.leb_le. done. Qed.

Lemma wrap_int_range z : in_int (wrap_int z).
Proof.
  unfold wrap_int, in_int, INT_MIN, INT_MAX, int_modulus.
  pose proof (Z.mod_pos_bound (z - -2147483648) 4294967296). lia.
Qed.

Lemma wrap_int_id z : in_int z → wrap_int z = z.
Proof.
  unfold wrap_int, in_int, INT_MIN, INT_MAX, int_modulus. intros H.
  rewrite Z.mod_small; lia.
Qed.

Lemma wrap_int_idemp z : wrap_int (wrap_int z) = wrap_int z.
Proof. apply wrap_int_id, wrap_int_range. Qed.

(** [wrap_int] differs from its argument by a multiple of 2^32. *)
Lemma wrap_int_congr z : ∃ k, wrap_int z = z + k * int_modulus.
Proof.
  exists (- ((z - INT_MIN) / int_modulus)). unfold wrap_int.
  pose proof (Z.div_mod (z - INT_MIN) int_modulus) as H.
  unfold int_modulus in *. lia.
Qed.

Lemma wrap_int_add_l a b : wrap_int (wrap_int a + b) = wrap_int (a + b).
Proof.
  unfold wrap_int.
  replace ((a - INT_MIN) mod int_modulus + INT_MIN + b - INT_MIN)
    with ((a - INT_MIN) mod int_modulus + b) by lia.
  replace (a + b - INT_MIN) with ((a - INT_MIN) + b) by lia.
  by rewrite Zplus_mod_idemp_l.
Qed.

Lemma int_add_range a b : in_int (int_add a b).
Proof. apply wrap_int_range. Qed.

Lemma int_add_comm a b : int_add a b = int_add b a.
Proof. unfold int_add. by rewrite Z.add_comm. Qed.

Lemma int_add_assoc a b c : int_add (int_add a b) c = int_add a (int_add b c).
Proof.
  unfold int_add. rewrite wrap_int_add_l.
  rewrite (Z.add_comm a (wrap_int _)), wrap_int_add_l. f_equal. lia.
Qed.

(** No overflow: the sum is the mathematical one. *)
Lemma int_add_exact a b : in_int (a + b) → int_add a b = a + b.
Proof. apply wrap_int_id. Qed.

(** Overflow: one past [INT_MAX] is [INT_MIN]. *)
Lemma int_add_overflow : int_add INT_MAX 1 = INT_MIN.
Proof. reflexivity. Qed.

(** Adding one makes a value larger, except at [INT_MAX]. *)
Lemma int_add_1_lt a : in_int a → a ≠ INT_MAX → a < int_add a 1.
Proof.
  intros Ha Hne. rewrite int_add_exact; [lia|].
  unfold in_int, INT_MAX, INT_MIN in *. lia.
Qed.

(** [n] increments from [a]: the value [fetch_add] has reached. *)
Lemma int_add_iter a (n : nat) :
  in_int a → Nat.iter n (λ z, int_add z 1) a = wrap_int (a + Z.of_nat n).
Proof.
  intros Ha. induction n as [|n IH].
  - simpl. rewrite Z.add_0_r. by rewrite wrap_int_id.
  - rewrite Nat.iter_succ, IH. unfold int_add. rewrite wrap_int_add_l.
    f_equal. lia.
Qed.

(** The built-in sum has a value exactly when it is in range, and it is
    then the sum of the atomic arithmetic. *)
Lemma int_add_checked_Some a b c :
  int_add_checked a b = Some c ↔ in_int (a + b) ∧ c = a + b.
Proof.
  unfold int_add_checked. destruct (in_intb (a + b)) eqn:Hb.
  - apply in_intb_spec in Hb. naive_solver.
  - split; [done|]. intros [Hr%in_intb_spec _]. congruence.
Qed.

Lemma int_add_checked_1 a :
  in_int a → a ≠ INT_MAX → int_add_checked a 1 = Some (int_add a 1).
Proof.
  intros [Hlo Hhi] Hne. apply int_add_checked_Some.
  assert (in_int (a + 1)) as Hr by (split; lia).
  by rewrite int_add_exact.
Qed.

(** Counting up from any value comes to [INT_MAX]. *)
Lemma int_add_reaches_max a : ∃ n : nat, Nat.iter n (λ z, int_add z 1) a = INT_MAX.
Proof.
  exists (S (Z.to_nat (INT_MAX - int_add a 1))).
  pose proof (int_add_range a 1) as Hr.
  rewrite Nat.iter_succ_r, int_add_iter by done. destruct Hr as [_ Hle].
  rewrite Z2Nat.id by lia. by replace (_ + _) with INT_MAX by lia.
Qed.

#[export] Hint Resolve wrap_int_range int_add_range : acond.
#[export] Hint Rewrite wrap_int_idemp : acond_rw.
