(* ===== verification/Machine.v ===== *)
(** * Machine: labelled machines and refinement between them

    Every component of the development is a machine: a partial step
    function from a label and a state to the next state.  The label holds
    what the machine does not decide itself (for the program: which thread
    moves and which message its load reads).

    This file states once what a machine is ([Machine]), what its runs are
    ([mrun]), and what it means for a machine to implement a more abstract
    one ([Refines]): an invariant of the implementation, an abstraction
    function, and for each step of the implementation the step of the
    specification that it performs.  The theorems are proved for any
    instance: a refinement of steps is a refinement of runs, and whatever
    holds of every run of the specification holds of the abstraction of
    every run of the implementation.  [Refinement] gives the instance for
    the program. *)

From S2P Require Import Prelude.

(** ** Machines *)

Class Machine (L St : Type) := mstep : L → St → option St.
#[global] Hint Mode Machine - ! : typeclass_instances.
#[global] Arguments mstep {_ _ _} _ _ : assert.

(** A run: one step per label. *)
Fixpoint mrun {L St} `{!Machine L St} (ls : list L) (s : St) : option St :=
  match ls with
  | [] => Some s
  | l :: ls => s' ← mstep l s; mrun ls s'
  end.

(** ** Refinement

    [Refines inv abs ev]: the machine on [St] implements the machine on
    [A].  [ev l s] is the step of the specification that the step [l] of
    the implementation performs in state [s]. *)

Class Refines {L St E A} `{!Machine L St} `{!Machine E A}
    (inv : St → Prop) (abs : St → A) (ev : L → St → E) : Prop := {
  refines_inv l s s' : inv s → mstep l s = Some s' → inv s';
  refines_step l s s' :
    inv s → mstep l s = Some s' → mstep (ev l s) (abs s) = Some (abs s');
}.

(** The steps of the specification along a run of the implementation. *)
Fixpoint mtrace {L St E} `{!Machine L St} (ev : L → St → E)
    (ls : list L) (s : St) : list E :=
  match ls with
  | [] => []
  | l :: ls =>
      ev l s :: from_option (mtrace ev ls) [] (mstep l s)
  end.

(** ** Runs *)

Section runs.
Context {L St : Type} `{!Machine L St}.
Implicit Types (s : St) (ls : list L).

Lemma mrun_cons l ls s : mrun (l :: ls) s = mstep l s ≫= mrun ls.
Proof. done. Qed.

Lemma mrun_app ls1 ls2 s : mrun (ls1 ++ ls2) s = mrun ls1 s ≫= mrun ls2.
Proof.
  revert s. induction ls1 as [|l ls1 IH]; intros s; [done|].
  simpl. destruct (mstep l s) as [s'|]; [apply IH|done].
Qed.

(** An invariant of the steps is an invariant of the runs. *)
Lemma mrun_invariant (P : St → Prop) ls s s' :
  (∀ l s s', P s → mstep l s = Some s' → P s') →
  P s → mrun ls s = Some s' → P s'.
Proof.
  intros Hstep. revert s. induction ls as [|l ls IH]; intros s HP; simpl.
  - by intros [= <-].
  - intros (s1 & Hs1 & Hrun)%bind_Some. eauto.
Qed.

End runs.

(** ** Refinement of runs *)

Section refinement.
Context {L St E A : Type} `{!Machine L St} `{!Machine E A}.
Context (inv : St → Prop) (abs : St → A) (ev : L → St → E).
Context `{!Refines inv abs ev}.
Implicit Types (s : St) (ls : list L).

Lemma refines_mrun_inv ls s s' : inv s → mrun ls s = Some s' → inv s'.
Proof. apply mrun_invariant, refines_inv. Qed.

(** A run of the implementation is, through the abstraction, the run of
    the specification along its trace. *)
Lemma refines_mrun ls s s' :
  inv s → mrun ls s = Some s' → mrun (mtrace ev ls s) (abs s) = Some (abs s').
Proof.
  revert s. induction ls as [|l ls IH]; intros s Hinv; simpl.
  - by intros [= <-].
  - intros (s1 & Hs1 & Hrun)%bind_Some. rewrite Hs1. simpl.
    rewrite (refines_step l s s1 Hinv Hs1). simpl.
    apply IH; [|done]. by eapply refines_inv.
Qed.

(** What holds of every run of the specification holds of the trace of
    every run of the implementation. *)
Lemma refines_trace (Q : A → list E → A → Prop) ls s s' :
  (∀ es a a', mrun es a = Some a' → Q a es a') →
  inv s → mrun ls s = Some s' → Q (abs s) (mtrace ev ls s) (abs s').
Proof. intros HQ Hinv Hrun. by apply HQ, refines_mrun. Qed.

End refinement.
