(* ===== verification/Spec.v ===== *)
(** * Spec: the abstract machine

    What the program promises, without memory orders, views or histories:
    a stop flag that is a boolean, and for each object a counter that is
    an [int].  The events are the operations that change them: a counter
    comes to exist, the constructor sets it to the seed, [do_work] adds
    one, the flag goes from false to true; a compare-exchange that
    succeeds on the flag once it is set writes [true] over [true]; every
    other action (a load, a failed compare-exchange, the start or the join
    of a thread) is silent.

    The theorems are those of the abstract machine: the flag is set once
    and for all, the transition from false to true happens at most once in
    any run, a counter only moves by increments once it is seeded.
    [Refinement] transports them to the program. *)

From S2P Require Import Prelude Int32 Machine.

(** ** The machine *)

Record astate := AState {
  (** the stop flag *)
  a_stopped : bool;
  (** the counters of the objects that exist *)
  a_counter : gmap nat Z;
}.

Inductive aevent :=
  (** the counter of an object comes to exist, at 0 *)
  | a_create (o : nat)
  (** the constructor stores the seed *)
  | a_seed (o : nat) (i : Z)
  (** one increment *)
  | a_advance (o : nat)
  (** the flag goes from false to true *)
  | a_won
  (** the flag is written again, true over true *)
  | a_again
  (** nothing changes *)
  | a_tau.

Definition astate_init : astate := AState false ∅.

Definition set_counter (o : nat) (x : Z) (a : astate) : astate :=
  AState (a_stopped a) (<[o := x]> (a_counter a)).

Definition astep (e : aevent) (a : astate) : option astate :=
  match e with
  | a_create o =>
      match a_counter a !! o with
      | None => Some (set_counter o 0 a)
      | Some _ => None
      end
  | a_seed o i => _ ← a_counter a !! o; Some (set_counter o i a)
  | a_advance o => x ← a_counter a !! o; Some (set_counter o (int_add x 1) a)
  | a_won => if a_stopped a then None else Some (AState true (a_counter a))
  | a_again => if a_stopped a then Some a else None
  | a_tau => Some a
  end.

#[export] Instance aevent_eq_dec : EqDecision aevent.
Proof. solve_decision. Defined.

#[export] Instance astate_eq_dec : EqDecision astate.
Proof. solve_decision. Defined.

#[export] Instance abstract_machine : Machine aevent astate := astep.

(** The number of transitions of the flag from false to true in a list of
    events. *)
Definition wins (es : list aevent) : nat := length (filter (λ e, e = a_won) es).

(** The number of increments of the counter of [o]. *)
Definition advances (o : nat) (es : list aevent) : nat :=
  length (filter (λ e, e = a_advance o) es).

(** The events that set the counter of [o] other than by an increment. *)
Definition resets (o : nat) (e : aevent) : bool :=
  match e with
  | a_create o' | a_seed o' _ => bool_decide (o' = o)
  | _ => false
  end.

(** ** The flag *)

Section flag.
Implicit Types (a : astate) (e : aevent) (es : list aevent).

Lemma astep_stopped e a a' :
  astep e a = Some a' → a_stopped a = true → a_stopped a' = true.
Proof.
  destruct e; simpl; intros Hstep Hs; rewrite ?Hs in Hstep;
    repeat case_match; simplify_option_eq; done.
Qed.

Lemma astep_won a a' : astep a_won a = Some a' → a_stopped a = false ∧ a_stopped a' = true.
Proof. simpl. destruct (a_stopped a); by intros [= <-]. Qed.

(** Only the transition changes the flag. *)
Lemma astep_stopped_eq e a a' :
  astep e a = Some a' → e ≠ a_won → a_stopped a' = a_stopped a.
Proof.
  destruct e; simpl; intros Hstep He; repeat case_match; simplify_option_eq; done.
Qed.

Lemma wins_cons e es : wins (e :: es) = (if decide (e = a_won) then 1 else 0) + wins es.
Proof. unfold wins. rewrite filter_cons. by case_decide. Qed.

(** Once the flag is set no run makes the transition again. *)
Lemma arun_stopped es a a' :
  mrun es a = Some a' → a_stopped a = true →
  a_stopped a' = true ∧ wins es = 0.
Proof.
  revert a. induction es as [|e es IH]; intros a; simpl.
  { by intros [= <-]. }
  intros (a1 & Hstep & Hrun)%bind_Some Hs. rewrite wins_cons.
  destruct (IH _ Hrun (astep_stopped _ _ _ Hstep Hs)) as [? ->].
  split; [done|]. case_decide as He; [|done]. subst e.
  apply astep_won in Hstep as [? _]. congruence.
Qed.

(** The flag makes the transition at most once in a run, and exactly once
    in a run from the unset flag to the set flag. *)
Lemma arun_wins es a a' :
  mrun es a = Some a' →
  wins es ≤ 1 ∧
  (a_stopped a = false → a_stopped a' = true → wins es = 1) ∧
  (a_stopped a' = false → wins es = 0).
Proof.
  revert a. induction es as [|e es IH]; intros a; simpl.
  { intros [= <-]. split_and!; [unfold wins; simpl; lia|congruence|done]. }
  intros (a1 & Hstep & Hrun)%bind_Some. rewrite wins_cons.
  destruct (IH _ Hrun) as (Hle & Hone & Hzero). case_decide as He.
  - subst e. apply astep_won in Hstep as [Ha Ha1].
    destruct (arun_stopped _ _ _ Hrun Ha1) as [Ha' ->].
    split_and!; [lia|done|congruence].
  - rewrite <-(astep_stopped_eq _ _ _ Hstep He). split_and!; [lia|auto..].
Qed.

End flag.

(** ** The counters *)

Section counters.
Implicit Types (a : astate) (e : aevent) (es : list aevent) (o : nat).

Lemma advances_cons o e es :
  advances o (e :: es)
  = (if decide (e = a_advance o) then 1 else 0) + advances o es.
Proof. unfold advances. rewrite filter_cons. by case_decide. Qed.

(** A step that is neither an increment nor a reset of the counter of [o]
    leaves it as it is. *)
Lemma astep_counter e a a' o :
  astep e a = Some a' → resets o e = false → e ≠ a_advance o →
  a_counter a' !! o = a_counter a !! o.
Proof.
  destruct e as [o'|o' i|o'| | |]; simpl; intros Hstep Hr He;
    repeat case_match; simplify_option_eq; try done;
    rewrite lookup_insert_ne; try done; try (by case_bool_decide); congruence.
Qed.

(** In a run without a reset of the counter of [o], the counter has moved
    by the number of its increments, modulo 2^32. *)
Lemma arun_counter es a a' o x :
  mrun es a = Some a' → Forall (λ e, resets o e = false) es →
  a_counter a !! o = Some x → in_int x →
  a_counter a' !! o = Some (wrap_int (x + Z.of_nat (advances o es))).
Proof.
  revert a x. induction es as [|e es IH]; intros a x; simpl.
  { intros [= <-] _ -> Hx. unfold advances. simpl.
    by rewrite Z.add_0_r, wrap_int_id. }
  intros (a1 & Hstep & Hrun)%bind_Some [Hr Hrs]%Forall_cons Ho Hx.
  rewrite advances_cons. case_decide as He.
  - subst e. unfold mstep, abstract_machine in Hstep. simpl in Hstep.
    rewrite Ho in Hstep. injection Hstep as <-.
    rewrite (IH _ (int_add x 1) Hrun Hrs); [|apply lookup_insert_eq|apply int_add_range].
    unfold int_add. rewrite wrap_int_add_l. f_equal. f_equal. lia.
  - rewrite (IH _ x Hrun Hrs); [done| |done].
    by rewrite (astep_counter _ _ _ _ Hstep Hr He).
Qed.

End counters.
