(* ===== verification/Memory.v ===== *)
(** * Memory: atomic objects under release/acquire and under seq_cst

    The operations of [std::atomic<T>] that the program calls, as functions
    on the history of one atomic object and on the view of the calling
    thread.

    - A history is the list of the messages written to the object, in
      modification order; the timestamp of a message is its position.
    - A message carries the value written and a view: what a thread that
      reads the message with acquire semantics learns.
    - A view maps each location to a timestamp: the newest message of that
      location the thread (or the message) knows of.

    A load may read any message that is not older than the thread's view
    of the location (coherence); a [memory_order_seq_cst] load reads the
    newest.  A store appends a message.  A read-modify-write reads the
    newest message and appends its own next to it (atomicity).

    Appending loses no behaviour of this program: every write to a counter
    but the constructor's store is a read-modify-write, and so is every
    write to the flag; a read-modify-write follows the message it read
    immediately in modification order, so no store can be placed between
    two messages of such a chain, only at its end.

    The definitions of this file model the C++ library and not code of
    the repository; they are written from the standard's rules for the
    orders the source uses ([relaxed], [acquire], [release], [seq_cst]). *)

From S2P Require Import Prelude Int32.

(** ** Orders, locations, views *)

(** The [std::memory_order] values the sources pass; a call without an
    order argument passes [memory_order_seq_cst]. *)
Inductive memory_order :=
  | memory_order_relaxed
  | memory_order_acquire
  | memory_order_release
  | memory_order_seq_cst.

#[export] Instance memory_order_eq_dec : EqDecision memory_order.
Proof. solve_decision. Defined.

Definition acquires (o : memory_order) : bool :=
  match o with
  | memory_order_acquire | memory_order_seq_cst => true
  | _ => false
  end.

Definition releases (o : memory_order) : bool :=
  match o with
  | memory_order_release | memory_order_seq_cst => true
  | _ => false
  end.

(** The atomic objects of the program: the static [Foo::m_cond] and the
    member [m_v] of each object, named by the object's number. *)
Inductive loc :=
  | m_cond
  | m_v (obj : nat).

#[export] Instance loc_eq_dec : EqDecision loc.
Proof. solve_decision. Defined.

#[export] Instance loc_countable : Countable loc.
Proof.
  refine (inj_countable'
    (λ l, match l with m_cond => None | m_v o => Some o end)
    (λ x, match x with None => m_cond | Some o => m_v o end) _).
  by intros [].
Defined.

Abbreviation view := (gmap loc nat).

(** The timestamp a view holds for a location; 0, the initial message,
    where it holds none. *)
Definition vget (V : view) (l : loc) : nat := default 0 (V !! l).

(** The view that also knows message [t] of [l]. *)
Definition vset (l : loc) (t : nat) (V : view) : view :=
  <[l := t `max` vget V l]> V.

Definition vjoin (V1 V2 : view) : view :=
  union_with (λ a b, Some (a `max` b)) V1 V2.

Definition view_le (V1 V2 : view) : Prop := ∀ l, vget V1 l ≤ vget V2 l.

(** A view knows of a location when it holds a timestamp for it: the
    initialisation of the object, or an access to it, happens before the
    point of the program that has this view. *)
Definition knows (V : view) (l : loc) : Prop := is_Some (V !! l).

(** [V2] knows of every location that [V1] knows of. *)
Definition view_sub (V1 V2 : view) : Prop := ∀ l, knows V1 l → knows V2 l.

(** ** Messages and histories *)

Record msg (A : Type) := Msg { mval : A; mview : view }.
Arguments Msg {A} _ _.
Arguments mval {A} _.
Arguments mview {A} _.

Abbreviation history A := (list (msg A)).

(** The values of a history, oldest first. *)
Definition hvals {A} (h : history A) : list A := mval <$> h.

(** Which message an operation reads: the newest, or the one at a given
    timestamp. *)
Inductive pick :=
  | latest
  | at_ts (t : nat).

#[export] Instance pick_eq_dec : EqDecision pick.
Proof. solve_decision. Defined.

Definition pick_ts {A} (p : pick) (h : history A) : nat :=
  match p with
  | latest => pred (length h)
  | at_ts t => t
  end.

(** A thread with view [cur] may read message [t] of [l] with order [o]. *)
Definition readable {A} (l : loc) (o : memory_order) (t : nat)
    (h : history A) (cur : view) : Prop :=
  vget cur l ≤ t ∧ (o = memory_order_seq_cst → S t = length h).

#[export] Instance readable_dec {A} l o t (h : history A) cur :
  Decision (readable l o t h cur).
Proof. unfold readable. apply _. Defined.

(** The view of a thread after it has read message [m] at [t]. *)
Definition read_view {A} (l : loc) (o : memory_order) (t : nat)
    (m : msg A) (cur : view) : view :=
  vset l t (if acquires o then vjoin cur (mview m) else cur).

(** The message a write with order [o] leaves at [t]: it releases the
    writer's view [cur] when [o] releases, and in any case the view
    [carried] of the message a read-modify-write has read (the release
    sequence it continues). *)
Definition write_msg {A} (l : loc) (o : memory_order) (v : A) (t : nat)
    (cur carried : view) : msg A :=
  Msg v (vjoin (if releases o then cur else {[ l := t ]}) carried).

(** ** The operations *)

(** [load(order)]: the value read and the thread's new view. *)
Definition atomic_load {A} (l : loc) (o : memory_order) (p : pick)
    (h : history A) (cur : view) : option (A * view) :=
  let t := pick_ts p h in
  m ← h !! t;
  if decide (readable l o t h cur) then Some (mval m, read_view l o t m cur)
  else None.

(** [store(v, order)]: the new history and view. *)
Definition atomic_store {A} (l : loc) (o : memory_order) (v : A)
    (h : history A) (cur : view) : history A * view :=
  let t := length h in
  let cur' := vset l t cur in
  (h ++ [write_msg l o v t cur' ∅], cur').

(** A read-modify-write with order [o] that replaces the newest value [x]
    by [f x]: the value read, the new history and view. *)
Definition atomic_rmw {A} (l : loc) (o : memory_order) (f : A → A)
    (h : history A) (cur : view) : option (A * history A * view) :=
  m ← last h;
  let t := length h in
  let cur' := vset l t (read_view l o (pred t) m cur) in
  Some (mval m, h ++ [write_msg l o (f (mval m)) t cur' (mview m)], cur').

(** [fetch_add(d, order)] on an [int]. *)
Definition atomic_fetch_add (l : loc) (o : memory_order) (d : Z)
    (h : history Z) (cur : view) : option (Z * history Z * view) :=
  atomic_rmw l o (λ x, int_add x d) h cur.

(** [compare_exchange_weak(expected, desired, success, failure)]: whether
    it succeeded, the value left in [expected], the new history and view.
    With [latest] the comparison is made on the newest message: it
    succeeds when the value is the expected one, and fails otherwise.
    With [at_ts t] it fails having read message [t], spuriously so when
    that message holds the expected value. *)
Definition compare_exchange_weak {A} `{EqDecision A} (l : loc)
    (success failure : memory_order) (expected desired : A) (p : pick)
    (h : history A) (cur : view) : option (bool * A * history A * view) :=
  let fail :=
    '(x, cur') ← atomic_load l failure p h cur; Some (false, x, h, cur') in
  match p with
  | latest =>
      m ← last h;
      if decide (mval m = expected) then
        '(_, h', cur') ← atomic_rmw l success (λ _, desired) h cur;
        Some (true, expected, h', cur')
      else fail
  | at_ts _ => fail
  end.

(** ** Well-formedness *)

(** A history has an initial message, and no message knows of a message
    of its own location newer than itself. *)
Definition hist_wf {A} (l : loc) (h : history A) : Prop :=
  h ≠ [] ∧ ∀ t m, h !! t = Some m → vget (mview m) l ≤ t.

(** A view knows only messages that exist: [len l] is the length of the
    history of [l]. *)
Definition view_closed (len : loc → nat) (V : view) : Prop :=
  ∀ l, vget V l ≤ pred (len l).

(** Every message of a history has a closed view. *)
Definition hist_closed {A} (len : loc → nat) (h : history A) : Prop :=
  ∀ t m, h !! t = Some m → view_closed len (mview m).

(** ** Instances *)

#[export] Instance msg_eq_dec {A} `{EqDecision A} : EqDecision (msg A).
Proof. solve_decision. Defined.

#[export] Instance knows_dec V l : Decision (knows V l).
Proof. unfold knows. apply _. Defined.

(** ** Views: lookup lemmas and the order *)

Lemma vget_empty l : vget ∅ l = 0.
Proof. unfold vget. by rewrite lookup_empty. Qed.

Lemma vget_singleton l t l' :
  vget {[ l := t ]} l' = if decide (l = l') then t else 0.
Proof.
  unfold vget. case_decide; subst.
  - by rewrite lookup_singleton_eq.
  - by rewrite lookup_singleton_ne.
Qed.

Lemma vget_vset l t V l' :
  vget (vset l t V) l' = if decide (l = l') then t `max` vget V l else vget V l'.
Proof.
  unfold vset, vget at 1. case_decide; subst.
  - by rewrite lookup_insert_eq.
  - by rewrite lookup_insert_ne.
Qed.

Lemma vget_vjoin V1 V2 l : vget (vjoin V1 V2) l = vget V1 l `max` vget V2 l.
Proof.
  unfold vjoin, vget. rewrite lookup_union_with.
  destruct (V1 !! l), (V2 !! l); simpl; lia.
Qed.

#[export] Hint Rewrite vget_empty vget_singleton vget_vset vget_vjoin : acond_rw.

(** [view_solver]: goals that compare timestamps of views built with
    [vset], [vjoin], singletons and the empty view. *)
Ltac view_simpl :=
  intros; unfold view_le, view_closed, read_view, write_msg in *;
  cbn [mview mval fst snd pick_ts] in *; intros;
  repeat match goal with
  | H : ∀ _ : loc, _, l : loc |- _ => learn_hyp (H l)
  end;
  autorewrite with acond_rw in *;
  repeat (case_decide; simplify_eq);
  repeat match goal with
  | |- context [acquires ?o] => destruct (acquires o)
  | |- context [releases ?o] => destruct (releases o)
  | H : context [acquires ?o] |- _ => destruct (acquires o)
  | H : context [releases ?o] |- _ => destruct (releases o)
  end;
  autorewrite with acond_rw in *.

Ltac view_solver := view_simpl; repeat (case_decide; simplify_eq); lia.

#[export] Instance view_le_po : PreOrder view_le.
Proof.
  split; [by intros V l|].
  intros V1 V2 V3 H12 H23 l. etrans; [apply H12|apply H23].
Qed.

Lemma view_le_vset l t V : view_le V (vset l t V).
Proof. view_solver. Qed.

Lemma view_le_vjoin_l V1 V2 : view_le V1 (vjoin V1 V2).
Proof. view_solver. Qed.

Lemma view_le_vjoin_r V1 V2 : view_le V2 (vjoin V1 V2).
Proof. view_solver. Qed.

Lemma vjoin_lub V1 V2 V : view_le V1 V → view_le V2 V → view_le (vjoin V1 V2) V.
Proof. view_solver. Qed.

Lemma view_le_empty V : view_le ∅ V.
Proof. view_solver. Qed.

#[export] Instance vset_mono l t : Proper (view_le ==> view_le) (vset l t).
Proof. intros V1 V2 H. view_solver. Qed.

#[export] Instance vjoin_mono : Proper (view_le ==> view_le ==> view_le) vjoin.
Proof. intros V1 V2 H V1' V2' H'. view_solver. Qed.

#[export] Instance vget_mono : Proper (view_le ==> eq ==> le) vget.
Proof. intros V1 V2 H l ? <-. apply H. Qed.

#[export] Hint Resolve view_le_vset view_le_vjoin_l view_le_vjoin_r
  view_le_empty : acond.

(** ** Well-formedness is decidable *)

Lemma hist_wf_Forall {A} l (h : history A) :
  hist_wf l h ↔
  h ≠ [] ∧ Forall (λ tm : nat * msg A, vget (mview tm.2) l ≤ tm.1) (imap pair h).
Proof.
  unfold hist_wf. rewrite Forall_lookup. split; intros [Hne Hh]; (split; [done|]).
  - intros t [t' m] (m' & Hm & [= -> ->])%list_lookup_imap_Some. simpl. eauto.
  - intros t m Hm. apply (Hh t (t, m)). apply list_lookup_imap_Some. eauto.
Qed.

#[export] Instance hist_wf_dec {A} `{EqDecision A} l (h : history A) :
  Decision (hist_wf l h).
Proof.
  refine (cast_if (decide (h ≠ [] ∧
    Forall (λ tm : nat * msg A, vget (mview tm.2) l ≤ tm.1) (imap pair h))));
    by rewrite hist_wf_Forall.
Defined.

Lemma view_closed_map_Forall len V :
  view_closed len V ↔ map_Forall (λ l t, t ≤ pred (len l)) V.
Proof.
  split.
  - intros H l t Hl. specialize (H l). unfold vget in H. by rewrite Hl in H.
  - intros H l. unfold vget. destruct (V !! l) as [t|] eqn:Hl; simpl; [|lia].
    by apply (H l).
Qed.

#[export] Instance view_closed_dec len V : Decision (view_closed len V).
Proof.
  refine (cast_if (decide (map_Forall (λ l t, t ≤ pred (len l)) V)));
    by rewrite view_closed_map_Forall.
Defined.

Lemma hist_closed_Forall {A} len (h : history A) :
  hist_closed len h ↔ Forall (λ m, view_closed len (mview m)) h.
Proof. unfold hist_closed. by rewrite Forall_lookup. Qed.

#[export] Instance hist_closed_dec {A} len (h : history A) :
  Decision (hist_closed len h).
Proof.
  refine (cast_if (decide (Forall (λ m, view_closed len (mview m)) h)));
    by rewrite hist_closed_Forall.
Defined.

(** ** Closed views *)

Section closed.
Implicit Types (len : loc → nat) (V : view).

Lemma view_closed_mono len len' V :
  (∀ l, len l ≤ len' l) → view_closed len V → view_closed len' V.
Proof. intros Hlen HV l. specialize (Hlen l). specialize (HV l). lia. Qed.

Lemma view_closed_empty len : view_closed len ∅.
Proof. view_solver. Qed.

Lemma view_closed_vjoin len V1 V2 :
  view_closed len V1 → view_closed len V2 → view_closed len (vjoin V1 V2).
Proof. view_solver. Qed.

Lemma view_closed_vset len l t V :
  t < len l → view_closed len V → view_closed len (vset l t V).
Proof. view_solver. Qed.

Lemma view_closed_singleton len l t : t < len l → view_closed len {[ l := t ]}.
Proof. view_solver. Qed.

Lemma hist_closed_mono {A} len len' (h : history A) :
  (∀ l, len l ≤ len' l) → hist_closed len h → hist_closed len' h.
Proof. intros Hlen Hh t m Hm. eapply view_closed_mono; eauto. Qed.

Lemma hist_closed_snoc {A} len (h : history A) m :
  hist_closed len h → view_closed len (mview m) → hist_closed len (h ++ [m]).
Proof.
  intros Hh Hm t m' [[_ ?]|[_ <-]]%lookup_snoc_Some; eauto.
Qed.

End closed.

#[export] Hint Resolve view_closed_empty view_closed_vjoin view_closed_vset
  view_closed_singleton hist_closed_snoc : acond.

(** ** What a view knows of *)

Section knows.
Implicit Types (V cur : view) (l : loc).

Lemma knows_empty l : ¬ knows ∅ l.
Proof. unfold knows. rewrite lookup_empty. by intros []. Qed.

Lemma knows_singleton l t l' : knows {[ l := t ]} l' ↔ l = l'.
Proof. unfold knows. rewrite lookup_singleton_is_Some. done. Qed.

Lemma knows_vset l t V l' : knows (vset l t V) l' ↔ l = l' ∨ knows V l'.
Proof. unfold knows, vset. by rewrite lookup_insert_is_Some'. Qed.

Lemma knows_vjoin V1 V2 l : knows (vjoin V1 V2) l ↔ knows V1 l ∨ knows V2 l.
Proof.
  unfold knows, vjoin. rewrite lookup_union_with.
  destruct (V1 !! l), (V2 !! l); simpl; naive_solver.
Qed.

#[export] Instance view_sub_po : PreOrder view_sub.
Proof. split; [by intros V l|]. intros V1 V2 V3 H12 H23 l ?. auto. Qed.

Lemma view_sub_vset l t V : view_sub V (vset l t V).
Proof. intros l' ?. apply knows_vset. auto. Qed.

Lemma view_sub_vjoin_l V1 V2 : view_sub V1 (vjoin V1 V2).
Proof. intros l ?. apply knows_vjoin. auto. Qed.

Lemma view_sub_vjoin_r V1 V2 : view_sub V2 (vjoin V1 V2).
Proof. intros l ?. apply knows_vjoin. auto. Qed.

Lemma view_sub_empty V : view_sub ∅ V.
Proof. by intros l ?%knows_empty. Qed.

(** A read adds what the message read has released, and the location
    read. *)
Lemma knows_read_view {A} l o t (m : msg A) cur l' :
  knows (read_view l o t m cur) l' →
  l = l' ∨ knows cur l' ∨ knows (mview m) l'.
Proof.
  unfold read_view. rewrite knows_vset. destruct (acquires o);
    rewrite ?knows_vjoin; naive_solver.
Qed.

Lemma view_sub_read_view {A} l o t (m : msg A) cur :
  view_sub cur (read_view l o t m cur).
Proof.
  intros l' ?. unfold read_view. apply knows_vset. right.
  destruct (acquires o); [apply knows_vjoin|]; auto.
Qed.

(** What a write releases, its writer knows. *)
Lemma view_sub_write_msg {A} l o (x : A) t cur carried :
  knows cur l → view_sub carried cur →
  view_sub (mview (write_msg l o x t cur carried)) cur.
Proof.
  intros Hl Hc l'. unfold write_msg. simpl. rewrite knows_vjoin.
  destruct (releases o); rewrite ?knows_singleton; naive_solver.
Qed.

End knows.

(** ** The operations: what they return *)

Section operations.
Context {A : Type} `{EqDecision A}.
Implicit Types (h : history A) (cur : view) (l : loc) (o : memory_order).

Lemma hist_wf_snoc l h m :
  hist_wf l h → vget (mview m) l ≤ length h → hist_wf l (h ++ [m]).
Proof.
  intros [_ Hh] Hm. split; [apply snoc_ne_nil|].
  intros t m' [[_ ?]|[-> <-]]%lookup_snoc_Some; eauto.
Qed.

Lemma hvals_snoc h m : hvals (h ++ [m]) = hvals h ++ [mval m].
Proof. unfold hvals. by rewrite fmap_app. Qed.

Lemma hvals_length h : length (hvals h) = length h.
Proof. apply length_fmap. Qed.

Lemma hvals_lookup h t : hvals h !! t = mval <$> h !! t.
Proof. apply list_lookup_fmap. Qed.

Lemma hvals_last h : last (hvals h) = mval <$> last h.
Proof. unfold hvals. apply fmap_last. Qed.

(** *** load *)

Lemma atomic_load_Some l o p h cur x cur' :
  atomic_load l o p h cur = Some (x, cur') ↔
  ∃ m, h !! pick_ts p h = Some m ∧ readable l o (pick_ts p h) h cur ∧
       x = mval m ∧ cur' = read_view l o (pick_ts p h) m cur.
Proof.
  unfold atomic_load. split.
  - intros (m & Hm & H)%bind_Some. case_decide; naive_solver.
  - intros (m & -> & Hr & -> & ->). simpl. by rewrite decide_True.
Qed.

(** A thread can always read the newest message. *)
Lemma atomic_load_latest l o h cur :
  h ≠ [] → vget cur l ≤ pred (length h) →
  ∃ m, last h = Some m ∧
       atomic_load l o latest h cur
       = Some (mval m, read_view l o (pred (length h)) m cur).
Proof.
  intros Hne Hcur. destruct (last_is_Some h Hne) as [m Hm].
  exists m. split; [done|]. apply atomic_load_Some. exists m. simpl.
  rewrite <-last_lookup_pred. split_and!; try done.
  split; [done|]. intros _. simpl. destruct h; [done|]. simpl. lia.
Qed.

(** A [seq_cst] load returns the newest value. *)
Lemma atomic_load_seq_cst l p h cur x cur' :
  atomic_load l memory_order_seq_cst p h cur = Some (x, cur') →
  last (hvals h) = Some x.
Proof.
  intros (m & Hm & [_ Hsc] & -> & _)%atomic_load_Some.
  rewrite hvals_last, last_lookup_pred.
  rewrite <-(Hsc eq_refl). simpl. by rewrite Hm.
Qed.

(** Coherence: the thread's view only grows, and from then on covers the
    message read. *)
Lemma atomic_load_view l o p h cur x cur' :
  atomic_load l o p h cur = Some (x, cur') →
  view_le cur cur' ∧ pick_ts p h ≤ vget cur' l.
Proof.
  intros (m & _ & _ & _ & ->)%atomic_load_Some. split; view_solver.
Qed.

(** A load that acquires learns the view of the message. *)
Lemma atomic_load_acquire l o p h cur x cur' :
  acquires o = true →
  atomic_load l o p h cur = Some (x, cur') →
  ∃ m, h !! pick_ts p h = Some m ∧ view_le (mview m) cur'.
Proof.
  intros Ho (m & Hm & _ & _ & ->)%atomic_load_Some.
  exists m. split; [done|]. unfold read_view. rewrite Ho. view_solver.
Qed.

(** In a well-formed history the view of the location after a load is
    exactly the timestamp read. *)
Lemma atomic_load_ts l o p h cur x cur' :
  hist_wf l h →
  atomic_load l o p h cur = Some (x, cur') →
  vget cur' l = pick_ts p h.
Proof.
  intros [_ Hwf] (m & Hm & [Hr _] & _ & ->)%atomic_load_Some.
  specialize (Hwf _ _ Hm). view_solver.
Qed.

Lemma atomic_load_closed len l o p h cur x cur' :
  len l = length h → hist_closed len h → view_closed len cur →
  atomic_load l o p h cur = Some (x, cur') →
  view_closed len cur'.
Proof.
  intros Hlen Hh Hcur (m & Hm & _ & _ & ->)%atomic_load_Some.
  pose proof (lookup_lt_Some _ _ _ Hm). specialize (Hh _ _ Hm).
  unfold read_view. apply view_closed_vset; [lia|].
  destruct (acquires o); auto with acond.
Qed.

(** *** store *)

Lemma atomic_store_hvals l o v h cur :
  hvals (atomic_store l o v h cur).1 = hvals h ++ [v].
Proof. unfold atomic_store. simpl. by rewrite hvals_snoc. Qed.

Lemma atomic_store_view l o v h cur :
  view_le cur (atomic_store l o v h cur).2 ∧
  length h ≤ vget (atomic_store l o v h cur).2 l.
Proof. unfold atomic_store. simpl. split; view_solver. Qed.

Lemma atomic_store_wf l o v h cur :
  hist_wf l h → vget cur l ≤ pred (length h) →
  hist_wf l (atomic_store l o v h cur).1.
Proof.
  intros Hwf Hcur. apply hist_wf_snoc; [done|].
  unfold write_msg. simpl. view_solver.
Qed.

(** A store that releases publishes the writer's view. *)
Lemma atomic_store_release l o v h cur :
  releases o = true →
  ∃ m, last (atomic_store l o v h cur).1 = Some m ∧ mval m = v ∧
       view_le cur (mview m).
Proof.
  intros Ho. eexists. unfold atomic_store. simpl. rewrite last_snoc.
  split_and!; [done..|]. unfold write_msg. rewrite Ho. view_solver.
Qed.

(** *** read-modify-write *)

Lemma atomic_rmw_Some l o f h cur x h' cur' :
  atomic_rmw l o f h cur = Some (x, h', cur') ↔
  ∃ m, last h = Some m ∧ x = mval m ∧
       cur' = vset l (length h) (read_view l o (pred (length h)) m cur) ∧
       h' = h ++ [write_msg l o (f x) (length h) cur' (mview m)].
Proof.
  unfold atomic_rmw. split.
  - intros (m & Hm & H)%bind_Some. naive_solver.
  - intros (m & -> & -> & -> & ->). done.
Qed.

Lemma atomic_rmw_length l o f h cur x h' cur' :
  atomic_rmw l o f h cur = Some (x, h', cur') → length h' = S (length h).
Proof.
  intros (m & _ & _ & _ & ->)%atomic_rmw_Some. apply length_snoc.
Qed.

(** A read-modify-write never blocks on an initialised object. *)
Lemma atomic_rmw_progress l o f h cur :
  h ≠ [] → is_Some (atomic_rmw l o f h cur).
Proof.
  intros [m Hm]%last_is_Some. unfold atomic_rmw. rewrite Hm. simpl. eauto.
Qed.

(** It reads the newest value and appends the new one next to it. *)
Lemma atomic_rmw_hvals l o f h cur x h' cur' :
  atomic_rmw l o f h cur = Some (x, h', cur') →
  last (hvals h) = Some x ∧ hvals h' = hvals h ++ [f x].
Proof.
  intros (m & Hm & -> & _ & ->)%atomic_rmw_Some.
  rewrite hvals_last, Hm, hvals_snoc. done.
Qed.

Lemma atomic_rmw_view l o f h cur x h' cur' :
  atomic_rmw l o f h cur = Some (x, h', cur') →
  view_le cur cur' ∧ length h ≤ vget cur' l.
Proof.
  intros (m & _ & _ & -> & _)%atomic_rmw_Some. split; view_solver.
Qed.

Lemma atomic_rmw_wf l o f h cur x h' cur' :
  hist_wf l h → vget cur l ≤ pred (length h) →
  atomic_rmw l o f h cur = Some (x, h', cur') →
  hist_wf l h' ∧ vget cur' l = length h.
Proof.
  intros Hwf Hcur (m & Hm & -> & -> & ->)%atomic_rmw_Some.
  assert (vget (mview m) l ≤ pred (length h)) as Hmv.
  { rewrite last_lookup_pred in Hm. by apply Hwf. }
  split; [apply hist_wf_snoc; [done|]; unfold write_msg; simpl|];
    view_solver.
Qed.

Lemma atomic_rmw_closed len l o f h cur x h' cur' :
  S (length h) ≤ len l → hist_closed len h → view_closed len cur →
  atomic_rmw l o f h cur = Some (x, h', cur') →
  hist_closed len h' ∧ view_closed len cur'.
Proof.
  intros Hlen Hh Hcur (m & Hm & -> & -> & ->)%atomic_rmw_Some.
  rewrite last_lookup_pred in Hm. specialize (Hh _ _ Hm) as Hmv.
  assert (view_closed len
    (vset l (length h) (read_view l o (pred (length h)) m cur))) as Hc.
  { unfold read_view. apply view_closed_vset; [lia|].
    apply view_closed_vset; [lia|]. destruct (acquires o); auto with acond. }
  split; [|done]. apply hist_closed_snoc; [done|].
  unfold write_msg. simpl. apply view_closed_vjoin; [|done].
  destruct (releases o); [done|]. apply view_closed_singleton. lia.
Qed.

(** *** compare_exchange_weak *)

(** The two ways a weak compare-exchange returns: it succeeded as a
    read-modify-write of the newest message, which held the expected value;
    or it failed as a load, leaving the history as it was and the value
    read in [expected]. *)
Lemma compare_exchange_weak_Some l so fo e d p h cur ok e' h' cur' :
  compare_exchange_weak l so fo e d p h cur = Some (ok, e', h', cur') ↔
  (ok = true ∧ p = latest ∧ e' = e ∧ last (hvals h) = Some e ∧
   atomic_rmw l so (λ _, d) h cur = Some (e, h', cur')) ∨
  (ok = false ∧ h' = h ∧ atomic_load l fo p h cur = Some (e', cur') ∧
   (p = latest → e' ≠ e)).
Proof.
  unfold compare_exchange_weak. rewrite hvals_last. split.
  - destruct p as [|t].
    + intros (m & Hm & H)%bind_Some. rewrite Hm. case_decide as He.
      * apply bind_Some in H as ([[x h1] c1] & Hrmw & ?). simplify_eq.
        left. split_and!; try done.
        apply atomic_rmw_Some in Hrmw as (m' & ? & -> & ?).
        apply atomic_rmw_Some. naive_solver.
      * apply bind_Some in H as ([x c1] & Hld & ?). simplify_eq.
        right. split_and!; try done. intros _.
        apply atomic_load_Some in Hld as (m' & Hm' & _ & -> & _).
        simpl in Hm'. rewrite <-last_lookup_pred in Hm'. naive_solver.
    + intros ([x c1] & Hld & ?)%bind_Some. simplify_eq. by right.
  - intros [(-> & -> & -> & Hl & Hrmw)|(-> & -> & Hld & Hne)].
    + apply fmap_Some in Hl as (m & Hm & ->). rewrite Hm. simpl.
      rewrite decide_True by done. by rewrite Hrmw.
    + destruct p as [|t]; [|by rewrite Hld].
      apply atomic_load_Some in Hld as Hld'.
      destruct Hld' as (m & Hm & _ & -> & _).
      simpl in Hm. rewrite <-last_lookup_pred in Hm. rewrite Hm. simpl.
      rewrite decide_False by auto. by rewrite Hld.
Qed.

(** A failure is spurious when the value read is the expected one: this
    happens only with a pick [at_ts]. *)
Lemma compare_exchange_weak_spurious l so fo e d p h cur h' cur' :
  compare_exchange_weak l so fo e d p h cur = Some (false, e, h', cur') →
  ∃ t, p = at_ts t ∧ hvals h !! t = Some e.
Proof.
  intros [(? & _)|(_ & -> & Hld & Hne)]%compare_exchange_weak_Some; [done|].
  destruct p as [|t]; [by destruct Hne|]. exists t. split; [done|].
  apply atomic_load_Some in Hld as (m & Hm & _ & -> & _).
  rewrite hvals_lookup. simpl in Hm. by rewrite Hm.
Qed.

(** On the newest message the operation behaves as the strong one: it
    never blocks, and succeeds exactly when the newest value is the
    expected one. *)
Lemma compare_exchange_weak_latest l so fo e d h cur :
  h ≠ [] → vget cur l ≤ pred (length h) →
  ∃ ok e' h' cur',
    compare_exchange_weak l so fo e d latest h cur = Some (ok, e', h', cur') ∧
    last (hvals h) = Some e' ∧ (ok = true ↔ e' = e).
Proof.
  intros Hne Hcur.
  destruct (atomic_load_latest l fo h cur Hne Hcur) as (m & Hm & Hld).
  unfold compare_exchange_weak. rewrite hvals_last, Hm. simpl.
  case_decide as He.
  - destruct (atomic_rmw_progress l so (λ _, d) h cur Hne) as [[[x h1] c1] ->].
    simpl. exists true, e, h1, c1. by rewrite He.
  - rewrite Hld. simpl. do 4 eexists. split; [done|].
    split; [done|]. naive_solver.
Qed.

Lemma compare_exchange_weak_view l so fo e d p h cur ok e' h' cur' :
  compare_exchange_weak l so fo e d p h cur = Some (ok, e', h', cur') →
  view_le cur cur' ∧ h `prefix_of` h'.
Proof.
  intros [(_ & _ & _ & _ & Hrmw)|(_ & -> & Hld & _)]%compare_exchange_weak_Some.
  - split; [by eapply atomic_rmw_view|].
    apply atomic_rmw_Some in Hrmw as (m & _ & _ & _ & ->).
    apply prefix_snoc.
  - split; [by eapply atomic_load_view|done].
Qed.

End operations.

(** *** What the operations learn

    An operation never forgets: the view after it knows of every location
    the view before it knew of.  A load learns of the location it reads
    and of what the message it reads has released, and of nothing else; a
    store releases nothing that its writer does not know. *)

Section learn.
Context {A : Type}.
Implicit Types (h : history A) (cur : view) (l : loc).

Lemma atomic_load_knows l o p h cur x cur' :
  atomic_load l o p h cur = Some (x, cur') →
  view_sub cur cur' ∧
  ∀ l', knows cur' l' → l' = l ∨ knows cur l' ∨ ∃ m, m ∈ h ∧ knows (mview m) l'.
Proof.
  intros (m & Hm & _ & _ & ->)%atomic_load_Some.
  split; [apply view_sub_read_view|].
  intros l' [?|[?|?]]%knows_read_view; auto.
  right. right. exists m. split; [by eapply list_elem_of_lookup_2|done].
Qed.

Lemma atomic_store_knows l o (x : A) h cur :
  view_sub cur (atomic_store l o x h cur).2 ∧
  ∃ m, (atomic_store l o x h cur).1 = h ++ [m] ∧
       view_sub (mview m) (atomic_store l o x h cur).2.
Proof.
  unfold atomic_store. simpl. split; [apply view_sub_vset|].
  eexists. split; [done|]. apply view_sub_write_msg.
  - apply knows_vset. auto.
  - apply view_sub_empty.
Qed.

Lemma atomic_store_knows_inv l o (x : A) h cur l' :
  knows (atomic_store l o x h cur).2 l' → l' = l ∨ knows cur l'.
Proof. unfold atomic_store. simpl. rewrite knows_vset. naive_solver. Qed.

Lemma atomic_rmw_knows l o f h cur x h' cur' :
  atomic_rmw l o f h cur = Some (x, h', cur') → view_sub cur cur'.
Proof.
  intros (m & _ & _ & -> & _)%atomic_rmw_Some.
  etrans; [apply (view_sub_read_view l o (pred (length h)) m)|apply view_sub_vset].
Qed.

Lemma compare_exchange_weak_knows `{EqDecision A} l so fo e d p h cur ok e' h' cur' :
  compare_exchange_weak l so fo e d p h cur = Some (ok, e', h', cur') →
  view_sub cur cur'.
Proof.
  intros [(_ & _ & _ & _ & Hrmw)|(_ & _ & Hld & _)]%compare_exchange_weak_Some.
  - by eapply atomic_rmw_knows.
  - by destruct (atomic_load_knows _ _ _ _ _ _ _ Hld).
Qed.

End learn.
