(* ===== verification/Foo.v ===== *)
(** * Foo: the class of the counters

    [class Foo] (src/main.cpp lines 12-48, src/main_seqcst_padding.cpp
    lines 12-48) has a thread handle [m_thread], an atomic counter [m_v]
    and the static atomic flag [m_cond] shared by all objects.

    - [variant] collects what differs between the two source files: the
      memory orders of every atomic call, the order in which the members
      are declared (and so initialised), and the test of [main] on the
      counter.  [main_cpp] and [main_seqcst_padding_cpp] are the two files.
    - [memory] is the state of the atomic objects: the history of
      [Foo::m_cond] and, for every object whose member [m_v] has been
      initialised, the history of its counter.
    - [do_work] and [count] are the member functions; [Foo_init_m_v] and
      [Foo_ctor_body] are the constructor's steps on memory (starting the
      thread is a step on the thread pool: see [System]); [ctor_steps]
      gives their order.

    An operation on the counter of an object whose [m_v] has not been
    initialised yet returns [None]: the C++ program has undefined behaviour
    there. *)

From S2P Require Import Prelude Int32 Memory.

(** ** The two source files *)

Record variant := Variant {
  (** [m_v.store(i, _)] in the constructor *)
  o_ctor_store : memory_order;
  (** [m_v.fetch_add(1, _)] in [do_work] *)
  o_do_work : memory_order;
  (** [m_v.load(_)] in [count] *)
  o_count : memory_order;
  (** [Foo::m_cond.load(_)] in [do_thing] *)
  o_do_thing : memory_order;
  (** [Foo::m_cond.load(_)] in the condition of the outer loop of [main] *)
  o_main_poll : memory_order;
  (** [finish_work = Foo::m_cond.load(_)] *)
  o_finish_work : memory_order;
  (** success and failure orders of [compare_exchange_weak] *)
  o_cas_success : memory_order;
  o_cas_failure : memory_order;
  (** [m_thread] is declared, hence initialised, before [m_v] *)
  thread_before_counter : bool;
  (** the test of [main] on [a.count()] *)
  signal_reached : Z → bool;
}.

(** src/main.cpp *)
Definition main_cpp : variant := {|
  o_ctor_store := memory_order_release;
  o_do_work := memory_order_release;
  o_count := memory_order_acquire;
  o_do_thing := memory_order_acquire;
  o_main_poll := memory_order_relaxed;
  o_finish_work := memory_order_acquire;
  o_cas_success := memory_order_release;
  o_cas_failure := memory_order_relaxed;
  thread_before_counter := true;
  signal_reached := λ cnt, (10 <=? cnt)%Z;
|}.

(** src/main_seqcst_padding.cpp: no order argument anywhere, the counter
    declared before the thread. *)
Definition main_seqcst_padding_cpp : variant := {|
  o_ctor_store := memory_order_seq_cst;
  o_do_work := memory_order_seq_cst;
  o_count := memory_order_seq_cst;
  o_do_thing := memory_order_seq_cst;
  o_main_poll := memory_order_seq_cst;
  o_finish_work := memory_order_seq_cst;
  o_cas_success := memory_order_seq_cst;
  o_cas_failure := memory_order_seq_cst;
  thread_before_counter := false;
  signal_reached := λ cnt, (1 <? cnt)%Z;
|}.

(** ** Memory *)

Record memory := Memory {
  (** [static std::atomic_bool m_cond] *)
  cond : history bool;
  (** [std::atomic_int m_v] of the objects whose member is initialised *)
  cells : gmap nat (history Z);
}.

(** [std::atomic_bool Foo::m_cond { false }] *)
Definition m_cond_init : history bool := [Msg false ∅].

(** The memory at the start of [main]: the flag, no object. *)
Definition memory_init : memory := Memory m_cond_init ∅.

Definition set_cond (h : history bool) (mem : memory) : memory :=
  Memory h (cells mem).

Definition set_cell (o : nat) (h : history Z) (mem : memory) : memory :=
  Memory (cond mem) (<[o := h]> (cells mem)).

(** The number of messages of a location. *)
Definition hist_len (mem : memory) (l : loc) : nat :=
  match l with
  | m_cond => length (cond mem)
  | m_v o => from_option length 0 (cells mem !! o)
  end.

(** ** The thread handle *)

(** [std::thread m_thread]: not yet constructed, running or finished but
    not joined ([joinable()] holds), joined. *)
Inductive thread_handle :=
  | not_started
  | joinable
  | joined.

(** ** The members *)

Section members.
Context (v : variant).

(** [std::atomic_int m_v { 0 }]: the member's initialisation. *)
Definition Foo_init_m_v (o : nat) (mem : memory) : memory :=
  set_cell o [Msg 0%Z ∅] mem.

(** The body of [Foo(int i)]: [m_v.store(i, order)]. *)
Definition Foo_ctor_body (o : nat) (i : Z) (mem : memory) (cur : view)
    : option (memory * view) :=
  h ← cells mem !! o;
  let '(h', cur') := atomic_store (m_v o) (o_ctor_store v) i h cur in
  Some (set_cell o h' mem, cur').

(** [void do_work()]: [m_v.fetch_add(1, order)]. *)
Definition do_work (o : nat) (mem : memory) (cur : view)
    : option (memory * view) :=
  h ← cells mem !! o;
  '(_, h', cur') ← atomic_fetch_add (m_v o) (o_do_work v) 1 h cur;
  Some (set_cell o h' mem, cur').

(** [int count() const]: [return m_v.load(order)]. *)
Definition count (o : nat) (p : pick) (mem : memory) (cur : view)
    : option (Z * view) :=
  h ← cells mem !! o;
  atomic_load (m_v o) (o_count v) p h cur.

(** The steps of the constructor, in the order of the member
    declarations; the body comes last. *)
Inductive ctor_step :=
  | init_m_thread
  | init_m_v
  | ctor_body.

Definition ctor_steps : list ctor_step :=
  if thread_before_counter v then [init_m_thread; init_m_v; ctor_body]
  else [init_m_v; init_m_thread; ctor_body].

(** The condition of [~Foo()]: [m_thread.joinable()]. *)
Definition Foo_dtor_joins (h : thread_handle) : bool :=
  match h with
  | joinable => true
  | _ => false
  end.

End members.

(** ** Invariants of memory *)

(** Every history is well formed and knows only existing messages. *)
Record mem_wf (mem : memory) : Prop := {
  cond_wf : hist_wf m_cond (cond mem);
  cond_closed : hist_closed (hist_len mem) (cond mem);
  cell_wf o h : cells mem !! o = Some h → hist_wf (m_v o) h;
  cell_closed o h : cells mem !! o = Some h → hist_closed (hist_len mem) h;
}.

(** The counter of an object counts from the constructor's store: the
    message at [base] holds [i], and every later message holds one more
    than the message before it. *)
Definition counts_from (base : nat) (i : Z) (h : history Z) : Prop :=
  ∀ t x, hvals h !! t = Some x → base ≤ t →
    x = wrap_int (i + Z.of_nat (t - base)).

#[export] Instance thread_handle_eq_dec : EqDecision thread_handle.
Proof. solve_decision. Defined.

#[export] Instance ctor_step_eq_dec : EqDecision ctor_step.
Proof. solve_decision. Defined.

#[export] Instance memory_eq_dec : EqDecision memory.
Proof. solve_decision. Defined.

Lemma mem_wf_map_Forall mem :
  mem_wf mem ↔
  hist_wf m_cond (cond mem) ∧ hist_closed (hist_len mem) (cond mem) ∧
  map_Forall (λ o h, hist_wf (m_v o) h ∧ hist_closed (hist_len mem) h)
    (cells mem).
Proof.
  split.
  - intros []. split_and!; [done..|]. intros o h Ho. eauto.
  - intros (? & ? & Hc). split; [done..| |]; intros o h Ho; by apply (Hc o h).
Qed.

#[export] Instance mem_wf_dec mem : Decision (mem_wf mem).
Proof.
  refine (cast_if (decide (hist_wf m_cond (cond mem) ∧
    hist_closed (hist_len mem) (cond mem) ∧
    map_Forall (λ o h, hist_wf (m_v o) h ∧ hist_closed (hist_len mem) h)
      (cells mem))));
    by rewrite mem_wf_map_Forall.
Defined.

Lemma counts_from_Forall base i h :
  counts_from base i h ↔
  Forall (λ tx : nat * Z, base ≤ tx.1 →
            tx.2 = wrap_int (i + Z.of_nat (tx.1 - base))) (imap pair (hvals h)).
Proof.
  rewrite Forall_lookup. split.
  - intros Hc t [t' x] (y & Hy & [= -> ->])%list_lookup_imap_Some. simpl. eauto.
  - intros HF t x Hx Hbt. apply (HF t (t, x)); [|done].
    apply list_lookup_imap_Some. eauto.
Qed.

#[export] Instance counts_from_dec base i h : Decision (counts_from base i h).
Proof.
  refine (cast_if (decide (Forall (λ tx : nat * Z, base ≤ tx.1 →
    tx.2 = wrap_int (i + Z.of_nat (tx.1 - base))) (imap pair (hvals h)))));
    by rewrite counts_from_Forall.
Defined.

(** ** Lemmas on memory *)

Section memory_lemmas.
Implicit Types (mem : memory) (o : nat) (h : history Z) (cur : view).

Lemma hist_len_set_cell o h mem l :
  hist_len (set_cell o h mem) l
  = if decide (l = m_v o) then length h else hist_len mem l.
Proof.
  destruct (decide (l = m_v o)) as [->|Hne]; simpl.
  - by rewrite lookup_insert_eq.
  - destruct l as [|o']; [done|]. simpl.
    rewrite lookup_insert_ne; [done|congruence].
Qed.

Lemma hist_len_set_cond hc mem l :
  hist_len (set_cond hc mem) l
  = if decide (l = m_cond) then length hc else hist_len mem l.
Proof. by destruct l. Qed.

Lemma hist_len_cell mem o h : cells mem !! o = Some h → hist_len mem (m_v o) = length h.
Proof. simpl. by intros ->. Qed.

(** Replacing a history by a longer one makes no location shorter. *)
Lemma hist_len_set_cell_le o h mem l :
  hist_len mem (m_v o) ≤ length h → hist_len mem l ≤ hist_len (set_cell o h mem) l.
Proof. rewrite hist_len_set_cell. case_decide; by simplify_eq. Qed.

Lemma hist_len_set_cond_le hc mem l :
  length (cond mem) ≤ length hc → hist_len mem l ≤ hist_len (set_cond hc mem) l.
Proof. rewrite hist_len_set_cond. case_decide; by simplify_eq. Qed.

Lemma mem_wf_set_cell o h mem :
  mem_wf mem → hist_len mem (m_v o) ≤ length h →
  hist_wf (m_v o) h → hist_closed (hist_len (set_cell o h mem)) h →
  mem_wf (set_cell o h mem).
Proof.
  intros [] Hlen Hwf Hcl.
  pose proof (λ l, hist_len_set_cell_le o h mem l Hlen) as Hle.
  split; simpl.
  - done.
  - by eapply hist_closed_mono.
  - intros o' h' [[-> ->]|[_ ?]]%lookup_insert_Some; eauto.
  - intros o' h' [[-> ->]|[_ ?]]%lookup_insert_Some; [done|].
    eapply hist_closed_mono; eauto.
Qed.

Lemma mem_wf_set_cond hc mem :
  mem_wf mem → length (cond mem) ≤ length hc →
  hist_wf m_cond hc → hist_closed (hist_len (set_cond hc mem)) hc →
  mem_wf (set_cond hc mem).
Proof.
  intros [] Hlen Hwf Hcl.
  pose proof (λ l, hist_len_set_cond_le hc mem l Hlen) as Hle.
  split; simpl; eauto using hist_closed_mono.
Qed.

Lemma mem_wf_init : mem_wf memory_init.
Proof.
  split; simpl; try done.
  - split; [done|]. intros [|t] m Hm; simplify_eq/=. view_solver.
  - intros [|t] m Hm; simplify_eq/=. apply view_closed_empty.
Qed.

(** A closed view of an initialised counter is within its history. *)
Lemma view_closed_cell mem cur o h :
  view_closed (hist_len mem) cur → cells mem !! o = Some h →
  vget cur (m_v o) ≤ pred (length h).
Proof. intros Hc Ho. specialize (Hc (m_v o)). simpl in Hc. by rewrite Ho in Hc. Qed.

Lemma view_closed_cond mem cur :
  view_closed (hist_len mem) cur → vget cur m_cond ≤ pred (length (cond mem)).
Proof. intros Hc. apply (Hc m_cond). Qed.

End memory_lemmas.

#[export] Hint Resolve mem_wf_init view_closed_cell view_closed_cond : acond.

(** ** The member functions *)

Section member_lemmas.
Context (v : variant).
Implicit Types (mem : memory) (o : nat) (h : history Z) (cur : view).

(** What [do_work] returns, read off its definition. *)
Lemma do_work_Some o mem cur mem' cur' :
  do_work v o mem cur = Some (mem', cur') ↔
  ∃ h x h',
    cells mem !! o = Some h ∧
    atomic_fetch_add (m_v o) (o_do_work v) 1 h cur = Some (x, h', cur') ∧
    mem' = set_cell o h' mem.
Proof.
  unfold do_work. split.
  - intros (h & Hh & ([[x h'] c] & Hfa & ?)%bind_Some)%bind_Some.
    simplify_eq. eauto 10.
  - intros (h & x & h' & -> & Hfa & ->). simpl. by rewrite Hfa.
Qed.

Lemma count_Some o p mem cur x cur' :
  count v o p mem cur = Some (x, cur') ↔
  ∃ h, cells mem !! o = Some h ∧
       atomic_load (m_v o) (o_count v) p h cur = Some (x, cur').
Proof.
  unfold count. split.
  - intros (h & Hh & ?)%bind_Some. eauto.
  - intros (h & -> & ?). done.
Qed.

Lemma Foo_ctor_body_Some o i mem cur mem' cur' :
  Foo_ctor_body v o i mem cur = Some (mem', cur') ↔
  ∃ h, cells mem !! o = Some h ∧
       mem' = set_cell o (atomic_store (m_v o) (o_ctor_store v) i h cur).1 mem ∧
       cur' = (atomic_store (m_v o) (o_ctor_store v) i h cur).2.
Proof.
  unfold Foo_ctor_body. split.
  - intros (h & Hh & ?)%bind_Some. simplify_eq/=. eauto.
  - intros (h & -> & -> & ->). done.
Qed.

(** On an object whose counter is not initialised the member functions
    have no defined result. *)
Lemma do_work_uninitialised o mem cur :
  cells mem !! o = None → do_work v o mem cur = None.
Proof. unfold do_work. by intros ->. Qed.

Lemma count_uninitialised o p mem cur :
  cells mem !! o = None → count v o p mem cur = None.
Proof. unfold count. by intros ->. Qed.

(** [do_work] keeps memory well formed and the caller's view closed. *)
Lemma do_work_wf o mem cur mem' cur' :
  mem_wf mem → view_closed (hist_len mem) cur →
  do_work v o mem cur = Some (mem', cur') →
  mem_wf mem' ∧ view_closed (hist_len mem') cur' ∧
  (∀ l, hist_len mem l ≤ hist_len mem' l).
Proof.
  intros Hwf Hcur (h & x & h' & Ho & Hfa & ->)%do_work_Some.
  unfold atomic_fetch_add in Hfa.
  pose proof (atomic_rmw_length _ _ _ _ _ _ _ _ Hfa) as Hlen.
  assert (∀ l, hist_len mem l ≤ hist_len (set_cell o h' mem) l) as Hle.
  { intros l. apply hist_len_set_cell_le. rewrite (hist_len_cell _ _ _ Ho). lia. }
  assert (hist_closed (hist_len (set_cell o h' mem)) h' ∧
          view_closed (hist_len (set_cell o h' mem)) cur') as [Hcl Hcur'].
  { eapply atomic_rmw_closed; [| | |exact Hfa].
    - rewrite hist_len_set_cell, decide_True by done. lia.
    - eapply hist_closed_mono; [exact Hle|by eapply cell_closed].
    - by eapply view_closed_mono. }
  split_and!; [|done..]. apply mem_wf_set_cell; try done.
  - rewrite (hist_len_cell _ _ _ Ho). lia.
  - eapply atomic_rmw_wf; eauto using cell_wf with acond.
Qed.

(** Initialising the counter of a fresh object keeps memory well formed. *)
Lemma Foo_init_m_v_wf o mem :
  mem_wf mem → cells mem !! o = None → mem_wf (Foo_init_m_v o mem).
Proof.
  intros Hwf Ho. apply mem_wf_set_cell; [done| | |].
  - simpl. rewrite Ho. simpl. lia.
  - split; [done|]. intros [|t] m Hm; simplify_eq/=. view_solver.
  - intros [|t] m Hm; simplify_eq/=. apply view_closed_empty.
Qed.

Lemma Foo_init_m_v_len o mem l :
  cells mem !! o = None → hist_len mem l ≤ hist_len (Foo_init_m_v o mem) l.
Proof.
  intros Ho. apply hist_len_set_cell_le. simpl. rewrite Ho. simpl. lia.
Qed.

(** The constructor's store keeps memory well formed and the caller's
    view closed. *)
Lemma Foo_ctor_body_wf o i mem cur mem' cur' :
  mem_wf mem → view_closed (hist_len mem) cur →
  Foo_ctor_body v o i mem cur = Some (mem', cur') →
  mem_wf mem' ∧ view_closed (hist_len mem') cur' ∧
  (∀ l, hist_len mem l ≤ hist_len mem' l).
Proof.
  intros Hwf Hcur (h & Ho & -> & ->)%Foo_ctor_body_Some.
  unfold atomic_store. cbn [fst snd].
  set (h' := h ++ _).
  assert (length h' = S (length h)) as Hlen by apply length_snoc.
  assert (∀ l, hist_len mem l ≤ hist_len (set_cell o h' mem) l) as Hle.
  { intros l. apply hist_len_set_cell_le. rewrite (hist_len_cell _ _ _ Ho). lia. }
  assert (view_closed (hist_len (set_cell o h' mem))
            (vset (m_v o) (length h) cur)) as Hcur'.
  { apply view_closed_vset; [|by eapply view_closed_mono].
    rewrite hist_len_set_cell, decide_True by done. lia. }
  split_and!; [|done..]. apply mem_wf_set_cell; try done.
  - rewrite (hist_len_cell _ _ _ Ho). lia.
  - apply (atomic_store_wf (m_v o) (o_ctor_store v) i h cur);
      eauto using cell_wf with acond.
  - apply hist_closed_snoc.
    + eapply hist_closed_mono; [exact Hle|by eapply cell_closed].
    + unfold write_msg. simpl. apply view_closed_vjoin; [|apply view_closed_empty].
      destruct (releases _); [done|]. apply view_closed_singleton.
      rewrite hist_len_set_cell, decide_True by done. lia.
Qed.

(** An increment that does not acquire teaches the caller nothing about
    the other locations. *)
Lemma do_work_view_other o mem cur mem' cur' l :
  acquires (o_do_work v) = false → l ≠ m_v o →
  do_work v o mem cur = Some (mem', cur') → vget cur' l = vget cur l.
Proof.
  intros Hacq Hl (h & x & h' & Ho & Hfa & ->)%do_work_Some.
  apply atomic_rmw_Some in Hfa as (m & _ & _ & -> & _).
  unfold read_view. rewrite Hacq. view_solver.
Qed.

(** [do_work] changes the counter of its object only. *)
Lemma do_work_mem o mem cur mem' cur' :
  do_work v o mem cur = Some (mem', cur') →
  cond mem' = cond mem ∧
  (∀ o', o' ≠ o → cells mem' !! o' = cells mem !! o') ∧
  hist_len mem' (m_v o) = S (hist_len mem (m_v o)) ∧ view_le cur cur'.
Proof.
  intros (h & x & h' & Ho & Hfa & ->)%do_work_Some.
  pose proof (atomic_rmw_length _ _ _ _ _ _ _ _ Hfa).
  destruct (atomic_rmw_view _ _ _ _ _ _ _ _ Hfa).
  split_and!; [done| | |done].
  - intros o' Hne. simpl. by rewrite lookup_insert_ne.
  - rewrite hist_len_set_cell, decide_True by done.
    by rewrite (hist_len_cell _ _ _ Ho).
Qed.

(** [do_work] never blocks on an initialised counter. *)
Lemma do_work_defined o mem cur h :
  cells mem !! o = Some h → h ≠ [] → is_Some (do_work v o mem cur).
Proof.
  intros Ho Hne.
  destruct (atomic_rmw_progress (m_v o) (o_do_work v) (λ z, int_add z 1) h cur Hne)
    as [[[x h'] cur'] Hrmw].
  exists (set_cell o h' mem, cur'). apply do_work_Some. eauto 10.
Qed.

(** On a well-formed memory [do_work] is defined exactly on the objects
    whose counter is initialised. *)
Lemma do_work_is_Some o mem cur :
  mem_wf mem → is_Some (cells mem !! o) → is_Some (do_work v o mem cur).
Proof.
  intros Hwf [h Ho]. destruct (cell_wf _ Hwf _ _ Ho) as [Hne _].
  by eapply do_work_defined.
Qed.

(** The message [do_work] appends: the newest value plus one. *)
Lemma do_work_last o mem cur mem' cur' h x :
  cells mem !! o = Some h → last (hvals h) = Some x →
  do_work v o mem cur = Some (mem', cur') →
  ∃ m, cells mem' !! o = Some (h ++ [m]) ∧ mval m = int_add x 1.
Proof.
  intros Ho Hx (h0 & y & h' & Ho' & Hfa & ->)%do_work_Some.
  assert (h0 = h) as -> by congruence.
  destruct (atomic_rmw_hvals _ _ _ _ _ _ _ _ Hfa) as [Hy Hv].
  apply atomic_rmw_Some in Hfa as (m0 & _ & _ & _ & Hh').
  eexists. split; [by rewrite <-Hh'; apply lookup_insert_eq|]. simpl. congruence.
Qed.

(** [count] keeps the caller's view closed. *)
(** [count] never blocks on the newest message of an initialised counter,
    and returns its value. *)
Lemma count_latest o mem cur h :
  mem_wf mem → view_closed (hist_len mem) cur → cells mem !! o = Some h →
  ∃ x cur', last (hvals h) = Some x ∧ count v o latest mem cur = Some (x, cur').
Proof.
  intros Hwf Hcl Ho.
  destruct (atomic_load_latest (m_v o) (o_count v) h cur) as (m & Hm & Hld);
    [apply (cell_wf _ Hwf _ _ Ho)|by eapply view_closed_cell|].
  exists (mval m). eexists. split; [by rewrite hvals_last, Hm|].
  apply count_Some. eauto.
Qed.

Lemma count_view o p mem cur x cur' :
  count v o p mem cur = Some (x, cur') → view_le cur cur'.
Proof. intros (h & _ & Hld)%count_Some. by eapply atomic_load_view. Qed.

(** What the member functions learn: [count] learns of the counter and of
    what the message it reads has released; no member function forgets. *)
Lemma count_knows o p mem cur x cur' :
  count v o p mem cur = Some (x, cur') →
  view_sub cur cur' ∧
  ∀ l, knows cur' l →
    l = m_v o ∨ knows cur l ∨
    ∃ h m, cells mem !! o = Some h ∧ m ∈ h ∧ knows (mview m) l.
Proof.
  intros (h & Ho & Hld)%count_Some.
  destruct (atomic_load_knows _ _ _ _ _ _ _ Hld) as [Hsub Hinv].
  split; [done|]. intros l [?|[?|(m & ? & ?)]]%Hinv; eauto 10.
Qed.

Lemma do_work_knows o mem cur mem' cur' :
  do_work v o mem cur = Some (mem', cur') → view_sub cur cur'.
Proof.
  intros (h & x & h' & _ & Hfa & _)%do_work_Some. by eapply atomic_rmw_knows.
Qed.

Lemma Foo_ctor_body_knows o i mem cur mem' cur' :
  Foo_ctor_body v o i mem cur = Some (mem', cur') →
  view_sub cur cur' ∧ (∀ l, knows cur' l → l = m_v o ∨ knows cur l) ∧
  ∃ h m, cells mem !! o = Some h ∧ mem' = set_cell o (h ++ [m]) mem ∧
         mval m = i ∧ view_sub (mview m) cur'.
Proof.
  intros (h & Ho & -> & ->)%Foo_ctor_body_Some.
  destruct (atomic_store_knows (m_v o) (o_ctor_store v) i h cur)
    as (Hsub & m & Hm & Hv).
  split_and!; [done|apply atomic_store_knows_inv|].
  exists h, m. rewrite Hm. split_and!; try done.
  unfold atomic_store in Hm. simpl in Hm. by apply app_inj_1 in Hm as [_ [= <-]].
Qed.

Lemma count_closed o p mem cur x cur' :
  mem_wf mem → view_closed (hist_len mem) cur →
  count v o p mem cur = Some (x, cur') →
  view_closed (hist_len mem) cur' ∧ view_le cur cur'.
Proof.
  intros Hwf Hcur (h & Ho & Hld)%count_Some. split.
  - eapply atomic_load_closed; eauto using cell_closed, hist_len_cell.
  - by eapply atomic_load_view.
Qed.

End member_lemmas.

(** ** Counting *)

Section counting.
Context (v : variant).
Implicit Types (mem : memory) (o : nat) (h : history Z) (cur : view).

Lemma counts_from_snoc base i h m x :
  counts_from base i h → last (hvals h) = Some x → base < length h →
  mval m = int_add x 1 → counts_from base i (h ++ [m]).
Proof.
  intros Hc Hl Hb Hm t y. rewrite hvals_snoc.
  intros [[_ Hy]|[Ht <-]]%lookup_snoc_Some Hbt; [by apply Hc|].
  rewrite hvals_length in Ht. subst t.
  rewrite last_lookup_pred, hvals_length in Hl.
  rewrite (Hc _ _ Hl) in Hm by lia. rewrite Hm. unfold int_add.
  rewrite wrap_int_add_l. f_equal. lia.
Qed.

(** Without overflow, message [t] holds exactly [i + (t - base)]. *)
Lemma counts_from_exact base i h t x :
  counts_from base i h → in_int i →
  in_int (i + Z.of_nat (length h - base)) →
  hvals h !! t = Some x → base ≤ t →
  x = (i + Z.of_nat (t - base))%Z.
Proof.
  intros Hc Hi Hend Hx Hbt. rewrite (Hc _ _ Hx Hbt).
  apply lookup_lt_Some in Hx. rewrite hvals_length in Hx.
  apply wrap_int_id. unfold in_int in *. lia.
Qed.

End counting.

(** ** Properties of the member functions *)

Section properties.
Context (v : variant).
Implicit Types (mem : memory) (o : nat) (h : history Z) (cur : view).

(** C1 (do_work_spec): on an object whose counter is initialised,
    [do_work] never blocks: it appends to the counter's history exactly one
    message, which holds the newest value plus one (modulo 2^32); the flag
    and the counters of the other objects are left as they were, and the
    caller's view only grows. *)
Theorem do_work_spec o mem cur h x :
  cells mem !! o = Some h → last (hvals h) = Some x →
  ∃ mem' cur' m,
    do_work v o mem cur = Some (mem', cur') ∧
    cells mem' !! o = Some (h ++ [m]) ∧ mval m = int_add x 1 ∧
    cond mem' = cond mem ∧
    (∀ o', o' ≠ o → cells mem' !! o' = cells mem !! o') ∧
    view_le cur cur'.
Proof.
  intros Ho Hx.
  assert (h ≠ []) as Hne by (intros ->; done).
  destruct (do_work_defined v o mem cur h Ho Hne) as [[mem' cur'] Hdw].
  destruct (do_work_last v _ _ _ _ _ _ _ Ho Hx Hdw) as (m & Ho' & Hm).
  destruct (do_work_mem v _ _ _ _ _ Hdw) as (Hc & Hother & _ & Hle).
  by exists mem', cur', m.
Qed.

(** C7 (count_after_do_work): a thread that calls [count] after its own
    [do_work] reads the value it has just written, whichever message the
    load is allowed to pick: the thread's view is at its own message, and
    no message is newer. *)
Theorem count_after_do_work o mem cur h y mem' cur' p x cur'' :
  mem_wf mem → view_closed (hist_len mem) cur →
  cells mem !! o = Some h → last (hvals h) = Some y →
  do_work v o mem cur = Some (mem', cur') →
  count v o p mem' cur' = Some (x, cur'') →
  x = int_add y 1.
Proof.
  intros Hwf Hcur Ho Hy (h0 & x0 & h' & Ho' & Hfa & ->)%do_work_Some
    (h1 & Ho1 & Hld)%count_Some.
  assert (h0 = h) as -> by congruence.
  simpl in Ho1. rewrite lookup_insert_eq in Ho1.
  assert (h1 = h') as -> by congruence.
  unfold atomic_fetch_add in Hfa.
  destruct (atomic_rmw_hvals _ _ _ _ _ _ _ _ Hfa) as [Hy' Hv].
  destruct (atomic_rmw_wf (m_v o) _ _ _ _ _ _ _
    (cell_wf _ Hwf _ _ Ho) (view_closed_cell _ _ _ _ Hcur Ho) Hfa) as [_ Hts].
  pose proof (atomic_rmw_length _ _ _ _ _ _ _ _ Hfa) as Hlen.
  apply atomic_load_Some in Hld as (m & Hm & [Hr _] & -> & _).
  assert (pick_ts p h' = length h) as Ht.
  { apply lookup_lt_Some in Hm. lia. }
  assert (hvals h' !! length h = Some (mval m)) as Hm'.
  { by rewrite hvals_lookup, <-Ht, Hm. }
  rewrite Hv, <-(hvals_length h), lookup_snoc_new in Hm'. congruence.
Qed.

(** [do_work_counts_from]: [do_work] continues the count the
    constructor's store has started: if every message from [base] on holds
    the seed plus its distance from [base], so does the message that
    [do_work] appends. *)
Theorem do_work_counts_from o mem cur mem' cur' base i h :
  cells mem !! o = Some h → counts_from base i h → base < length h →
  do_work v o mem cur = Some (mem', cur') →
  ∃ h', cells mem' !! o = Some h' ∧ counts_from base i h' ∧
        length h' = S (length h).
Proof.
  intros Ho Hc Hb (h0 & x & h' & Ho' & Hfa & ->)%do_work_Some.
  assert (h0 = h) as -> by congruence.
  unfold atomic_fetch_add in Hfa.
  destruct (atomic_rmw_hvals _ _ _ _ _ _ _ _ Hfa) as [Hx _].
  apply atomic_rmw_Some in Hfa as (m & _ & _ & _ & ->).
  eexists. split; [by simpl; rewrite lookup_insert_eq|].
  split; [|apply length_snoc]. by eapply counts_from_snoc.
Qed.

(** [Foo_ctor_body_counts_from]: the store in the body of the
    constructor starts the count: its message holds the seed [i], and the
    constructing thread's view is at that message, so that it never reads
    an older value of the counter again. *)
Theorem Foo_ctor_body_counts_from o i mem cur mem' cur' h :
  cells mem !! o = Some h → in_int i →
  Foo_ctor_body v o i mem cur = Some (mem', cur') →
  ∃ h', cells mem' !! o = Some h' ∧ length h' = S (length h) ∧
        counts_from (length h) i h' ∧
        hvals h' !! length h = Some i ∧
        length h ≤ vget cur' (m_v o).
Proof.
  intros Ho Hi (h0 & Ho' & -> & ->)%Foo_ctor_body_Some.
  assert (h0 = h) as -> by congruence.
  eexists. split; [by simpl; rewrite lookup_insert_eq|].
  unfold atomic_store. simpl. split_and!.
  - apply length_snoc.
  - intros t x. rewrite hvals_snoc.
    intros [[Ht _]|[Ht <-]]%lookup_snoc_Some Hbt; rewrite hvals_length in Ht;
      [lia|]. subst t. simpl. rewrite Nat.sub_diag, Z.add_0_r.
    by rewrite wrap_int_id.
  - rewrite hvals_snoc, <-(hvals_length h). apply lookup_snoc_new.
  - view_solver.
Qed.

(** C33 (count_counts_from): a thread whose view of the counter is at or
    past the constructor's store reads seed + k, where k is the number of
    increments between the store and the message read (modulo 2^32). *)
Theorem count_counts_from o mem cur p x cur' base i h :
  cells mem !! o = Some h → counts_from base i h →
  base ≤ vget cur (m_v o) →
  count v o p mem cur = Some (x, cur') →
  ∃ k : nat, base + k < length h ∧ vget cur (m_v o) ≤ base + k ∧
             x = wrap_int (i + Z.of_nat k).
Proof.
  intros Ho Hc Hb (h0 & Ho' & Hld)%count_Some.
  assert (h0 = h) as -> by congruence.
  apply atomic_load_Some in Hld as (m & Hm & [Hr _] & -> & _).
  exists (pick_ts p h - base). apply lookup_lt_Some in Hm as Hlt.
  split_and!; [lia..|]. apply Hc; [|lia].
  by rewrite hvals_lookup, Hm.
Qed.

(** C34 (count_monotone): two successive calls of [count] by one thread
    whose view is past the constructor's store return non-decreasing
    values, as long as the counter has not overflowed; the memory may have
    been extended by other threads between the calls. *)
Theorem count_monotone o base i mem1 mem2 h1 h2 cur p1 x1 cur1 p2 x2 cur2 :
  cells mem1 !! o = Some h1 → cells mem2 !! o = Some h2 →
  h1 `prefix_of` h2 → counts_from base i h2 →
  in_int i → in_int (i + Z.of_nat (length h2 - base)) →
  base ≤ vget cur (m_v o) →
  count v o p1 mem1 cur = Some (x1, cur1) →
  count v o p2 mem2 cur1 = Some (x2, cur2) →
  (x1 ≤ x2)%Z.
Proof.
  intros Ho1 Ho2 Hpre Hc Hi Hend Hb (h1' & ? & Hld1)%count_Some
    (h2' & ? & Hld2)%count_Some.
  assert (h1' = h1) as -> by congruence.
  assert (h2' = h2) as -> by congruence.
  destruct (atomic_load_view _ _ _ _ _ _ _ Hld1) as [_ Ht1].
  apply atomic_load_Some in Hld1 as (m1 & Hm1 & [Hr1 _] & -> & _).
  apply atomic_load_Some in Hld2 as (m2 & Hm2 & [Hr2 _] & -> & _).
  rewrite (counts_from_exact base i h2 (pick_ts p1 h1) (mval m1));
    [|done..| |lia].
  - rewrite (counts_from_exact base i h2 (pick_ts p2 h2) (mval m2));
      [lia|done..| |lia].
    by rewrite hvals_lookup, Hm2.
  - rewrite hvals_lookup. by rewrite (prefix_lookup_Some _ _ _ _ Hm1 Hpre).
Qed.

(** C39 (do_work_overflow): at [INT_MAX] the counter wraps: [do_work]
    writes [INT_MIN], so a counter is non-decreasing only up to 2^31 - 1. *)
Theorem do_work_overflow o mem cur h :
  cells mem !! o = Some h → last (hvals h) = Some INT_MAX →
  ∃ mem' cur' h',
    do_work v o mem cur = Some (mem', cur') ∧
    cells mem' !! o = Some h' ∧ last (hvals h') = Some INT_MIN.
Proof.
  intros Ho Hx.
  assert (h ≠ []) as Hne by (intros ->; done).
  destruct (do_work_defined v o mem cur h Ho Hne) as [[mem' cur'] Hdw].
  destruct (do_work_last v _ _ _ _ _ _ _ Ho Hx Hdw) as (m & Ho' & Hm).
  exists mem', cur', (h ++ [m]). split_and!; [done..|].
  rewrite hvals_snoc, last_snoc, Hm. done.
Qed.

(** C35 (count_acquires_do_work): release/acquire synchronisation on the
    counter.  When the order of [do_work] releases and the order of [count]
    acquires (both hold in both source files), a thread whose [count]
    reads the message of a [do_work] learns everything the incrementing
    thread knew at that call: its view covers the writer's. *)
Theorem count_acquires_do_work o mem curw mem' curw' h curr x curr' :
  releases (o_do_work v) = true → acquires (o_count v) = true →
  cells mem !! o = Some h →
  do_work v o mem curw = Some (mem', curw') →
  count v o (at_ts (length h)) mem' curr = Some (x, curr') →
  view_le curw curr' ∧ view_le curw' curr'.
Proof.
  intros Hrel Hacq Ho (h0 & x0 & h' & Ho' & Hfa & ->)%do_work_Some
    (h1 & Ho1 & Hld)%count_Some.
  assert (h0 = h) as -> by congruence.
  simpl in Ho1. rewrite lookup_insert_eq in Ho1.
  assert (h1 = h') as -> by congruence.
  unfold atomic_fetch_add in Hfa.
  destruct (atomic_rmw_view _ _ _ _ _ _ _ _ Hfa) as [Hle _].
  apply atomic_rmw_Some in Hfa as (m0 & _ & _ & Hcw & ->).
  destruct (atomic_load_acquire _ _ _ _ _ _ _ Hacq Hld) as (m & Hm & Hmv).
  simpl in Hm. rewrite lookup_snoc_new in Hm.
  assert (m = write_msg (m_v o) (o_do_work v) (int_add x0 1) (length h) curw'
    (mview m0)) as -> by congruence.
  assert (view_le curw' curr') as H'; [|split; [by etrans|done]].
  etrans; [|exact Hmv]. unfold write_msg. simpl. rewrite Hrel.
  apply view_le_vjoin_l.
Qed.

End properties.

(** ** Concrete runs

    Object 0 with seed 1, as [main] builds [Foo a { 1 }]: the counter is
    initialised, the constructor stores the seed, and the same thread
    calls [do_work] [n] times and then [count]. *)

Definition run_init : memory := Foo_init_m_v 0 memory_init.

Definition run_ctor (v : variant) : memory * view :=
  default (run_init, ∅) (Foo_ctor_body v 0 1 run_init ∅).

Definition run_work (v : variant) (n : nat) : memory * view :=
  Nat.iter n (λ s, default s (do_work v 0 s.1 s.2)) (run_ctor v).

Definition run_count (v : variant) (p : pick) (s : memory * view) : Z * view :=
  default (0%Z, ∅) (count v 0 p s.1 s.2).

(** The history of the counter of object 0. *)
Definition run_hist (s : memory * view) : history Z :=
  default [] (cells s.1 !! 0).

Lemma run_init_wf : mem_wf run_init.
Proof. by apply Foo_init_m_v_wf; [apply mem_wf_init|]. Qed.

Lemma run_work_wf v n :
  mem_wf (run_work v n).1 ∧ view_closed (hist_len (run_work v n).1) (run_work v n).2.
Proof.
  induction n as [|n [IH1 IH2]].
  - destruct (Foo_ctor_body_wf v 0 1 run_init ∅ (run_ctor v).1 (run_ctor v).2
      run_init_wf (view_closed_empty _) eq_refl) as (? & ? & _). done.
  - unfold run_work. rewrite Nat.iter_succ. fold (run_work v n).
    destruct (do_work v 0 _ _) as [[mem' cur']|] eqn:Hdw; [|done].
    destruct (do_work_wf v 0 _ _ _ _ IH1 IH2 Hdw) as (? & ? & _). done.
Qed.

Lemma do_work_spec_witness :
  ∃ mem' cur' m,
    do_work main_cpp 0 run_init ∅ = Some (mem', cur') ∧
    cells mem' !! 0 = Some ([Msg 0%Z ∅] ++ [m]) ∧ mval m = int_add 0 1 ∧
    cond mem' = cond run_init ∧
    (∀ o', o' ≠ 0 → cells mem' !! o' = cells run_init !! o') ∧
    view_le ∅ cur'.
Proof. by apply (do_work_spec main_cpp 0 run_init ∅ [Msg 0%Z ∅] 0%Z). Defined.

Lemma count_after_do_work_witness :
  (run_count main_cpp latest (run_work main_cpp 1)).1 = int_add 1 1.
Proof.
  apply (count_after_do_work main_cpp 0
    (run_work main_cpp 0).1 (run_work main_cpp 0).2
    (run_hist (run_work main_cpp 0)) 1%Z
    (run_work main_cpp 1).1 (run_work main_cpp 1).2 latest _
    (run_count main_cpp latest (run_work main_cpp 1)).2);
    [apply run_work_wf|apply run_work_wf|vm_compute; reflexivity..].
Defined.

Lemma do_work_counts_from_witness :
  ∃ h', cells (run_work main_cpp 1).1 !! 0 = Some h' ∧ counts_from 1 1 h' ∧
        length h' = 3.
Proof.
  apply (do_work_counts_from main_cpp 0
    (run_work main_cpp 0).1 (run_work main_cpp 0).2
    (run_work main_cpp 1).1 (run_work main_cpp 1).2 1 1%Z
    (run_hist (run_work main_cpp 0)));
    [reflexivity|compute_done|vm_compute; lia|reflexivity].
Defined.

Lemma Foo_ctor_body_counts_from_witness :
  ∃ h', cells (run_ctor main_seqcst_padding_cpp).1 !! 0 = Some h' ∧
        length h' = 2 ∧ counts_from 1 1 h' ∧
        hvals h' !! 1 = Some 1%Z ∧
        1 ≤ vget (run_ctor main_seqcst_padding_cpp).2 (m_v 0).
Proof.
  apply (Foo_ctor_body_counts_from main_seqcst_padding_cpp 0 1%Z run_init ∅
    (run_ctor main_seqcst_padding_cpp).1 (run_ctor main_seqcst_padding_cpp).2
    [Msg 0%Z ∅]); [reflexivity|compute_done|reflexivity].
Defined.

Lemma count_counts_from_witness :
  ∃ k : nat, 1 + k < 4 ∧ vget (run_work main_cpp 2).2 (m_v 0) ≤ 1 + k ∧
             (run_count main_cpp latest (run_work main_cpp 2)).1
             = wrap_int (1 + Z.of_nat k).
Proof.
  apply (count_counts_from main_cpp 0
    (run_work main_cpp 2).1 (run_work main_cpp 2).2 latest
    (run_count main_cpp latest (run_work main_cpp 2)).1
    (run_count main_cpp latest (run_work main_cpp 2)).2 1 1%Z
    (run_hist (run_work main_cpp 2)));
    [reflexivity|compute_done|vm_compute; lia|reflexivity].
Defined.

Lemma count_monotone_witness :
  ((run_count main_cpp latest (run_work main_cpp 1)).1
   ≤ (run_count main_cpp latest
        ((run_work main_cpp 3).1,
         (run_count main_cpp latest (run_work main_cpp 1)).2)).1)%Z.
Proof.
  apply (count_monotone main_cpp 0 1 1%Z
    (run_work main_cpp 1).1 (run_work main_cpp 3).1
    (run_hist (run_work main_cpp 1)) (run_hist (run_work main_cpp 3))
    (run_work main_cpp 1).2 latest _
    (run_count main_cpp latest (run_work main_cpp 1)).2 latest _
    (run_count main_cpp latest
       ((run_work main_cpp 3).1,
        (run_count main_cpp latest (run_work main_cpp 1)).2)).2);
    [reflexivity|reflexivity
    |by exists (drop 3 (run_hist (run_work main_cpp 3)))
    |compute_done|compute_done
    |compute_done|vm_compute; lia|reflexivity|reflexivity].
Defined.

(** The counter of object 0 brought to [INT_MAX]. *)
Definition run_max : memory := set_cell 0 [Msg INT_MAX ∅] memory_init.

Lemma do_work_overflow_witness :
  ∃ mem' cur' h',
    do_work main_cpp 0 run_max ∅ = Some (mem', cur') ∧
    cells mem' !! 0 = Some h' ∧ last (hvals h') = Some INT_MIN.
Proof.
  by apply (do_work_overflow main_cpp 0 run_max ∅ [Msg INT_MAX ∅]).
Defined.

Lemma count_acquires_do_work_witness :
  view_le (run_work main_cpp 0).2
    (run_count main_cpp (at_ts 2) ((run_work main_cpp 1).1, ∅)).2 ∧
  view_le (run_work main_cpp 1).2
    (run_count main_cpp (at_ts 2) ((run_work main_cpp 1).1, ∅)).2.
Proof.
  apply (count_acquires_do_work main_cpp 0
    (run_work main_cpp 0).1 (run_work main_cpp 0).2
    (run_work main_cpp 1).1 (run_work main_cpp 1).2
    (run_hist (run_work main_cpp 0)) ∅
    (run_count main_cpp (at_ts 2) ((run_work main_cpp 1).1, ∅)).1);
    reflexivity.
Defined.
