(* ===== verification/StopFlag.v ===== *)
(** * StopFlag: the flag [Foo::m_cond] and the loop that sets it

    src/main.cpp lines 106-115 (src/main_seqcst_padding.cpp lines 106-112):

    [[
    bool finish_work = Foo::m_cond.load(acquire);
    while (!Foo::m_cond.compare_exchange_weak(finish_work, true,
                                              release, relaxed)
           && !finish_work)
      ++spurious;
    ]]

    The loop is a machine with the locals [finish_work] and [spurious] and
    a program counter [stop_pc]; [try_stop_step] is one atomic action of it
    on the history of the flag, so that other threads may act between two
    of its steps; [try_stop_run] runs it alone through a list of picks.

    The loop leaves by one of the two operands of [&&]: the
    compare-exchange succeeded ([exit_success]), or it failed and left
    [true] in [finish_work] ([exit_finish_work]).  The source returns
    neither; the machine records which, since the specification names the
    two outcomes (WON and ALREADY_STOPPED).

    [++spurious] is an increment of a plain [int]: past [INT_MAX] the C++
    program has undefined behaviour, which the machine records as the
    program counter [stop_undefined]. *)

From S2P Require Import Prelude Int32 Memory Foo.

(** ** The machine *)

Inductive stop_exit :=
  | exit_success
  | exit_finish_work.

Inductive stop_pc :=
  (** before [finish_work = Foo::m_cond.load(...)] *)
  | stop_load
  (** at the condition of the [while] *)
  | stop_cas
  (** after the loop *)
  | stop_done (e : stop_exit)
  (** [++spurious] has overflowed *)
  | stop_undefined.

Record stop_state := StopState {
  s_pc : stop_pc;
  finish_work : bool;
  spurious : Z;
}.

(** The state in which [main] reaches line 106, with the count of
    spurious failures so far ([int spurious { 0 }] at line 98). *)
Definition stop_start (n : Z) : stop_state := StopState stop_load false n.

(** [++spurious]: the new value, or [None] on overflow. *)
Definition incr_spurious (n : Z) : option Z :=
  if decide (n = INT_MAX) then None else Some (n + 1)%Z.

(** The condition and the body of the [while], given what the
    compare-exchange returned ([ok]) and left in [finish_work] ([e]):
    the loop ends when [ok] or [e] holds, and counts a failure otherwise. *)
Definition stop_next (ok e : bool) (n : Z) : stop_state :=
  if ok then StopState (stop_done exit_success) e n
  else if e then StopState (stop_done exit_finish_work) e n
  else
    match incr_spurious n with
    | Some n' => StopState stop_cas e n'
    | None => StopState stop_undefined e n
    end.

(** One step of the loop of a thread with view [cur], reading the message
    of the flag that [p] names. *)
Definition try_stop_step (v : variant) (p : pick) (st : stop_state)
    (h : history bool) (cur : view)
    : option (stop_state * history bool * view) :=
  match s_pc st with
  | stop_load =>
      '(b, cur') ← atomic_load m_cond (o_finish_work v) p h cur;
      Some (StopState stop_cas b (spurious st), h, cur')
  | stop_cas =>
      '(ok, e, h', cur') ←
        compare_exchange_weak m_cond (o_cas_success v) (o_cas_failure v)
          (finish_work st) true p h cur;
      Some (stop_next ok e (spurious st), h', cur')
  | stop_done _ | stop_undefined => None
  end.

(** The loop run alone: one step per pick. *)
Fixpoint try_stop_run (v : variant) (ps : list pick) (st : stop_state)
    (h : history bool) (cur : view)
    : option (stop_state * history bool * view) :=
  match ps with
  | [] => Some (st, h, cur)
  | p :: ps =>
      '(st', h', cur') ← try_stop_step v p st h cur;
      try_stop_run v ps st' h' cur'
  end.

(** ** The flag is one-shot *)

(** The history of the flag: the initial [false], then only [true]. *)
Definition flag_hist (h : history bool) : Prop :=
  ∃ k, hvals h = false :: replicate k true.

(** The flag is set: some message holds [true]. *)
Definition flag_set (h : history bool) : bool :=
  bool_decide (1 < length h).

(** The value of the flag: that of its newest message. *)
Definition flag_value (h : history bool) : bool :=
  default false (last (hvals h)).

(** A thread with view [cur] has seen the flag set. *)
Definition seen_set (cur : view) : bool :=
  bool_decide (1 ≤ vget cur m_cond).

#[export] Instance stop_exit_eq_dec : EqDecision stop_exit.
Proof. solve_decision. Defined.

#[export] Instance stop_pc_eq_dec : EqDecision stop_pc.
Proof. solve_decision. Defined.

#[export] Instance stop_state_eq_dec : EqDecision stop_state.
Proof. solve_decision. Defined.

#[export] Instance flag_hist_dec h : Decision (flag_hist h).
Proof.
  refine (cast_if (decide (hvals h = false :: replicate (pred (length h)) true))).
  - by eexists.
  - intros [k Hk]. assert (length (hvals h) = S k) as Hlen.
    { rewrite Hk. simpl. by rewrite length_replicate. }
    rewrite hvals_length in Hlen. rewrite Hlen in *. done.
Defined.

(** ** The history of the flag *)

Section flag.
Implicit Types (h : history bool) (cur : view).

Lemma flag_hist_init : flag_hist m_cond_init.
Proof. by exists 0. Qed.

(** Message 0 holds [false], every other message [true]. *)
Lemma flag_hist_lookup h t b :
  flag_hist h → hvals h !! t = Some b → b = bool_decide (1 ≤ t).
Proof.
  intros [k Hk]. rewrite Hk. destruct t as [|t]; simpl; [by intros [= <-]|].
  by intros [-> _]%lookup_replicate.
Qed.

Lemma flag_hist_ne h : flag_hist h → h ≠ [].
Proof. intros [k Hk] ->. done. Qed.

Lemma flag_hist_last h : flag_hist h → last (hvals h) = Some (flag_set h).
Proof.
  intros Hf. pose proof (flag_hist_ne _ Hf) as Hne.
  assert (hvals h ≠ []) as [b Hb]%last_is_Some.
  { intros ?%fmap_nil_inv. done. }
  rewrite Hb. f_equal. rewrite last_lookup_pred in Hb.
  rewrite (flag_hist_lookup _ _ _ Hf Hb), hvals_length. unfold flag_set.
  apply bool_decide_ext. destruct h; simpl in *; [done|lia].
Qed.

(** The flag holds [true] exactly when it is set. *)
Lemma flag_hist_value h : flag_hist h → flag_value h = flag_set h.
Proof. intros Hf. unfold flag_value. by rewrite (flag_hist_last h Hf). Qed.

Lemma flag_hist_snoc h m : flag_hist h → mval m = true → flag_hist (h ++ [m]).
Proof.
  intros [k Hk] Hm. exists (S k).
  rewrite hvals_snoc, Hk, Hm, replicate_S_end. done.
Qed.

(** Never back: after a message that holds [true] every message does. *)
Lemma flag_hist_mono h t1 t2 b :
  flag_hist h → hvals h !! t1 = Some true → t1 ≤ t2 →
  hvals h !! t2 = Some b → b = true.
Proof.
  intros Hf H1 Hle H2.
  apply (flag_hist_lookup _ _ _ Hf) in H1, H2. subst b.
  symmetry in H1. apply bool_decide_eq_true in H1.
  apply bool_decide_eq_true. lia.
Qed.

(** A thread that has seen the flag set reads [true] from then on. *)
Lemma seen_set_load h cur o p b cur' :
  flag_hist h → seen_set cur = true →
  atomic_load m_cond o p h cur = Some (b, cur') →
  b = true ∧ seen_set cur' = true.
Proof.
  intros Hf Hs%bool_decide_eq_true Hld.
  destruct (atomic_load_view _ _ _ _ _ _ _ Hld) as [Hle _].
  apply atomic_load_Some in Hld as (m & Hm & [Hr _] & -> & _). split.
  - rewrite (flag_hist_lookup h (pick_ts p h) (mval m) Hf).
    + apply bool_decide_eq_true. lia.
    + by rewrite hvals_lookup, Hm.
  - apply bool_decide_eq_true. specialize (Hle m_cond). lia.
Qed.

(** A load that returns [true] has seen the flag set. *)
Lemma load_true_seen h cur o p cur' :
  flag_hist h → atomic_load m_cond o p h cur = Some (true, cur') →
  seen_set cur' = true ∧ flag_set h = true.
Proof.
  intros Hf Hld.
  destruct (atomic_load_view _ _ _ _ _ _ _ Hld) as [_ Hts].
  apply atomic_load_Some in Hld as (m & Hm & _ & Hv & _).
  assert (1 ≤ pick_ts p h) as Ht.
  { apply (bool_decide_eq_true_1 (1 ≤ pick_ts p h)).
    rewrite <-(flag_hist_lookup h _ true Hf); [done|].
    by rewrite hvals_lookup, Hm, Hv. }
  apply lookup_lt_Some in Hm.
  split; apply bool_decide_eq_true; lia.
Qed.

(** With [seq_cst] a load returns whether the flag is set. *)
Lemma flag_load_seq_cst h cur p b cur' :
  flag_hist h →
  atomic_load m_cond memory_order_seq_cst p h cur = Some (b, cur') →
  b = flag_set h.
Proof.
  intros Hf Hld%atomic_load_seq_cst. rewrite flag_hist_last in Hld by done.
  congruence.
Qed.

(** Without [seq_cst], a thread that has not seen the flag set may still
    read the initial [false], however many messages have followed it, and
    has then still not seen it set. *)
Lemma load_stale h cur o :
  flag_hist h → hist_wf m_cond h → vget cur m_cond = 0 →
  o ≠ memory_order_seq_cst →
  ∃ cur', atomic_load m_cond o (at_ts 0) h cur = Some (false, cur') ∧
          vget cur' m_cond = 0.
Proof.
  intros [k Hk] [_ Hwf] Hcur Ho.
  destruct h as [|m0 h]; [done|]. injection Hk as Hm0 _.
  specialize (Hwf 0 m0 eq_refl). eexists. split.
  - apply atomic_load_Some. exists m0. split_and!; try done.
    split; [simpl; lia|done].
  - view_solver.
Qed.

End flag.

#[export] Hint Resolve flag_hist_init flag_hist_ne flag_hist_snoc : acond.

(** ** The steps of the loop *)

Section steps.
Context (v : variant).
Implicit Types (st : stop_state) (h : history bool) (cur : view) (p : pick).

(** What the loop knows: [finish_work] holds only when the thread has
    seen the flag set. *)
Definition stop_inv (st : stop_state) (cur : view) : Prop :=
  finish_work st = true → seen_set cur = true.

Lemma try_stop_step_load p st h cur st' h' cur' :
  s_pc st = stop_load →
  try_stop_step v p st h cur = Some (st', h', cur') ↔
  ∃ b, atomic_load m_cond (o_finish_work v) p h cur = Some (b, cur') ∧
       h' = h ∧ st' = StopState stop_cas b (spurious st).
Proof.
  intros Hpc. unfold try_stop_step. rewrite Hpc. split.
  - intros ([b c] & Hld & ?)%bind_Some. simplify_eq. eauto.
  - intros (b & -> & -> & ->). done.
Qed.

Lemma try_stop_step_cas p st h cur st' h' cur' :
  s_pc st = stop_cas →
  try_stop_step v p st h cur = Some (st', h', cur') ↔
  ∃ ok e,
    compare_exchange_weak m_cond (o_cas_success v) (o_cas_failure v)
      (finish_work st) true p h cur = Some (ok, e, h', cur') ∧
    st' = stop_next ok e (spurious st).
Proof.
  intros Hpc. unfold try_stop_step. rewrite Hpc. split.
  - intros ([[[ok e] h1] c] & Hcas & ?)%bind_Some. simplify_eq. eauto.
  - intros (ok & e & -> & ->). done.
Qed.

Lemma try_stop_step_pc p st h cur x :
  try_stop_step v p st h cur = Some x → s_pc st = stop_load ∨ s_pc st = stop_cas.
Proof. unfold try_stop_step. destruct (s_pc st); naive_solver. Qed.

(** The four ways out of the loop's condition. *)
Lemma stop_next_cases ok e n :
  (ok = true ∧ stop_next ok e n = StopState (stop_done exit_success) e n) ∨
  (ok = false ∧ e = true ∧
   stop_next ok e n = StopState (stop_done exit_finish_work) e n) ∨
  (ok = false ∧ e = false ∧ n ≠ INT_MAX ∧
   stop_next ok e n = StopState stop_cas e (n + 1)) ∨
  (ok = false ∧ e = false ∧ n = INT_MAX ∧
   stop_next ok e n = StopState stop_undefined e n).
Proof.
  unfold stop_next, incr_spurious.
  destruct ok, e; try case_decide; naive_solver.
Qed.

Lemma stop_next_finish_work ok e n : finish_work (stop_next ok e n) = e.
Proof.
  unfold stop_next, incr_spurious. destruct ok, e; try case_decide; done.
Qed.

(** A compare-exchange on the flag keeps its history one-shot. *)
Lemma flag_cas_hist so fo e p h cur ok e' h' cur' :
  flag_hist h →
  compare_exchange_weak m_cond so fo e true p h cur = Some (ok, e', h', cur') →
  flag_hist h' ∧ (ok = true → length h' = S (length h) ∧ length h ≤ vget cur' m_cond).
Proof.
  intros Hf [(-> & _ & _ & _ & Hrmw)|(-> & -> & _)]%compare_exchange_weak_Some;
    [|done].
  destruct (atomic_rmw_view _ _ _ _ _ _ _ _ Hrmw) as [_ Hts].
  pose proof (atomic_rmw_length _ _ _ _ _ _ _ _ Hrmw) as Hlen.
  apply atomic_rmw_Some in Hrmw as (m & _ & _ & _ & ->).
  split; [by apply flag_hist_snoc|done].
Qed.

Lemma stop_inv_step p st h cur st' h' cur' :
  flag_hist h → stop_inv st cur →
  try_stop_step v p st h cur = Some (st', h', cur') → stop_inv st' cur'.
Proof.
  intros Hf Hinv Hstep.
  destruct (try_stop_step_pc _ _ _ _ _ Hstep) as [Hpc|Hpc].
  - apply (try_stop_step_load _ _ _ _ _ _ _ Hpc) in Hstep as (b & Hld & -> & ->).
    intros Hb. simpl in Hb. subst b. by eapply load_true_seen.
  - apply (try_stop_step_cas _ _ _ _ _ _ _ Hpc) in Hstep as (ok & e & Hcas & ->).
    unfold stop_inv. rewrite stop_next_finish_work. intros ->.
    apply compare_exchange_weak_Some in Hcas
      as [(-> & _ & He & _ & Hrmw)|(-> & -> & Hld & _)].
    + destruct (atomic_rmw_view _ _ _ _ _ _ _ _ Hrmw) as [Hle _].
      unfold stop_inv, seen_set in *. rewrite <-He in Hinv.
      specialize (Hinv eq_refl). apply bool_decide_eq_true in Hinv.
      apply bool_decide_eq_true. specialize (Hle m_cond). lia.
    + by eapply load_true_seen.
Qed.

(** A step of the loop only appends to the history of the flag. *)
Lemma try_stop_step_hist p st h cur st' h' cur' :
  flag_hist h → try_stop_step v p st h cur = Some (st', h', cur') → flag_hist h'.
Proof.
  intros Hf Hstep. destruct (try_stop_step_pc _ _ _ _ _ Hstep) as [Hpc|Hpc].
  - by apply (try_stop_step_load _ _ _ _ _ _ _ Hpc) in Hstep as (b & _ & -> & _).
  - apply (try_stop_step_cas _ _ _ _ _ _ _ Hpc) in Hstep as (ok & e & Hcas & _).
    by destruct (flag_cas_hist _ _ _ _ _ _ _ _ _ _ Hf Hcas).
Qed.

Lemma try_stop_step_prefix p st h cur st' h' cur' :
  try_stop_step v p st h cur = Some (st', h', cur') → h `prefix_of` h'.
Proof.
  intros Hstep. destruct (try_stop_step_pc _ _ _ _ _ Hstep) as [Hpc|Hpc].
  - by apply (try_stop_step_load _ _ _ _ _ _ _ Hpc) in Hstep as (b & _ & -> & _).
  - apply (try_stop_step_cas _ _ _ _ _ _ _ Hpc) in Hstep as (ok & e & Hcas & _).
    by eapply compare_exchange_weak_view.
Qed.

(** *** The loop on the memory of the program *)

Lemma try_stop_step_view p st h cur st' h' cur' :
  try_stop_step v p st h cur = Some (st', h', cur') → view_le cur cur'.
Proof.
  intros Hstep. destruct (try_stop_step_pc _ _ _ _ _ Hstep) as [Hpc|Hpc].
  - apply (try_stop_step_load _ _ _ _ _ _ _ Hpc) in Hstep as (b & Hld & _).
    by eapply atomic_load_view.
  - apply (try_stop_step_cas _ _ _ _ _ _ _ Hpc) in Hstep as (ok & e & Hcas & _).
    by destruct (compare_exchange_weak_view _ _ _ _ _ _ _ _ _ _ _ _ Hcas).
Qed.

Lemma try_stop_step_knows p st h cur st' h' cur' :
  try_stop_step v p st h cur = Some (st', h', cur') → view_sub cur cur'.
Proof.
  intros Hstep. destruct (try_stop_step_pc _ _ _ _ _ Hstep) as [Hpc|Hpc].
  - apply (try_stop_step_load _ _ _ _ _ _ _ Hpc) in Hstep as (b & Hld & _).
    by destruct (atomic_load_knows _ _ _ _ _ _ _ Hld).
  - apply (try_stop_step_cas _ _ _ _ _ _ _ Hpc) in Hstep as (ok & e & Hcas & _).
    by eapply compare_exchange_weak_knows.
Qed.

Lemma set_cond_id mem : set_cond (cond mem) mem = mem.
Proof. by destruct mem. Qed.

(** A read-modify-write of the flag keeps memory well formed and the
    caller's view closed. *)
Lemma rmw_cond_wf o f mem cur x h' cur' :
  mem_wf mem → view_closed (hist_len mem) cur →
  atomic_rmw m_cond o f (cond mem) cur = Some (x, h', cur') →
  mem_wf (set_cond h' mem) ∧ view_closed (hist_len (set_cond h' mem)) cur' ∧
  (∀ l, hist_len mem l ≤ hist_len (set_cond h' mem) l).
Proof.
  intros Hwf Hcur Hrmw.
  pose proof (atomic_rmw_length _ _ _ _ _ _ _ _ Hrmw) as Hlen.
  assert (∀ l, hist_len mem l ≤ hist_len (set_cond h' mem) l) as Hle.
  { intros l. apply hist_len_set_cond_le. lia. }
  assert (hist_closed (hist_len (set_cond h' mem)) h' ∧
          view_closed (hist_len (set_cond h' mem)) cur') as [Hcl Hcur'].
  { eapply atomic_rmw_closed; [| | |exact Hrmw].
    - simpl. lia.
    - eapply hist_closed_mono; [exact Hle|by apply cond_closed].
    - by eapply view_closed_mono. }
  split_and!; [|done..]. apply mem_wf_set_cond; [done|lia| |done].
  eapply atomic_rmw_wf; eauto using cond_wf with acond.
Qed.

(** A step of the loop keeps memory well formed and the view of [main]
    closed, and makes no history shorter. *)
Lemma try_stop_step_wf p st mem cur st' h' cur' :
  mem_wf mem → view_closed (hist_len mem) cur →
  try_stop_step v p st (cond mem) cur = Some (st', h', cur') →
  mem_wf (set_cond h' mem) ∧ view_closed (hist_len (set_cond h' mem)) cur' ∧
  (∀ l, hist_len mem l ≤ hist_len (set_cond h' mem) l).
Proof.
  intros Hwf Hcur Hstep.
  assert (∀ o b c, atomic_load m_cond o p (cond mem) cur = Some (b, c) →
    mem_wf (set_cond (cond mem) mem) ∧
    view_closed (hist_len (set_cond (cond mem) mem)) c ∧
    (∀ l, hist_len mem l ≤ hist_len (set_cond (cond mem) mem) l)) as Hload.
  { intros o b c Hld. rewrite set_cond_id. split_and!; [done| |done].
    eapply (atomic_load_closed _ m_cond); [done|by apply cond_closed|done..]. }
  destruct (try_stop_step_pc _ _ _ _ _ Hstep) as [Hpc|Hpc].
  - apply (try_stop_step_load _ _ _ _ _ _ _ Hpc) in Hstep as (b & Hld & -> & _).
    eauto.
  - apply (try_stop_step_cas _ _ _ _ _ _ _ Hpc) in Hstep as (ok & e & Hcas & _).
    apply compare_exchange_weak_Some in Hcas
      as [(_ & _ & _ & _ & Hrmw)|(_ & -> & Hld & _)]; [|eauto].
    by eapply rmw_cond_wf.
Qed.

(** *** Steps that read the newest message *)

(** A load of the newest message of the flag never blocks, and reads
    whether the flag is set. *)
Lemma flag_load_latest o h cur :
  flag_hist h → vget cur m_cond ≤ pred (length h) →
  ∃ cur', atomic_load m_cond o latest h cur = Some (flag_set h, cur').
Proof.
  intros Hf Hcur.
  destruct (atomic_load_latest m_cond o h cur) as (m & Hm & ->);
    [by apply flag_hist_ne|done|].
  pose proof (flag_hist_last _ Hf) as Hl. rewrite hvals_last, Hm in Hl.
  injection Hl as ->. eauto.
Qed.

Lemma try_stop_step_latest_load st h cur :
  s_pc st = stop_load → flag_hist h → vget cur m_cond ≤ pred (length h) →
  ∃ cur', try_stop_step v latest st h cur
          = Some (StopState stop_cas (flag_set h) (spurious st), h, cur').
Proof.
  intros Hpc Hf Hcur.
  destruct (flag_load_latest (o_finish_work v) h cur Hf Hcur) as [cur' Hld].
  exists cur'. apply try_stop_step_load; [done|]. by exists (flag_set h).
Qed.

(** A compare-exchange on the newest message ends the loop and leaves the
    flag set: it succeeds, or it finds the flag set. *)
Lemma try_stop_step_latest_cas st h cur :
  s_pc st = stop_cas → flag_hist h → vget cur m_cond ≤ pred (length h) →
  stop_inv st cur →
  ∃ x e h' cur',
    try_stop_step v latest st h cur
    = Some (StopState (stop_done x) e (spurious st), h', cur') ∧
    flag_set h' = true.
Proof.
  intros Hpc Hf Hcur Hinv.
  destruct (compare_exchange_weak_latest m_cond (o_cas_success v) (o_cas_failure v)
    (finish_work st) true h cur) as (ok & e & h' & cur' & Hcas & Hl & Hok);
    [by apply flag_hist_ne|done|].
  rewrite (flag_hist_last _ Hf) in Hl. injection Hl as <-.
  destruct (flag_cas_hist _ _ _ _ _ _ _ _ _ _ Hf Hcas) as [Hf' Hlen].
  assert (flag_set h' = true ∧ ∃ x,
    stop_next ok (flag_set h) (spurious st)
    = StopState (stop_done x) (flag_set h) (spurious st)) as [Hset [x Hx]].
  { destruct ok.
    - destruct (Hlen eq_refl) as [Hh' _]. split; [|by eexists].
      apply bool_decide_eq_true. pose proof (flag_hist_ne _ Hf).
      destruct h; simpl in *; [done|lia].
    - apply compare_exchange_weak_Some in Hcas as [[? _]|(_ & -> & _)]; [done|].
      destruct (flag_set h) eqn:Hs; [split; [done|by eexists]|].
      destruct (finish_work st) eqn:Hfw; [|naive_solver].
      specialize (Hinv Hfw). apply bool_decide_eq_true in Hinv.
      apply bool_decide_eq_false in Hs. lia. }
  exists x, (flag_set h), h', cur'. split; [|done].
  apply try_stop_step_cas; [done|]. exists ok, (flag_set h). by rewrite Hx.
Qed.

(** *** Steps on the unset flag *)

(** Every message of the unset flag holds [false]. *)
Lemma load_unset_false o p h cur b cur' :
  flag_hist h → flag_set h = false →
  atomic_load m_cond o p h cur = Some (b, cur') → b = false.
Proof.
  intros Hf Hset (m & Hm & _ & -> & _)%atomic_load_Some.
  apply bool_decide_eq_false in Hset. pose proof (lookup_lt_Some _ _ _ Hm) as Hlt.
  rewrite (flag_hist_lookup h (pick_ts p h) (mval m) Hf) by by rewrite hvals_lookup, Hm.
  apply bool_decide_eq_false. lia.
Qed.

(** A step of a loop that started on the unset flag and is alone in
    writing it: [finish_work] stays false, and either the flag is left as
    it is and the loop goes on, or the compare-exchange has succeeded and
    has written the one message that sets the flag. *)
Lemma try_stop_step_unset p st h cur st' h' cur' :
  flag_hist h → flag_set h = false → finish_work st = false →
  try_stop_step v p st h cur = Some (st', h', cur') →
  finish_work st' = false ∧
  (h' = h ∧ (∀ e, s_pc st' ≠ stop_done e) ∨
   length h' = 2 ∧ s_pc st' = stop_done exit_success ∧ seen_set cur' = true).
Proof.
  intros Hf Hset Hfw Hstep.
  destruct (try_stop_step_pc _ _ _ _ _ Hstep) as [Hpc|Hpc].
  - apply (try_stop_step_load _ _ _ _ _ _ _ Hpc) in Hstep as (b & Hld & -> & ->).
    rewrite (load_unset_false _ _ _ _ _ _ Hf Hset Hld). by split; [|left].
  - apply (try_stop_step_cas _ _ _ _ _ _ _ Hpc) in Hstep as (ok & e & Hcas & ->).
    rewrite stop_next_finish_work, Hfw in *.
    destruct (flag_cas_hist _ _ _ _ _ _ _ _ _ _ Hf Hcas) as [_ Hlen].
    apply compare_exchange_weak_Some in Hcas
      as [(-> & _ & -> & _)|(-> & -> & Hld & _)].
    + destruct (Hlen eq_refl) as [Hl Hv]. split; [done|right].
      apply bool_decide_eq_false in Hset. pose proof (flag_hist_ne _ Hf).
      assert (length h = 1) as Hh by (destruct h; simpl in *; [done|lia]).
      split_and!; [lia|done|]. apply bool_decide_eq_true. lia.
    + rewrite (load_unset_false _ _ _ _ _ _ Hf Hset Hld). split; [done|left].
      split; [done|]. intros e0. unfold stop_next. simpl.
      by destruct (incr_spurious (spurious st)).
Qed.

(** A thread that has not seen the flag set can read the initial message
    of the unset flag, and has still not seen it set. *)
Lemma load_unset o p h cur :
  hvals h = [false] → hist_wf m_cond h → vget cur m_cond = 0 →
  pick_ts p h = 0 →
  ∃ cur', atomic_load m_cond o p h cur = Some (false, cur') ∧
          vget cur' m_cond = 0.
Proof.
  intros Hh [_ Hwf] Hcur Hp.
  destruct h as [|m0 [|]]; simplify_eq/=. specialize (Hwf 0 m0 eq_refl).
  eexists. split.
  - apply atomic_load_Some. exists m0. rewrite Hp. split_and!; try done.
    split; [lia|done].
  - view_solver.
Qed.

Lemma try_stop_load_unset n h cur :
  hvals h = [false] → hist_wf m_cond h → vget cur m_cond = 0 →
  ∃ cur', try_stop_step v latest (stop_start n) h cur
          = Some (StopState stop_cas false n, h, cur') ∧
          vget cur' m_cond = 0.
Proof.
  intros Hh Hwf Hcur.
  destruct (load_unset (o_finish_work v) latest h cur) as (cur' & Hld & ?);
    [done..|by destruct h as [|? [|]]|].
  exists cur'. split; [|done]. apply try_stop_step_load; [done|]. eauto.
Qed.

(** A spurious failure on the unset flag. *)
Lemma try_stop_fail_unset n h cur :
  hvals h = [false] → hist_wf m_cond h → vget cur m_cond = 0 →
  ∃ cur', try_stop_step v (at_ts 0) (StopState stop_cas false n) h cur
          = Some (stop_next false false n, h, cur') ∧
          vget cur' m_cond = 0.
Proof.
  intros Hh Hwf Hcur.
  destruct (load_unset (o_cas_failure v) (at_ts 0) h cur) as (cur' & Hld & ?);
    [done..|].
  exists cur'. split; [|done]. apply try_stop_step_cas; [done|].
  exists false, false. split; [|done].
  apply compare_exchange_weak_Some. right. done.
Qed.

(** The attempt on the newest message of the unset flag succeeds. *)
Lemma try_stop_win_unset n h cur :
  hvals h = [false] →
  ∃ h' cur', try_stop_step v latest (StopState stop_cas false n) h cur
             = Some (StopState (stop_done exit_success) false n, h', cur') ∧
             hvals h' = [false; true].
Proof.
  intros Hh. assert (h ≠ []) as Hne by (by intros ->).
  destruct (atomic_rmw_progress m_cond (o_cas_success v) (λ _, true) h cur Hne)
    as [[[x h'] cur'] Hrmw].
  destruct (atomic_rmw_hvals _ _ _ _ _ _ _ _ Hrmw) as [Hx Hv].
  rewrite Hh in Hx, Hv. simplify_eq/=.
  exists h', cur'. split; [|done]. apply try_stop_step_cas; [done|].
  exists true, false. split; [|done].
  apply compare_exchange_weak_Some. left. by rewrite Hh.
Qed.

Lemma try_stop_run_cons p ps st h cur :
  try_stop_run v (p :: ps) st h cur
  = try_stop_step v p st h cur ≫= λ '(st', h', cur'), try_stop_run v ps st' h' cur'.
Proof. done. Qed.

(** [n] spurious failures, then the attempt that succeeds. *)
Lemma try_stop_run_unset (n : nat) (n0 : Z) h cur :
  hvals h = [false] → hist_wf m_cond h → vget cur m_cond = 0 →
  (n0 + Z.of_nat n ≤ INT_MAX)%Z →
  ∃ h' cur',
    try_stop_run v (replicate n (at_ts 0) ++ [latest])
      (StopState stop_cas false n0) h cur
    = Some (StopState (stop_done exit_success) false (n0 + Z.of_nat n), h', cur') ∧
    hvals h' = [false; true].
Proof.
  intros Hh Hwf. revert n0 cur. induction n as [|n IH]; intros n0 cur Hcur Hn.
  - destruct (try_stop_win_unset n0 h cur Hh) as (h' & cur' & Hstep & ?).
    exists h', cur'. simpl. rewrite Hstep. simpl. by rewrite Z.add_0_r.
  - destruct (try_stop_fail_unset n0 h cur Hh Hwf Hcur) as (cur1 & Hstep & Hcur1).
    destruct (stop_next_cases false false n0)
      as [[? _]|[(_ & ? & _)|[(_ & _ & _ & Hnext)|(_ & _ & ? & _)]]];
      [done..| |lia].
    destruct (IH (n0 + 1)%Z cur1 Hcur1 ltac:(lia)) as (h' & cur' & Hrun & ?).
    exists h', cur'. simpl. rewrite Hstep, Hnext. simpl. fold (replicate n (at_ts 0)).
    rewrite Hrun. split; [|done].
    by replace (n0 + 1 + Z.of_nat n)%Z with (n0 + Z.of_nat (S n))%Z by lia.
Qed.

End steps.

(** ** Properties of the loop *)

Section properties.
Context (v : variant).
Implicit Types (st : stop_state) (h : history bool) (cur : view) (p : pick).

(** C2 (try_stop_step_flag_hist): the flag is one-shot.  Every step of the
    loop leaves the history of the flag in the form [false; true; ...;
    true], only ever extends it, and only ever extends the view of the
    thread: a message that holds [true] is never followed by [false]. *)
Theorem try_stop_step_flag_hist p st h cur st' h' cur' :
  flag_hist h →
  try_stop_step v p st h cur = Some (st', h', cur') →
  flag_hist h' ∧ h `prefix_of` h' ∧ view_le cur cur'.
Proof.
  intros Hf Hstep.
  destruct (try_stop_step_pc v _ _ _ _ _ Hstep) as [Hpc|Hpc].
  - apply (try_stop_step_load v _ _ _ _ _ _ _ Hpc) in Hstep as (b & Hld & -> & ->).
    split_and!; [done..|]. by eapply atomic_load_view.
  - apply (try_stop_step_cas v _ _ _ _ _ _ _ Hpc) in Hstep as (ok & e & Hcas & ->).
    destruct (compare_exchange_weak_view _ _ _ _ _ _ _ _ _ _ _ _ Hcas).
    split_and!; [|done..]. by eapply flag_cas_hist.
Qed.

(** C5 (try_stop_done_set): when the loop ends, by either exit, the flag
    is set, its newest message holds [true], and the thread has seen it
    set: from then on every load of the flag by this thread returns
    [true]. *)
Theorem try_stop_done_set p st h cur st' h' cur' e :
  flag_hist h →
  try_stop_step v p st h cur = Some (st', h', cur') →
  s_pc st' = stop_done e →
  flag_set h' = true ∧ flag_value h' = true ∧ seen_set cur' = true.
Proof.
  intros Hf Hstep Hdone.
  rewrite (flag_hist_value h' (try_stop_step_hist v _ _ _ _ _ _ _ Hf Hstep)).
  cut (flag_set h' = true ∧ seen_set cur' = true); [by intros []|].
  destruct (try_stop_step_pc v _ _ _ _ _ Hstep) as [Hpc|Hpc].
  { apply (try_stop_step_load v _ _ _ _ _ _ _ Hpc) in Hstep as (b & _ & _ & ->).
    done. }
  apply (try_stop_step_cas v _ _ _ _ _ _ _ Hpc) in Hstep as (ok & e' & Hcas & ->).
  destruct (stop_next_cases ok e' (spurious st))
    as [[-> H]|[(-> & -> & H)|[(_ & _ & _ & H)|(_ & _ & _ & H)]]];
    rewrite H in Hdone; try done.
  - destruct (flag_cas_hist _ _ _ _ _ _ _ _ _ _ Hf Hcas) as [Hf' Hok].
    destruct (Hok eq_refl) as [Hlen Hts].
    pose proof (flag_hist_ne _ Hf). destruct h; [done|]. simpl in *.
    split; apply bool_decide_eq_true; lia.
  - apply compare_exchange_weak_Some in Hcas
      as [(? & _)|(_ & -> & Hld & _)]; [done|].
    destruct (load_true_seen _ _ _ _ _ Hf Hld). done.
Qed.

(** C29 (try_stop_win_unique): at most one step of any execution makes the
    transition.  A compare-exchange that succeeds with [false] in
    [finish_work] finds the history [false] and leaves [false; true];
    since histories only grow, no later step finds it so again. *)
Theorem try_stop_win_unique p st h cur st' h' cur' :
  flag_hist h → s_pc st = stop_cas → finish_work st = false →
  try_stop_step v p st h cur = Some (st', h', cur') →
  s_pc st' = stop_done exit_success →
  hvals h = [false] ∧ hvals h' = [false; true].
Proof.
  intros Hf Hpc Hfw Hstep Hdone.
  apply (try_stop_step_cas v _ _ _ _ _ _ _ Hpc) in Hstep as (ok & e' & Hcas & ->).
  destruct (stop_next_cases ok e' (spurious st))
    as [[-> H]|[(-> & -> & H)|[(_ & _ & _ & H)|(_ & _ & _ & H)]]];
    rewrite H in Hdone; try done.
  apply compare_exchange_weak_Some in Hcas
    as [(_ & _ & _ & Hl & Hrmw)|(? & _)]; [|done].
  destruct (atomic_rmw_hvals _ _ _ _ _ _ _ _ Hrmw) as [_ Hv].
  rewrite flag_hist_last, Hfw in Hl by done.
  assert (hvals h = [false]) as Hh; [|by rewrite Hv, Hh].
  destruct Hf as [k Hk]. rewrite Hk.
  injection Hl as Hl%bool_decide_eq_false.
  rewrite <-(hvals_length h), Hk in Hl. simpl in Hl.
  rewrite length_replicate in Hl. by replace k with 0 by lia.
Qed.

(** C38 (try_stop_spurious_step): [spurious] counts spurious failures.  A
    pass through the body of the loop happens only when the
    compare-exchange expected [false], read [false] and failed all the
    same; it adds one to [spurious] and changes neither the flag nor
    [finish_work]. *)
Theorem try_stop_spurious_step p st h cur st' h' cur' :
  flag_hist h → stop_inv st cur → s_pc st = stop_cas →
  try_stop_step v p st h cur = Some (st', h', cur') →
  s_pc st' = stop_cas →
  h' = h ∧ finish_work st = false ∧ finish_work st' = false ∧
  spurious st' = (spurious st + 1)%Z ∧
  ∃ t, p = at_ts t ∧ hvals h !! t = Some false.
Proof.
  intros Hf Hinv Hpc Hstep Hpc'.
  apply (try_stop_step_cas v _ _ _ _ _ _ _ Hpc) in Hstep as (ok & e' & Hcas & ->).
  destruct (stop_next_cases ok e' (spurious st))
    as [[-> H]|[(-> & -> & H)|[(-> & -> & _ & H)|(_ & _ & _ & H)]]];
    rewrite H in Hpc' |- *; try done. simpl.
  assert (finish_work st = false) as Hfw.
  { destruct (finish_work st) eqn:Hfw; [|done].
    apply compare_exchange_weak_Some in Hcas
      as [(? & _)|(_ & _ & Hld & _)]; [done|].
    by destruct (seen_set_load _ _ _ _ _ _ Hf (Hinv Hfw) Hld). }
  rewrite Hfw in Hcas.
  destruct (compare_exchange_weak_spurious _ _ _ _ _ _ _ _ _ _ Hcas) as (t & ? & ?).
  apply compare_exchange_weak_Some in Hcas as [(? & _)|(_ & -> & _)]; [done|].
  eauto 10.
Qed.

(** C28 (try_stop_run_terminates): the loop terminates as soon as one
    attempt does not fail spuriously.  Started on the unset flag, after
    any number [n] of spurious failures the first attempt on the newest
    message succeeds: the loop ends by [exit_success] with [spurious]
    increased by exactly [n] and the flag set. *)
Theorem try_stop_run_terminates (n : nat) (n0 : Z) h cur :
  hvals h = [false] → hist_wf m_cond h → vget cur m_cond = 0 →
  (n0 + Z.of_nat n ≤ INT_MAX)%Z →
  ∃ h' cur',
    try_stop_run v (latest :: replicate n (at_ts 0) ++ [latest])
      (stop_start n0) h cur
    = Some (StopState (stop_done exit_success) false (n0 + Z.of_nat n), h', cur') ∧
    hvals h' = [false; true].
Proof.
  intros Hh Hwf Hcur Hn.
  destruct (try_stop_load_unset v n0 h cur Hh Hwf Hcur) as (cur1 & Hstep & Hcur1).
  destruct (try_stop_run_unset v n n0 h cur1 Hh Hwf Hcur1 Hn)
    as (h' & cur' & Hrun & ?).
  exists h', cur'. simpl. rewrite Hstep. simpl. by rewrite Hrun.
Qed.

(** C30 (try_stop_already_set): a compare-exchange that succeeds does not
    single out the thread that set the flag.  When the flag is already set
    as the loop starts, [finish_work] is loaded as [true], the
    compare-exchange of [true] for [true] succeeds, and the loop leaves by
    [exit_success] having appended one more [true]. *)
Theorem try_stop_already_set n h cur :
  flag_hist h → hist_wf m_cond h → flag_set h = true →
  vget cur m_cond ≤ pred (length h) →
  ∃ h' cur',
    try_stop_run v [latest; latest] (stop_start n) h cur
    = Some (StopState (stop_done exit_success) true n, h', cur') ∧
    length h' = S (length h) ∧ flag_hist h'.
Proof.
  intros Hf Hwf Hset Hcur. pose proof (flag_hist_ne _ Hf) as Hne.
  destruct (atomic_load_latest m_cond (o_finish_work v) h cur Hne Hcur)
    as (m & Hm & Hld).
  assert (mval m = true) as Hv.
  { pose proof (flag_hist_last _ Hf) as Hl.
    rewrite hvals_last, Hm, Hset in Hl. by injection Hl. }
  rewrite Hv in Hld.
  assert (vget (read_view m_cond (o_finish_work v) (pred (length h)) m cur)
            m_cond ≤ pred (length h)) as Hcur1.
  { destruct Hwf as [_ Hwf]. rewrite last_lookup_pred in Hm.
    specialize (Hwf _ _ Hm). view_solver. }
  destruct (compare_exchange_weak_latest m_cond (o_cas_success v)
    (o_cas_failure v) true true h _ Hne Hcur1)
    as (ok & e' & h' & cur' & Hcas & Hl & Hok).
  rewrite (flag_hist_last _ Hf), Hset in Hl. injection Hl as <-.
  rewrite (proj2 Hok eq_refl) in Hcas.
  destruct (flag_cas_hist _ _ _ _ _ _ _ _ _ _ Hf Hcas) as [Hf' Hlen].
  exists h', cur'. split_and!; [|by apply Hlen|done].
  rewrite try_stop_run_cons.
  rewrite (proj2 (try_stop_step_load v latest (stop_start n) h cur _ _ _ eq_refl))
    by eauto.
  cbn [mbind option_bind]. rewrite try_stop_run_cons.
  rewrite (proj2 (try_stop_step_cas v latest (StopState stop_cas true n) h _
    (stop_next true true n) h' cur' eq_refl)) by eauto.
  done.
Qed.

(** C40 (try_stop_spurious_overflow): [spurious] is a plain [int].  A
    spurious failure that finds it at [INT_MAX] makes [++spurious]
    overflow, which is undefined behaviour in C++: the loop has no defined
    next state. *)
Theorem try_stop_spurious_overflow h cur :
  hvals h = [false] → hist_wf m_cond h → vget cur m_cond = 0 →
  ∃ cur', try_stop_step v (at_ts 0) (StopState stop_cas false INT_MAX) h cur
          = Some (StopState stop_undefined false INT_MAX, h, cur').
Proof.
  intros Hh Hwf Hcur.
  destruct (try_stop_fail_unset v INT_MAX h cur Hh Hwf Hcur) as (cur' & Hstep & _).
  by exists cur'.
Qed.

End properties.

(** ** Concrete runs

    The loop run on the flag as [main] finds it, by a thread with the
    empty view. *)

Definition stop_ex (v : variant) (ps : list pick)
    : stop_state * history bool * view :=
  default (stop_start 0, m_cond_init, ∅)
    (try_stop_run v ps (stop_start 0) m_cond_init ∅).

Lemma m_cond_init_wf : hist_wf m_cond m_cond_init.
Proof. apply (cond_wf _ mem_wf_init). Qed.

Lemma try_stop_step_flag_hist_witness :
  flag_hist (stop_ex main_cpp [latest; latest]).1.2 ∧
  (stop_ex main_cpp [latest]).1.2 `prefix_of` (stop_ex main_cpp [latest; latest]).1.2 ∧
  view_le (stop_ex main_cpp [latest]).2 (stop_ex main_cpp [latest; latest]).2.
Proof.
  apply (try_stop_step_flag_hist main_cpp latest (stop_ex main_cpp [latest]).1.1
    _ _ (stop_ex main_cpp [latest; latest]).1.1); [compute_done|reflexivity].
Defined.

Lemma try_stop_done_set_witness :
  flag_set (stop_ex main_cpp [latest; latest]).1.2 = true ∧
  flag_value (stop_ex main_cpp [latest; latest]).1.2 = true ∧
  seen_set (stop_ex main_cpp [latest; latest]).2 = true.
Proof.
  apply (try_stop_done_set main_cpp latest (stop_ex main_cpp [latest]).1.1
    (stop_ex main_cpp [latest]).1.2 (stop_ex main_cpp [latest]).2
    (stop_ex main_cpp [latest; latest]).1.1 _ _ exit_success);
    [compute_done|reflexivity|reflexivity].
Defined.

Lemma try_stop_win_unique_witness :
  hvals (stop_ex main_cpp [latest]).1.2 = [false] ∧
  hvals (stop_ex main_cpp [latest; latest]).1.2 = [false; true].
Proof.
  apply (try_stop_win_unique main_cpp latest (stop_ex main_cpp [latest]).1.1
    _ (stop_ex main_cpp [latest]).2 (stop_ex main_cpp [latest; latest]).1.1 _
    (stop_ex main_cpp [latest; latest]).2);
    [compute_done|reflexivity..].
Defined.

Lemma try_stop_spurious_step_witness :
  (stop_ex main_cpp [latest; at_ts 0]).1.2 = (stop_ex main_cpp [latest]).1.2 ∧
  finish_work (stop_ex main_cpp [latest]).1.1 = false ∧
  finish_work (stop_ex main_cpp [latest; at_ts 0]).1.1 = false ∧
  spurious (stop_ex main_cpp [latest; at_ts 0]).1.1
  = (spurious (stop_ex main_cpp [latest]).1.1 + 1)%Z ∧
  ∃ t, at_ts 0 = at_ts t ∧ hvals (stop_ex main_cpp [latest]).1.2 !! t = Some false.
Proof.
  apply (try_stop_spurious_step main_cpp (at_ts 0)
    (stop_ex main_cpp [latest]).1.1 _ (stop_ex main_cpp [latest]).2 _ _
    (stop_ex main_cpp [latest; at_ts 0]).2);
    [compute_done|done|reflexivity..].
Defined.

Lemma try_stop_run_terminates_witness :
  ∃ h' cur',
    try_stop_run main_seqcst_padding_cpp
      (latest :: replicate 3 (at_ts 0) ++ [latest]) (stop_start 0) m_cond_init ∅
    = Some (StopState (stop_done exit_success) false (0 + Z.of_nat 3), h', cur') ∧
    hvals h' = [false; true].
Proof.
  apply (try_stop_run_terminates main_seqcst_padding_cpp 3 0 m_cond_init ∅);
    [reflexivity|apply m_cond_init_wf|reflexivity|compute_done].
Defined.

Lemma try_stop_already_set_witness :
  ∃ h' cur',
    try_stop_run main_cpp [latest; latest] (stop_start 0)
      (stop_ex main_cpp [latest; latest]).1.2 ∅
    = Some (StopState (stop_done exit_success) true 0, h', cur') ∧
    length h' = S (length (stop_ex main_cpp [latest; latest]).1.2) ∧
    flag_hist h'.
Proof.
  apply (try_stop_already_set main_cpp 0 (stop_ex main_cpp [latest; latest]).1.2 ∅);
    [compute_done|compute_done|reflexivity|vm_compute; lia].
Defined.

Lemma try_stop_spurious_overflow_witness :
  ∃ cur', try_stop_step main_cpp (at_ts 0) (StopState stop_cas false INT_MAX)
            m_cond_init ∅
          = Some (StopState stop_undefined false INT_MAX, m_cond_init, cur').
Proof.
  apply (try_stop_spurious_overflow main_cpp m_cond_init ∅);
    [reflexivity|apply m_cond_init_wf|reflexivity].
Defined.
