(* ===== verification/Worker.v ===== *)
(** * Worker: the thread function [do_thing]

    src/main.cpp lines 59-65 (src/main_seqcst_padding.cpp lines 59-65):

    [[
    void do_thing(Foo &obj) {
      while (!Foo::m_cond.load(acquire))
        obj.do_work();
    }
    ]]

    The thread of object [o] is a machine with a program counter and a
    view: at [w_check] it loads the flag, at [w_work] it calls
    [obj.do_work()], at [w_done] the function has returned.  A call of
    [do_work] on an object whose counter is not yet initialised is
    undefined behaviour ([w_undefined]): this happens in src/main.cpp,
    where the constructor starts the thread before it initialises [m_v].

    [do_thing_step] is one atomic action, so that other threads may act
    between two steps; [do_thing_run] runs the thread alone through a list
    of picks. *)

From S2P Require Import Prelude Int32 Memory Foo StopFlag.

(** ** The machine *)

Inductive worker_pc :=
  (** at the condition of the [while] *)
  | w_check
  (** in the body, before [obj.do_work()] *)
  | w_work
  (** [do_thing] has returned *)
  | w_done
  (** [do_work] was called on an uninitialised counter *)
  | w_undefined.

Record worker := Worker {
  w_pc : worker_pc;
  w_view : view;
}.

(** The thread as [std::thread] starts it: at the head of the loop, with
    the view of the thread that constructs it. *)
Definition worker_start (cur : view) : worker := Worker w_check cur.

(** One step of the thread of object [o]. *)
Definition do_thing_step (v : variant) (o : nat) (p : pick) (w : worker)
    (mem : memory) : option (worker * memory) :=
  match w_pc w with
  | w_check =>
      '(b, cur') ← atomic_load m_cond (o_do_thing v) p (cond mem) (w_view w);
      Some (Worker (if b : bool then w_done else w_work) cur', mem)
  | w_work =>
      match do_work v o mem (w_view w) with
      | Some (mem', cur') => Some (Worker w_check cur', mem')
      | None => Some (Worker w_undefined (w_view w), mem)
      end
  | w_done | w_undefined => None
  end.

(** The thread run alone: one step per pick. *)
Fixpoint do_thing_run (v : variant) (o : nat) (ps : list pick) (w : worker)
    (mem : memory) : option (worker * memory) :=
  match ps with
  | [] => Some (w, mem)
  | p :: ps =>
      '(w', mem') ← do_thing_step v o p w mem;
      do_thing_run v o ps w' mem'
  end.

(** The number of messages in the counter of object [o]: one for the
    initialisation, one for each store and each increment. *)
Definition cell_len (mem : memory) (o : nat) : nat := hist_len mem (m_v o).

#[export] Instance worker_pc_eq_dec : EqDecision worker_pc.
Proof. solve_decision. Defined.

#[export] Instance worker_eq_dec : EqDecision worker.
Proof. solve_decision. Defined.

(** ** Steps *)

Section steps.
Context (v : variant).
Implicit Types (w : worker) (mem : memory) (o : nat) (p : pick).

Lemma do_thing_step_check o p w mem w' mem' :
  w_pc w = w_check →
  do_thing_step v o p w mem = Some (w', mem') ↔
  ∃ b cur',
    atomic_load m_cond (o_do_thing v) p (cond mem) (w_view w) = Some (b, cur') ∧
    mem' = mem ∧ w' = Worker (if b : bool then w_done else w_work) cur'.
Proof.
  intros Hpc. unfold do_thing_step. rewrite Hpc. split.
  - intros ([b c] & Hld & ?)%bind_Some. simplify_eq. eauto.
  - intros (b & c & -> & -> & ->). done.
Qed.

Lemma do_thing_step_work o p w mem w' mem' :
  w_pc w = w_work →
  do_thing_step v o p w mem = Some (w', mem') ↔
  (∃ cur', do_work v o mem (w_view w) = Some (mem', cur') ∧
           w' = Worker w_check cur') ∨
  (do_work v o mem (w_view w) = None ∧ mem' = mem ∧
   w' = Worker w_undefined (w_view w)).
Proof.
  intros Hpc. unfold do_thing_step. rewrite Hpc.
  destruct (do_work v o mem (w_view w)) as [[m c]|]; naive_solver.
Qed.

Lemma do_thing_step_pc o p w mem x :
  do_thing_step v o p w mem = Some x → w_pc w = w_check ∨ w_pc w = w_work.
Proof. unfold do_thing_step. destruct (w_pc w); naive_solver. Qed.

Lemma do_thing_run_cons o p ps w mem :
  do_thing_run v o (p :: ps) w mem
  = do_thing_step v o p w mem ≫= λ '(w', mem'), do_thing_run v o ps w' mem'.
Proof. done. Qed.

Lemma do_thing_run_app o ps1 ps2 w mem :
  do_thing_run v o (ps1 ++ ps2) w mem
  = do_thing_run v o ps1 w mem ≫= λ '(w', mem'), do_thing_run v o ps2 w' mem'.
Proof.
  revert w mem. induction ps1 as [|p ps1 IH]; intros w mem; [done|].
  simpl. destruct (do_thing_step v o p w mem) as [[w' mem']|]; [|done].
  simpl. apply IH.
Qed.

End steps.

(** ** Properties of the thread *)

Section properties.
Context (v : variant).
Implicit Types (w : worker) (mem : memory) (o : nat) (p : pick).

(** [do_thing_step_mem]: a step of the thread of object [o] never
    writes the flag nor the counter of another object, only extends the
    thread's view, and appends to the counter of [o] at most one message,
    and that only in the body of the loop. *)
Theorem do_thing_step_mem o p w mem w' mem' :
  do_thing_step v o p w mem = Some (w', mem') →
  cond mem' = cond mem ∧
  (∀ o', o' ≠ o → cells mem' !! o' = cells mem !! o') ∧
  view_le (w_view w) (w_view w') ∧
  (mem' = mem ∨ (w_pc w = w_work ∧ cell_len mem' o = S (cell_len mem o))).
Proof.
  intros Hstep. destruct (do_thing_step_pc v _ _ _ _ _ Hstep) as [Hpc|Hpc].
  - apply (do_thing_step_check v _ _ _ _ _ _ Hpc) in Hstep
      as (b & cur' & Hld & -> & ->).
    split_and!; [done..| |by left]. by eapply atomic_load_view.
  - apply (do_thing_step_work v _ _ _ _ _ _ Hpc) in Hstep
      as [(cur' & Hdw & ->)|(_ & -> & ->)]; [|by split_and!; [..|left]].
    destruct (do_work_mem _ _ _ _ _ _ Hdw) as (? & ? & ? & ?).
    split_and!; [done..|]. by right.
Qed.

(** C37 (do_thing_seen_stops): a thread that has seen the flag set does no
    further work: its next test of the flag reads [true], whichever
    message the load picks, and [do_thing] returns without touching
    memory. *)
Theorem do_thing_seen_stops o p w mem w' mem' :
  flag_hist (cond mem) → seen_set (w_view w) = true → w_pc w = w_check →
  do_thing_step v o p w mem = Some (w', mem') →
  w_pc w' = w_done ∧ mem' = mem.
Proof.
  intros Hf Hseen Hpc Hstep.
  apply (do_thing_step_check v _ _ _ _ _ _ Hpc) in Hstep
    as (b & cur' & Hld & -> & ->).
  by destruct (seen_set_load _ _ _ _ _ _ Hf Hseen Hld) as [-> _].
Qed.

(** C3 (do_thing_done_flag_set): [do_thing] returns only once the flag is
    set, and the thread has then seen it set. *)
Theorem do_thing_done_flag_set o p w mem w' mem' :
  flag_hist (cond mem) →
  do_thing_step v o p w mem = Some (w', mem') → w_pc w' = w_done →
  w_pc w = w_check ∧ mem' = mem ∧
  flag_set (cond mem) = true ∧ seen_set (w_view w') = true.
Proof.
  intros Hf Hstep Hdone.
  destruct (do_thing_step_pc v _ _ _ _ _ Hstep) as [Hpc|Hpc].
  - apply (do_thing_step_check v _ _ _ _ _ _ Hpc) in Hstep
      as (b & cur' & Hld & -> & ->).
    destruct b; [|done].
    destruct (load_true_seen _ _ _ _ _ Hf Hld). done.
  - apply (do_thing_step_work v _ _ _ _ _ _ Hpc) in Hstep
      as [(cur' & Hdw & ->)|(_ & -> & ->)]; done.
Qed.

(** *** What a thread learns

    A thread forgets nothing; at the test of the flag it learns of the
    flag and of what the message it reads has released, and of nothing
    else. *)

Lemma do_thing_step_knows o p w mem w' mem' :
  do_thing_step v o p w mem = Some (w', mem') → view_sub (w_view w) (w_view w').
Proof.
  intros Hstep. destruct (do_thing_step_pc v _ _ _ _ _ Hstep) as [Hpc|Hpc].
  - apply (do_thing_step_check v _ _ _ _ _ _ Hpc) in Hstep as (b & cur' & Hld & _ & ->).
    by destruct (atomic_load_knows _ _ _ _ _ _ _ Hld).
  - apply (do_thing_step_work v _ _ _ _ _ _ Hpc) in Hstep
      as [(cur' & Hdw & ->)|(_ & _ & ->)]; [|done].
    by eapply do_work_knows.
Qed.

Lemma do_thing_step_check_knows o p w mem w' mem' l :
  w_pc w = w_check → do_thing_step v o p w mem = Some (w', mem') →
  knows (w_view w') l →
  l = m_cond ∨ knows (w_view w) l ∨ ∃ m, m ∈ cond mem ∧ knows (mview m) l.
Proof.
  intros Hpc (b & cur' & Hld & _ & ->)%(do_thing_step_check v _ _ _ _ _ _ Hpc).
  by apply (atomic_load_knows _ _ _ _ _ _ _ Hld).
Qed.

(** *** Steps that read the newest message *)

(** The test of the flag never blocks on the newest message: the thread
    returns when the flag is set and goes on to work otherwise. *)
Lemma do_thing_step_latest_check o w mem :
  w_pc w = w_check → flag_hist (cond mem) →
  view_closed (hist_len mem) (w_view w) →
  ∃ cur', do_thing_step v o latest w mem
          = Some (Worker (if flag_set (cond mem) then w_done else w_work) cur', mem).
Proof.
  intros Hpc Hf Hcl.
  destruct (flag_load_latest (o_do_thing v) (cond mem) (w_view w) Hf)
    as [cur' Hld]; [by apply view_closed_cond|].
  exists cur'. apply do_thing_step_check; [done|]. by exists (flag_set (cond mem)), cur'.
Qed.

(** The call of [do_work] never blocks on an initialised counter. *)
Lemma do_thing_step_latest_work o p w mem :
  w_pc w = w_work → mem_wf mem → is_Some (cells mem !! o) →
  ∃ mem' cur', do_work v o mem (w_view w) = Some (mem', cur') ∧
               do_thing_step v o p w mem = Some (Worker w_check cur', mem').
Proof.
  intros Hpc Hwf Ho.
  destruct (do_work_is_Some v o mem (w_view w) Hwf Ho) as [[mem' cur'] Hdw].
  exists mem', cur'. split; [done|]. apply do_thing_step_work; [done|]. eauto.
Qed.

(** *** Under [seq_cst]: one increment at most after the flag is set *)

Lemma do_thing_seq_cst_check o p w mem w' mem' :
  o_do_thing v = memory_order_seq_cst →
  flag_hist (cond mem) → flag_set (cond mem) = true → w_pc w = w_check →
  do_thing_step v o p w mem = Some (w', mem') →
  w_pc w' = w_done ∧ mem' = mem.
Proof.
  intros Hsc Hf Hset Hpc Hstep.
  apply (do_thing_step_check v _ _ _ _ _ _ Hpc) in Hstep
    as (b & cur' & Hld & -> & ->).
  rewrite Hsc in Hld. apply (flag_load_seq_cst _ _ _ _ _ Hf) in Hld.
  by rewrite Hld, Hset.
Qed.

Lemma do_thing_run_stopped o ps w mem x :
  w_pc w = w_done ∨ w_pc w = w_undefined →
  do_thing_run v o ps w mem = Some x → ps = [] ∧ x = (w, mem).
Proof.
  intros Hpc. destruct ps as [|p ps]; simpl; [naive_solver|].
  unfold do_thing_step. by destruct Hpc as [-> | ->].
Qed.

Lemma do_thing_run_seq_cst_check o ps w mem w' mem' :
  o_do_thing v = memory_order_seq_cst →
  flag_hist (cond mem) → flag_set (cond mem) = true → w_pc w = w_check →
  do_thing_run v o ps w mem = Some (w', mem') →
  length ps ≤ 1 ∧ mem' = mem ∧ (ps ≠ [] → w_pc w' = w_done).
Proof.
  intros Hsc Hf Hset Hpc. destruct ps as [|p ps]; simpl.
  { intros [= -> ->]. split_and!; [lia|done..]. }
  intros ([w1 mem1] & Hstep & Hrun)%bind_Some.
  destruct (do_thing_seq_cst_check _ _ _ _ _ _ Hsc Hf Hset Hpc Hstep) as [Hd ->].
  destruct (do_thing_run_stopped _ _ _ _ _ (or_introl Hd) Hrun) as [-> [= -> ->]].
  simpl. split_and!; [lia|done..].
Qed.

(** C26 (do_thing_seq_cst_bounded): with [memory_order_seq_cst] on the test
    of the flag (src/main_seqcst_padding.cpp), once the flag is set a
    thread takes at most two more steps and increments its counter at most
    once more: the increment it was about to make when the flag was set.
    The counter of a stopped object can so still change by one after the
    flag is set. *)
Theorem do_thing_seq_cst_bounded o ps w mem w' mem' :
  o_do_thing v = memory_order_seq_cst →
  flag_hist (cond mem) → flag_set (cond mem) = true →
  do_thing_run v o ps w mem = Some (w', mem') →
  length ps ≤ 2 ∧ cell_len mem' o ≤ S (cell_len mem o) ∧
  (w_pc w = w_check → mem' = mem).
Proof.
  intros Hsc Hf Hset Hrun. destruct (w_pc w) eqn:Hpc.
  - destruct (do_thing_run_seq_cst_check _ _ _ _ _ _ Hsc Hf Hset Hpc Hrun)
      as (? & -> & _). split_and!; [lia..|done].
  - destruct ps as [|p ps]; simpl in Hrun; [simplify_eq; split_and!; [simpl; lia|lia|done]|].
    apply bind_Some in Hrun as ([w1 mem1] & Hstep & Hrun).
    apply (do_thing_step_work v _ _ _ _ _ _ Hpc) in Hstep
      as [(cur' & Hdw & ->)|(_ & -> & ->)].
    + destruct (do_work_mem _ _ _ _ _ _ Hdw) as (Hc & _ & Hlen & _).
      rewrite <-Hc in Hf, Hset.
      destruct (do_thing_run_seq_cst_check o ps (Worker w_check cur') mem1 w' mem'
        Hsc Hf Hset eq_refl Hrun) as (? & -> & _).
      split_and!; [simpl; lia| |done]. unfold cell_len. lia.
    + destruct (do_thing_run_stopped o ps (Worker w_undefined (w_view w)) mem _
        (or_intror eq_refl) Hrun) as [-> [= -> ->]].
      split_and!; [simpl; lia|lia|done].
  - destruct (do_thing_run_stopped _ _ _ _ _ (or_introl Hpc) Hrun)
      as [-> [= -> ->]]. split_and!; [simpl; lia|lia|done].
  - destruct (do_thing_run_stopped _ _ _ _ _ (or_intror Hpc) Hrun)
      as [-> [= -> ->]]. split_and!; [simpl; lia|lia|done].
Qed.

(** C27 (do_thing_seq_cst_terminates): with [memory_order_seq_cst], once
    the flag is set the thread of an initialised object returns within two
    of its own steps, whatever it was doing. *)
Theorem do_thing_seq_cst_terminates o w mem :
  o_do_thing v = memory_order_seq_cst →
  mem_wf mem → view_closed (hist_len mem) (w_view w) →
  flag_hist (cond mem) → flag_set (cond mem) = true →
  is_Some (cells mem !! o) → w_pc w = w_check ∨ w_pc w = w_work →
  ∃ ps w' mem',
    length ps ≤ 2 ∧ do_thing_run v o ps w mem = Some (w', mem') ∧
    w_pc w' = w_done ∧ cell_len mem' o ≤ S (cell_len mem o).
Proof.
  intros Hsc Hwf Hcl Hf Hset Ho Hpc.
  assert (∀ w1 mem1, w_pc w1 = w_check → flag_hist (cond mem1) →
    flag_set (cond mem1) = true → view_closed (hist_len mem1) (w_view w1) →
    ∃ w', do_thing_step v o latest w1 mem1 = Some (w', mem1) ∧ w_pc w' = w_done)
    as Hcheck.
  { intros w1 mem1 Hpc1 Hf1 Hset1 Hcl1.
    destruct (atomic_load_latest m_cond (o_do_thing v) (cond mem1) (w_view w1))
      as (m & Hm & Hld); [by apply flag_hist_ne|by apply view_closed_cond|].
    assert (mval m = true) as Hv.
    { pose proof (flag_hist_last _ Hf1) as Hl.
      rewrite hvals_last, Hm, Hset1 in Hl. by injection Hl. }
    rewrite Hv in Hld. exists (Worker w_done
      (read_view m_cond (o_do_thing v) (pred (length (cond mem1))) m (w_view w1))).
    split; [|done]. apply do_thing_step_check; [done|]. exists true. eauto. }
  destruct Hpc as [Hpc|Hpc].
  - destruct (Hcheck w mem Hpc Hf Hset Hcl) as (w' & Hstep & Hd).
    exists [latest], w', mem. simpl. rewrite Hstep. simpl.
    split_and!; [lia|done|done|lia].
  - destruct (do_work_is_Some v o mem (w_view w) Hwf Ho) as [[mem1 cur1] Hdw].
    destruct (do_work_wf _ _ _ _ _ _ Hwf Hcl Hdw) as (Hwf1 & Hcl1 & _).
    destruct (do_work_mem _ _ _ _ _ _ Hdw) as (Hc & _ & Hlen & _).
    rewrite <-Hc in Hf, Hset.
    destruct (Hcheck (Worker w_check cur1) mem1 eq_refl Hf Hset Hcl1)
      as (w' & Hstep & Hd).
    exists [latest; latest], w', mem1. rewrite do_thing_run_cons.
    rewrite (proj2 (do_thing_step_work v o latest w mem (Worker w_check cur1) mem1 Hpc))
      by eauto.
    simpl. rewrite Hstep. simpl. split_and!; [lia|done|done|].
    unfold cell_len. lia.
Qed.

(** *** Under release/acquire: no bound *)

(** C31 (do_thing_stale_work): with an order weaker than [seq_cst] on the
    test of the flag (src/main.cpp) nothing in the memory model bounds the
    number of increments a thread makes after the flag has been set: as
    long as it has not seen the flag set, each test may read the initial
    [false].  For every [n] there is a run of [n] further increments that
    leaves the flag as it is, set or not. *)
Theorem do_thing_stale_work (n : nat) o w mem h :
  o_do_thing v ≠ memory_order_seq_cst → acquires (o_do_work v) = false →
  flag_hist (cond mem) → hist_wf m_cond (cond mem) →
  cells mem !! o = Some h → h ≠ [] →
  w_pc w = w_check → vget (w_view w) m_cond = 0 →
  ∃ w' mem',
    do_thing_run v o (concat (replicate n [at_ts 0; latest])) w mem
    = Some (w', mem') ∧
    w_pc w' = w_check ∧ cond mem' = cond mem ∧
    cell_len mem' o = n + cell_len mem o.
Proof.
  intros Hsc Hacq. revert w mem h.
  induction n as [|n IH]; intros w mem h Hf Hwf Ho Hne Hpc Hcur.
  { exists w, mem. done. }
  destruct (load_stale _ _ _ Hf Hwf Hcur Hsc) as (cur1 & Hld & Hcur1).
  assert (last (hvals h) = Some (default 0%Z (last (hvals h)))) as Hl.
  { rewrite hvals_last. by destruct (last_is_Some h Hne) as [m ->]. }
  destruct (do_work_defined v o mem cur1 h Ho Hne) as [[mem1 cur2] Hdw].
  destruct (do_work_last v _ _ _ _ _ _ _ Ho Hl Hdw) as (m & Ho1 & _).
  destruct (do_work_mem _ _ _ _ _ _ Hdw) as (Hc & _ & Hlen & _).
  rewrite <-Hc in Hf, Hwf.
  destruct (IH (Worker w_check cur2) mem1 _ Hf Hwf Ho1 (snoc_ne_nil _ _) eq_refl)
    as (w' & mem' & Hrun & Hpc' & Hc' & Hlen').
  { simpl. rewrite (do_work_view_other _ _ _ _ _ _ m_cond Hacq ltac:(done) Hdw).
    done. }
  exists w', mem'. split_and!; [|done|congruence|unfold cell_len in *; lia].
  change (concat (replicate (S n) [at_ts 0; latest]))
    with (at_ts 0 :: latest :: concat (replicate n [at_ts 0; latest])).
  rewrite do_thing_run_cons.
  rewrite (proj2 (do_thing_step_check v o (at_ts 0) w mem (Worker w_work cur1) mem Hpc))
    by (exists false; eauto).
  cbn [mbind option_bind]. rewrite do_thing_run_cons.
  rewrite (proj2 (do_thing_step_work v o latest (Worker w_work cur1) mem
    (Worker w_check cur2) mem1 eq_refl)) by eauto.
  done.
Qed.

End properties.

(** ** Concrete runs

    The thread of object 0 (seed 1) on the memory the constructor leaves,
    with the flag unset ([wk_unset]) and with the flag set by a thread
    that ran the loop of [main] ([wk_set]). *)

Definition wk_unset (v : variant) : memory := (run_ctor v).1.

Definition wk_set (v : variant) : memory :=
  set_cond (stop_ex v [latest; latest]).1.2 (wk_unset v).

Definition wk_step (v : variant) (p : pick) (s : worker * memory)
    : worker * memory :=
  default s (do_thing_step v 0 p s.1 s.2).

Definition wk_run (v : variant) (ps : list pick) (s : worker * memory)
    : worker * memory :=
  default s (do_thing_run v 0 ps s.1 s.2).

Lemma do_thing_step_mem_witness :
  cond (wk_step main_cpp latest (Worker w_work ∅, wk_unset main_cpp)).2
  = cond (wk_unset main_cpp) ∧
  (∀ o', o' ≠ 0 →
     cells (wk_step main_cpp latest (Worker w_work ∅, wk_unset main_cpp)).2 !! o'
     = cells (wk_unset main_cpp) !! o') ∧
  view_le ∅ (w_view (wk_step main_cpp latest (Worker w_work ∅, wk_unset main_cpp)).1) ∧
  ((wk_step main_cpp latest (Worker w_work ∅, wk_unset main_cpp)).2
   = wk_unset main_cpp ∨
   (w_work = w_work ∧
    cell_len (wk_step main_cpp latest (Worker w_work ∅, wk_unset main_cpp)).2 0
    = S (cell_len (wk_unset main_cpp) 0))).
Proof.
  exact (do_thing_step_mem main_cpp 0 latest (Worker w_work ∅) (wk_unset main_cpp)
    _ _ eq_refl).
Defined.

Lemma do_thing_seen_stops_witness :
  w_pc (wk_step main_cpp (at_ts 1)
          (Worker w_check {[ m_cond := 1 ]}, wk_set main_cpp)).1 = w_done ∧
  (wk_step main_cpp (at_ts 1)
     (Worker w_check {[ m_cond := 1 ]}, wk_set main_cpp)).2 = wk_set main_cpp.
Proof.
  apply (do_thing_seen_stops main_cpp 0 (at_ts 1)
    (Worker w_check {[ m_cond := 1 ]}) (wk_set main_cpp));
    [compute_done|reflexivity..].
Defined.

Lemma do_thing_done_flag_set_witness :
  w_check = w_check ∧
  (wk_step main_cpp latest (Worker w_check ∅, wk_set main_cpp)).2
  = wk_set main_cpp ∧
  flag_set (cond (wk_set main_cpp)) = true ∧
  seen_set (w_view (wk_step main_cpp latest
                      (Worker w_check ∅, wk_set main_cpp)).1) = true.
Proof.
  apply (do_thing_done_flag_set main_cpp 0 latest (Worker w_check ∅)
    (wk_set main_cpp)); [compute_done|reflexivity..].
Defined.

Lemma do_thing_seq_cst_bounded_witness :
  length [latest; latest] ≤ 2 ∧
  cell_len (wk_run main_seqcst_padding_cpp [latest; latest]
              (Worker w_work ∅, wk_set main_seqcst_padding_cpp)).2 0
  ≤ S (cell_len (wk_set main_seqcst_padding_cpp) 0) ∧
  (w_work = w_check →
   (wk_run main_seqcst_padding_cpp [latest; latest]
      (Worker w_work ∅, wk_set main_seqcst_padding_cpp)).2
   = wk_set main_seqcst_padding_cpp).
Proof.
  apply (do_thing_seq_cst_bounded main_seqcst_padding_cpp 0 [latest; latest]
    (Worker w_work ∅) (wk_set main_seqcst_padding_cpp)
    (wk_run main_seqcst_padding_cpp [latest; latest]
       (Worker w_work ∅, wk_set main_seqcst_padding_cpp)).1);
    [reflexivity|compute_done|reflexivity..].
Defined.

Lemma do_thing_seq_cst_terminates_witness :
  ∃ ps w' mem',
    length ps ≤ 2 ∧
    do_thing_run main_seqcst_padding_cpp 0 ps (Worker w_work ∅)
      (wk_set main_seqcst_padding_cpp) = Some (w', mem') ∧
    w_pc w' = w_done ∧
    cell_len mem' 0 ≤ S (cell_len (wk_set main_seqcst_padding_cpp) 0).
Proof.
  apply (do_thing_seq_cst_terminates main_seqcst_padding_cpp 0 (Worker w_work ∅)
    (wk_set main_seqcst_padding_cpp));
    [reflexivity|compute_done|compute_done|compute_done|reflexivity
    |by eexists|by right].
Defined.

Lemma do_thing_stale_work_witness :
  ∃ w' mem',
    do_thing_run main_cpp 0 (concat (replicate 5 [at_ts 0; latest]))
      (Worker w_check ∅) (wk_set main_cpp) = Some (w', mem') ∧
    w_pc w' = w_check ∧ cond mem' = cond (wk_set main_cpp) ∧
    cell_len mem' 0 = 5 + cell_len (wk_set main_cpp) 0.
Proof.
  apply (do_thing_stale_work main_cpp 5 0 (Worker w_check ∅) (wk_set main_cpp)
    (run_hist (run_ctor main_cpp)));
    [done|reflexivity|compute_done|compute_done|reflexivity|done|reflexivity..].
Defined.
