(* ===== verification/Driver.v ===== *)
(** * Driver: the function [main]

    src/main.cpp lines 70-140 (src/main_seqcst_padding.cpp lines 70-138).
    [main] is a machine with a program counter [main_pc], a view and its
    local variables; [main_step] is one atomic action of it on the state of
    the whole program ([state]): the memory, the threads of the objects and
    their handles.

    The program counter follows the source:
    - [m_ctor o k]: in the constructor of object [o] ([Foo a { 1 }; Foo b
      { 2 }; Foo c { 3 }], lines 78-80), before step [k] of [ctor_steps];
    - [m_sleep n]: at [short_sleep()] (lines 92 and 129);
    - [m_ckp c o]: in the call of [tpc_count] that fills checkpoint [c]
      (lines 95, 123, 132), before [count()] of object [o] (lines 83-85);
    - [m_poll]: at the condition of the outer [while] (line 99);
    - [m_cnt]: at [int cnt = a.count()] (line 101), followed by the test
      [cnt >= 10];
    - [m_stop]: in the loop of lines 106-115, whose own state is the
      [stop_state] of [StopFlag];
    - [m_extra]: at [a.do_work()] (line 127);
    - [m_dtor o]: at [return 0], before the destructor of object [o] (the
      objects are destroyed in the reverse order of their construction);
    - [m_exit]: [main] has returned.

    The destructor joins the object's thread: it can take its step only
    when the thread has returned, and the joining thread then learns the
    view of the thread it joined.  Output is not modelled; what [main]
    prints at lines 134-136 is [verdict]. *)

From S2P Require Import Prelude Int32 Memory Foo StopFlag Worker.

(** ** The machine *)

Inductive main_pc :=
  | m_ctor (o k : nat)
  | m_sleep (n : nat)
  | m_ckp (c o : nat)
  | m_poll
  | m_cnt
  | m_stop
  | m_extra
  | m_dtor (o : nat)
  | m_exit
  | m_undefined.

(** The seeds of the objects [a], [b], [c], which are the objects 0, 1
    and 2. *)
Definition seeds : list Z := [1; 2; 3]%Z.

Record main_state := MainState {
  m_pc : main_pc;
  m_view : view;
  (** [ckp1_a .. ckp3_c]: checkpoint [c] of object [o] *)
  ckp : gmap (nat * nat) Z;
  (** [int cnt] *)
  cnt : Z;
  (** [finish_work] and [spurious] *)
  stop : stop_state;
}.

(** The state of the program. *)
Record state := State {
  s_mem : memory;
  s_main : main_state;
  (** the thread [m_thread] of each object, once started *)
  s_workers : gmap nat worker;
  (** the handle [m_thread] of each object *)
  s_handles : gmap nat thread_handle;
}.

(** The program at the start of [main]: the flag is initialised, no
    object exists, [spurious] will be initialised to 0. *)
Definition main_init : main_state :=
  MainState (m_ctor 0 0) ∅ ∅ 0 (stop_start 0).

Definition state_init : state := State memory_init main_init ∅ ∅.

(** *** Where control goes next *)

Definition after_ctor_step (v : variant) (o k : nat) : main_pc :=
  if decide (S k < length (ctor_steps v)) then m_ctor o (S k)
  else if decide (S o < length seeds) then m_ctor (S o) 0
  else m_sleep 0.

Definition after_sleep (n : nat) : main_pc :=
  match n with
  | 0 => m_ckp 0 0
  | _ => m_ckp 2 0
  end.

Definition after_ckp (c o : nat) : main_pc :=
  if decide (S o < length seeds) then m_ckp c (S o)
  else
    match c with
    | 0 => m_poll
    | 1 => m_extra
    | _ => m_dtor (pred (length seeds))
    end.

Definition after_stop (st : stop_state) : main_pc :=
  match s_pc st with
  | stop_done _ => m_poll
  | stop_undefined => m_undefined
  | _ => m_stop
  end.

Definition after_dtor (o : nat) : main_pc :=
  match o with
  | 0 => m_exit
  | S o' => m_dtor o'
  end.

(** *** The steps *)

Definition set_main (ms : main_state) (s : state) : state :=
  State (s_mem s) ms (s_workers s) (s_handles s).

Definition set_pc (pc : main_pc) (ms : main_state) : main_state :=
  MainState pc (m_view ms) (ckp ms) (cnt ms) (stop ms).

(** A step of the constructor of object [o]: the start of the thread,
    which inherits the view of [main]; the initialisation of the counter,
    which is not an atomic operation and is recorded in the view of
    [main] only (what [main] has done before it starts a thread or
    releases a message happens before what the thread does, or what a
    reader of the message does); the body. *)
Definition ctor_step_exec (v : variant) (o : nat) (c : ctor_step)
    (pc' : main_pc) (s : state) : option state :=
  let ms := s_main s in
  match c with
  | init_m_thread =>
      Some (State (s_mem s) (set_pc pc' ms)
              (<[o := worker_start (m_view ms)]> (s_workers s))
              (<[o := joinable]> (s_handles s)))
  | init_m_v =>
      Some (State (Foo_init_m_v o (s_mem s))
              (MainState pc' (vset (m_v o) 0 (m_view ms)) (ckp ms) (cnt ms) (stop ms))
              (s_workers s) (s_handles s))
  | ctor_body =>
      i ← seeds !! o;
      '(mem', cur') ← Foo_ctor_body v o i (s_mem s) (m_view ms);
      Some (State mem' (MainState pc' cur' (ckp ms) (cnt ms) (stop ms))
              (s_workers s) (s_handles s))
  end.

(** [~Foo()] of object [o]: [if (m_thread.joinable()) m_thread.join()]. *)
Definition dtor_exec (o : nat) (pc' : main_pc) (s : state) : option state :=
  let ms := s_main s in
  let h := default not_started (s_handles s !! o) in
  if Foo_dtor_joins h then
    w ← s_workers s !! o;
    if decide (w_pc w = w_done) then
      Some (State (s_mem s)
              (MainState pc' (vjoin (m_view ms) (w_view w)) (ckp ms) (cnt ms)
                 (stop ms))
              (s_workers s) (<[o := joined]> (s_handles s)))
    else None
  else Some (set_main (set_pc pc' ms) s).

(** One step of [main]. *)
Definition main_step (v : variant) (p : pick) (s : state) : option state :=
  let ms := s_main s in
  let mem := s_mem s in
  match m_pc ms with
  | m_ctor o k =>
      c ← ctor_steps v !! k;
      ctor_step_exec v o c (after_ctor_step v o k) s
  | m_sleep n => Some (set_main (set_pc (after_sleep n) ms) s)
  | m_ckp c o =>
      '(x, cur') ← count v o p mem (m_view ms);
      Some (set_main (MainState (after_ckp c o) cur' (<[(c, o) := x]> (ckp ms))
                        (cnt ms) (stop ms)) s)
  | m_poll =>
      '(b, cur') ← atomic_load m_cond (o_main_poll v) p (cond mem) (m_view ms);
      Some (set_main (MainState (if b : bool then m_ckp 1 0 else m_cnt) cur'
                        (ckp ms) (cnt ms) (stop ms)) s)
  | m_cnt =>
      '(x, cur') ← count v 0 p mem (m_view ms);
      Some (set_main
              (if signal_reached v x then
                 MainState m_stop cur' (ckp ms) x (stop_start (spurious (stop ms)))
               else MainState m_poll cur' (ckp ms) x (stop ms)) s)
  | m_stop =>
      '(st', h', cur') ← try_stop_step v p (stop ms) (cond mem) (m_view ms);
      Some (State (set_cond h' mem)
              (MainState (after_stop st') cur' (ckp ms) (cnt ms) st')
              (s_workers s) (s_handles s))
  | m_extra =>
      match do_work v 0 mem (m_view ms) with
      | Some (mem', cur') =>
          Some (State mem' (MainState (m_sleep 1) cur' (ckp ms) (cnt ms) (stop ms))
                  (s_workers s) (s_handles s))
      | None => Some (set_main (set_pc m_undefined ms) s)
      end
  | m_dtor o => dtor_exec o (after_dtor o) s
  | m_exit | m_undefined => None
  end.

(** What [main] prints at lines 134-136: whether [ckp3_a == ckp2_a + 1],
    [ckp3_b == ckp2_b] and [ckp3_c == ckp2_c].  The checkpoints are plain
    [int]s and [ckp2_a + 1] is the built-in sum: there is no value to print
    ([None]) when it overflows, nor before the third checkpoint is
    complete. *)
Definition verdict (ms : main_state) : option (bool * bool * bool) :=
  a2 ← ckp ms !! (1, 0); b2 ← ckp ms !! (1, 1); c2 ← ckp ms !! (1, 2);
  a3 ← ckp ms !! (2, 0); b3 ← ckp ms !! (2, 1); c3 ← ckp ms !! (2, 2);
  a2' ← int_add_checked a2 1;
  Some (bool_decide (a3 = a2'), bool_decide (b3 = b2), bool_decide (c3 = c2)).

(** ** The steps as a relation

    [main_trans v p s s']: [main] takes a step from [s] to [s'], one rule
    for each way through [main_step].  Invariants of [main] are proved by
    cases on this relation. *)

Inductive main_trans (v : variant) (p : pick) (s : state) : state → Prop :=
  | mt_ctor o k c s' :
      m_pc (s_main s) = m_ctor o k → ctor_steps v !! k = Some c →
      ctor_step_exec v o c (after_ctor_step v o k) s = Some s' →
      main_trans v p s s'
  | mt_sleep n :
      m_pc (s_main s) = m_sleep n →
      main_trans v p s (set_main (set_pc (after_sleep n) (s_main s)) s)
  | mt_ckp c o x cur' :
      m_pc (s_main s) = m_ckp c o →
      count v o p (s_mem s) (m_view (s_main s)) = Some (x, cur') →
      main_trans v p s
        (set_main (MainState (after_ckp c o) cur' (<[(c, o) := x]> (ckp (s_main s)))
                     (cnt (s_main s)) (stop (s_main s))) s)
  | mt_poll b cur' :
      m_pc (s_main s) = m_poll →
      atomic_load m_cond (o_main_poll v) p (cond (s_mem s)) (m_view (s_main s))
      = Some (b, cur') →
      main_trans v p s
        (set_main (MainState (if b : bool then m_ckp 1 0 else m_cnt) cur'
                     (ckp (s_main s)) (cnt (s_main s)) (stop (s_main s))) s)
  | mt_cnt_reached x cur' :
      m_pc (s_main s) = m_cnt →
      count v 0 p (s_mem s) (m_view (s_main s)) = Some (x, cur') →
      signal_reached v x = true →
      main_trans v p s
        (set_main (MainState m_stop cur' (ckp (s_main s)) x
                     (stop_start (spurious (stop (s_main s))))) s)
  | mt_cnt_below x cur' :
      m_pc (s_main s) = m_cnt →
      count v 0 p (s_mem s) (m_view (s_main s)) = Some (x, cur') →
      signal_reached v x = false →
      main_trans v p s
        (set_main (MainState m_poll cur' (ckp (s_main s)) x (stop (s_main s))) s)
  | mt_stop st' h' cur' :
      m_pc (s_main s) = m_stop →
      try_stop_step v p (stop (s_main s)) (cond (s_mem s)) (m_view (s_main s))
      = Some (st', h', cur') →
      main_trans v p s
        (State (set_cond h' (s_mem s))
           (MainState (after_stop st') cur' (ckp (s_main s)) (cnt (s_main s)) st')
           (s_workers s) (s_handles s))
  | mt_extra mem' cur' :
      m_pc (s_main s) = m_extra →
      do_work v 0 (s_mem s) (m_view (s_main s)) = Some (mem', cur') →
      main_trans v p s
        (State mem'
           (MainState (m_sleep 1) cur' (ckp (s_main s)) (cnt (s_main s))
              (stop (s_main s)))
           (s_workers s) (s_handles s))
  | mt_extra_undefined :
      m_pc (s_main s) = m_extra →
      do_work v 0 (s_mem s) (m_view (s_main s)) = None →
      main_trans v p s (set_main (set_pc m_undefined (s_main s)) s)
  | mt_dtor_join o w :
      m_pc (s_main s) = m_dtor o →
      Foo_dtor_joins (default not_started (s_handles s !! o)) = true →
      s_workers s !! o = Some w → w_pc w = w_done →
      main_trans v p s
        (State (s_mem s)
           (MainState (after_dtor o) (vjoin (m_view (s_main s)) (w_view w))
              (ckp (s_main s)) (cnt (s_main s)) (stop (s_main s)))
           (s_workers s) (<[o := joined]> (s_handles s)))
  | mt_dtor_skip o :
      m_pc (s_main s) = m_dtor o →
      Foo_dtor_joins (default not_started (s_handles s !! o)) = false →
      main_trans v p s (set_main (set_pc (after_dtor o) (s_main s)) s).

#[export] Instance main_pc_eq_dec : EqDecision main_pc.
Proof. solve_decision. Defined.

#[export] Instance main_state_eq_dec : EqDecision main_state.
Proof. solve_decision. Defined.

#[export] Instance state_eq_dec : EqDecision state.
Proof. solve_decision. Defined.

(** ** The function and the relation *)

Section trans.
Context (v : variant).
Implicit Types (s : state) (p : pick).

Lemma main_step_sound p s s' : main_step v p s = Some s' → main_trans v p s s'.
Proof.
  unfold main_step, dtor_exec. intros Hstep.
  destruct (m_pc (s_main s)) eqn:Hpc; try done.
  - apply bind_Some in Hstep as (c & Hc & Hstep). by eapply mt_ctor.
  - injection Hstep as <-. by apply mt_sleep.
  - apply bind_Some in Hstep as ([x cur'] & Hc & [= <-]). by apply mt_ckp.
  - apply bind_Some in Hstep as ([b cur'] & Hld & [= <-]). by apply mt_poll.
  - apply bind_Some in Hstep as ([x cur'] & Hc & [= <-]).
    destruct (signal_reached v x) eqn:Hx;
      [by apply mt_cnt_reached|by apply mt_cnt_below].
  - apply bind_Some in Hstep as ([[st' h'] cur'] & Hts & [= <-]). by apply mt_stop.
  - destruct (do_work v 0 _ _) as [[mem' cur']|] eqn:Hdw; injection Hstep as <-;
      [by apply mt_extra|by apply mt_extra_undefined].
  - destruct (Foo_dtor_joins _) eqn:Hj; [|injection Hstep as <-; by apply mt_dtor_skip].
    apply bind_Some in Hstep as (w & Hw & Hstep). case_decide; [|done].
    injection Hstep as <-. by apply mt_dtor_join.
Qed.

Lemma main_step_complete p s s' : main_trans v p s s' → main_step v p s = Some s'.
Proof.
  unfold main_step, dtor_exec.
  destruct 1 as [o k c s' Hpc Hc Hstep|n Hpc|c o x cur' Hpc Hc|b cur' Hpc Hld
    |x cur' Hpc Hc Hx|x cur' Hpc Hc Hx|st' h' cur' Hpc Hts|mem' cur' Hpc Hdw
    |Hpc Hdw|o w Hpc Hj Hw Hd|o Hpc Hj]; rewrite Hpc; simpl;
    rewrite ?Hc, ?Hld, ?Hts, ?Hdw, ?Hj, ?Hw; simpl; rewrite ?Hx; try done.
  by rewrite decide_True.
Qed.

End trans.
