(* ===== verification/System.v ===== *)
(** * System: the whole program as an interleaving of its threads

    The program of src/main.cpp (and of src/main_seqcst_padding.cpp) runs
    four threads: [main] and the threads of the objects [a], [b] and [c].
    A step of the program is an atomic action of one of them ([exec]); the
    label of the step names the thread and the message its load picks.  A
    run is a list of labels ([run]); the reachable states are those of the
    runs from [state_init].

    This file holds the invariant of the reachable states ([sys_inv]) and
    what follows from it: the flag is set once and for all, no thread
    returns before the flag is set, [main] leaves its loop only when it has
    seen the flag set, and the threads of src/main_seqcst_padding.cpp never
    touch an uninitialised counter.  Complete runs of both source files,
    evaluated by the kernel, show what the invariant cannot exclude: the
    thread of src/main.cpp that increments a counter before it is
    initialised, the increments the constructor's store overwrites, and the
    final comparison of [main] that fails for a stopped object. *)

From S2P Require Import Prelude Int32 Memory Foo StopFlag Worker Driver.

(** ** Steps and runs *)

Inductive tid :=
  | t_main
  | t_worker (o : nat).

Definition label : Type := tid * pick.

#[export] Instance tid_eq_dec : EqDecision tid.
Proof. solve_decision. Defined.

(** A step of the thread of object [o]. *)
Definition worker_exec (v : variant) (o : nat) (p : pick) (s : state)
    : option state :=
  w ← s_workers s !! o;
  '(w', mem') ← do_thing_step v o p w (s_mem s);
  Some (State mem' (s_main s) (<[o := w']> (s_workers s)) (s_handles s)).

(** A step of the program. *)
Definition exec (v : variant) (l : label) (s : state) : option state :=
  match l.1 with
  | t_main => main_step v l.2 s
  | t_worker o => worker_exec v o l.2 s
  end.

Fixpoint run (v : variant) (ls : list label) (s : state) : option state :=
  match ls with
  | [] => Some s
  | l :: ls => s' ← exec v l s; run v ls s'
  end.

Definition step (v : variant) : relation state :=
  λ s s', ∃ l, exec v l s = Some s'.

Definition reachable (v : variant) (s : state) : Prop :=
  rtc (step v) state_init s.

(** An operation of the program has had no result to go on with: a
    thread has called [do_work] on a counter that is not initialised, or
    [spurious] has overflowed.  The machine of the thread has stopped in
    [w_undefined] or [m_undefined].

    These are the two kinds of undefined behaviour that stop a thread of
    the model.  The third kind in the program, the data race of
    src/main.cpp between the initialisation of [m_v] and the [fetch_add]
    of the thread started before it, leaves every operation with a result
    and is not counted here: it is defined and proved in [Race].  Where a
    statement on src/main.cpp says that a run or a state is not
    [undefined], it says what the atomic operations do should the race be
    benign. *)
Definition undefined (s : state) : bool :=
  bool_decide (m_pc (s_main s) = m_undefined)
  || bool_decide (map_Exists (λ _ w, w_pc w = w_undefined) (s_workers s)).

(** No thread has touched an uninitialised counter. *)
Definition workers_defined (s : state) : Prop :=
  map_Forall (λ _ w, w_pc w ≠ w_undefined) (s_workers s).

(** [main] has left the outer loop. *)
Definition past_loop (pc : main_pc) : bool :=
  match pc with
  | m_ckp (S _) _ | m_extra | m_sleep (S _) | m_dtor _ | m_exit => true
  | _ => false
  end.

(** [main] is in a constructor. *)
Definition in_ctor (pc : main_pc) : bool :=
  match pc with
  | m_ctor _ _ => true
  | _ => false
  end.

(** ** Schedules *)

(** [n] steps of a thread that always reads the newest message. *)
Definition steps (t : tid) (n : nat) : list label := replicate n (t, latest).

(** The three constructors, without a step of the new threads. *)
Definition sched_ctors : list label := steps t_main 9.

(** [main] from the first checkpoint to the end of the loop, with [rounds]
    polls of the counter of [a], each after one increment by its thread,
    the last of which reaches the threshold. *)
Definition sched_loop (rounds : nat) : list label :=
  steps t_main 4
  ++ concat (replicate rounds (steps (t_worker 0) 2 ++ steps t_main 2))
  ++ steps t_main 3.

(** The threads of [a], [b] and [c] each test the flag and return. *)
Definition sched_stop : list label :=
  [(t_worker 0, latest); (t_worker 1, latest); (t_worker 2, latest)].

(** [main] takes the second checkpoint; [main] calls [a.do_work()], sleeps
    and takes the third checkpoint; [main] destroys [c], [b] and [a]. *)
Definition sched_ckp2 : list label := steps t_main 3.
Definition sched_ckp3 : list label := steps t_main 5.
Definition sched_dtors : list label := steps t_main 3.

(** The run the program is written for: the threads return as soon as
    the flag is set, before [main] takes its second checkpoint. *)
Definition sched_quiescent (rounds : nat) : list label :=
  sched_ctors ++ sched_loop rounds ++ sched_stop
  ++ sched_ckp2 ++ sched_ckp3 ++ sched_dtors.

(** A run in which the thread of [b] has tested the flag before it was
    set, and increments its counter between the second and the third
    checkpoint. *)
Definition sched_in_flight (rounds : nat) : list label :=
  sched_ctors ++ [(t_worker 1, latest)] ++ sched_loop rounds
  ++ sched_ckp2 ++ [(t_worker 1, latest)] ++ sched_ckp3
  ++ sched_stop ++ sched_dtors.

(** The thread of [b] runs three times round its loop between its start
    and the store of the constructor's body. *)
Definition sched_early_work : list label :=
  steps t_main 5 ++ steps (t_worker 1) 6 ++ steps t_main 1.

(** The thread of [a] is started and increments at once. *)
Definition sched_early_start : list label :=
  [(t_main, latest); (t_worker 0, latest); (t_worker 0, latest)].

(** What a run has come to: where [main] is, what it has printed at
    lines 134-136, and whether the behaviour is undefined. *)
Definition outcome (s : state) : main_pc * option (bool * bool * bool) * bool :=
  (m_pc (s_main s), verdict (s_main s), undefined s).

(** The values the counter of object [o] has held, oldest first. *)
Definition counter_values (o : nat) (s : state) : option (list Z) :=
  hvals <$> cells (s_mem s) !! o.

(** The state a schedule leads to, and the thread of object [o] in it. *)
Definition state_after (v : variant) (ls : list label) : state :=
  default state_init (run v ls state_init).

Definition worker_after (v : variant) (ls : list label) (o : nat) : worker :=
  default (worker_start ∅) (s_workers (state_after v ls) !! o).

(** src/main_seqcst_padding.cpp just before and just after the
    compare-exchange that sets the flag, and at the return of [main]. *)
Definition before_cas : state :=
  state_after main_seqcst_padding_cpp (take 18 (sched_quiescent 1)).
Definition after_cas : state :=
  state_after main_seqcst_padding_cpp (take 19 (sched_quiescent 1)).
Definition at_exit : state :=
  state_after main_seqcst_padding_cpp (sched_quiescent 1).

(** ** The invariant *)

(** Step [c] of the constructor is among its first [k] steps. *)
Definition ctor_done (v : variant) (c : ctor_step) (k : nat) : bool :=
  bool_decide (c ∈ take k (ctor_steps v)).

(** Step [c] of the constructor of object [o'] is done when [main] is at
    [pc]: the objects are constructed one after the other. *)
Definition ctor_reached (v : variant) (c : ctor_step) (pc : main_pc)
    (o' : nat) : bool :=
  match pc with
  | m_ctor o k => bool_decide (o' < o) || bool_decide (o' = o) && ctor_done v c k
  | _ => bool_decide (o' < length seeds)
  end.

(** The counter of object [o'] is initialised; its thread is started. *)
Definition initialised (v : variant) := ctor_reached v init_m_v.
Definition started (v : variant) := ctor_reached v init_m_thread.

Definition pc_wf (v : variant) (pc : main_pc) : Prop :=
  match pc with
  | m_ctor o k => o < length seeds ∧ k < length (ctor_steps v)
  | _ => True
  end.

(** Memory is well formed and the flag is one-shot. *)
Record mem_ok (mem : memory) : Prop := MemOk {
  ok_wf : mem_wf mem;
  ok_flag : flag_hist (cond mem);
}.

(** Memory only grows: no history gets shorter, and the initialised
    counters are the same. *)
Record future (mem mem' : memory) : Prop := Future {
  future_len l : hist_len mem l ≤ hist_len mem' l;
  future_cells o : is_Some (cells mem' !! o) ↔ is_Some (cells mem !! o);
}.

(** What holds of the thread of an object: it knows only existing
    messages, and it has returned only if it has seen the flag set. *)
Record worker_ok (mem : memory) (w : worker) : Prop := WorkerOk {
  wok_closed : view_closed (hist_len mem) (w_view w);
  wok_done : w_pc w = w_done → seen_set (w_view w) = true;
}.

(** What holds of [main]: it knows only existing messages, [finish_work]
    holds only if it has seen the flag set, and it is past the loop only if
    it has seen the flag set. *)
Record main_ok (v : variant) (mem : memory) (ms : main_state) : Prop := MainOk {
  mok_closed : view_closed (hist_len mem) (m_view ms);
  mok_stop : stop_inv (stop ms) (m_view ms);
  mok_past : past_loop (m_pc ms) = true → seen_set (m_view ms) = true;
  mok_pc : pc_wf v (m_pc ms);
}.

Record sys_inv (v : variant) (s : state) : Prop := SysInv {
  inv_mem : mem_ok (s_mem s);
  inv_main : main_ok v (s_mem s) (s_main s);
  inv_workers : map_Forall (λ _ w, worker_ok (s_mem s) w) (s_workers s);
  inv_cells o :
    is_Some (cells (s_mem s) !! o) ↔ initialised v (m_pc (s_main s)) o = true;
  inv_started o :
    is_Some (s_workers s !! o) ↔ started v (m_pc (s_main s)) o = true;
}.

(** ** Memory grows *)

Section future.
Implicit Types (mem : memory) (cur : view) (w : worker).

#[export] Instance future_po : PreOrder future.
Proof.
  split.
  - by intros mem.
  - intros m1 m2 m3 [Hl1 Hc1] [Hl2 Hc2]. split.
    + intros l. etrans; [apply Hl1|apply Hl2].
    + intros o. by rewrite Hc2.
Qed.

Lemma seen_set_mono cur cur' :
  view_le cur cur' → seen_set cur = true → seen_set cur' = true.
Proof.
  unfold seen_set. intros Hle ?%bool_decide_eq_true. apply bool_decide_eq_true.
  specialize (Hle m_cond). lia.
Qed.

Lemma flag_set_future mem mem' :
  future mem mem' → flag_set (cond mem) = true → flag_set (cond mem') = true.
Proof.
  unfold flag_set. intros [Hlen _] ?%bool_decide_eq_true.
  apply bool_decide_eq_true. specialize (Hlen m_cond). simpl in Hlen. lia.
Qed.

Lemma worker_ok_mono mem mem' w :
  (∀ l, hist_len mem l ≤ hist_len mem' l) → worker_ok mem w → worker_ok mem' w.
Proof. intros Hlen []. split; [by eapply view_closed_mono|done]. Qed.

Lemma main_ok_mono v mem mem' ms :
  (∀ l, hist_len mem l ≤ hist_len mem' l) → main_ok v mem ms → main_ok v mem' ms.
Proof. intros Hlen []. split; [by eapply view_closed_mono|done..]. Qed.

(** A thread that has seen the flag set lives in a memory where it is
    set. *)
Lemma seen_set_flag_set mem cur :
  view_closed (hist_len mem) cur → seen_set cur = true →
  flag_set (cond mem) = true.
Proof.
  unfold seen_set, flag_set. intros Hcl ?%bool_decide_eq_true.
  apply bool_decide_eq_true. specialize (Hcl m_cond). simpl in Hcl. lia.
Qed.

End future.

(** ** The actions of a thread

    An action of a thread with view [cur] on memory [mem] leaves a well
    formed memory [mem'] that has only grown, and a closed view [cur'] that
    has only grown. *)

Record action (mem : memory) (cur : view) (mem' : memory) (cur' : view)
    : Prop := Action {
  act_ok : mem_ok mem';
  act_future : future mem mem';
  act_closed : view_closed (hist_len mem') cur';
  act_view : view_le cur cur';
}.

Section actions.
Context (v : variant).
Implicit Types (mem : memory) (cur : view) (o : nat) (p : pick).

Lemma future_set_cell mem o h h' :
  cells mem !! o = Some h → length h ≤ length h' → future mem (set_cell o h' mem).
Proof.
  intros Ho Hlen. split.
  - intros l. apply hist_len_set_cell_le. by rewrite (hist_len_cell _ _ _ Ho).
  - intros o'. by eapply is_Some_insert_same.
Qed.

Lemma load_flag_action mo p mem cur b cur' :
  mem_ok mem → view_closed (hist_len mem) cur →
  atomic_load m_cond mo p (cond mem) cur = Some (b, cur') →
  action mem cur mem cur' ∧ (b = true → seen_set cur' = true).
Proof.
  intros [Hwf Hf] Hcur Hld. split; [split; [done..| |]|].
  - eapply (atomic_load_closed _ m_cond); [done|by apply cond_closed|done..].
  - by eapply atomic_load_view.
  - intros ->. by eapply load_true_seen.
Qed.

Lemma count_action o p mem cur x cur' :
  mem_ok mem → view_closed (hist_len mem) cur →
  count v o p mem cur = Some (x, cur') → action mem cur mem cur'.
Proof.
  intros [Hwf Hf] Hcur Hc.
  destruct (count_closed _ _ _ _ _ _ _ Hwf Hcur Hc). by split.
Qed.

Lemma do_work_action o mem cur mem' cur' :
  mem_ok mem → view_closed (hist_len mem) cur →
  do_work v o mem cur = Some (mem', cur') →
  action mem cur mem' cur' ∧ cond mem' = cond mem.
Proof.
  intros [Hwf Hf] Hcur Hdw.
  destruct (do_work_wf _ _ _ _ _ _ Hwf Hcur Hdw) as (Hwf' & Hcur' & _).
  destruct (do_work_mem _ _ _ _ _ _ Hdw) as (Hc & _ & _ & Hle).
  apply do_work_Some in Hdw as (h & x & h' & Ho & Hfa & ->).
  pose proof (atomic_rmw_length _ _ _ _ _ _ _ _ Hfa) as Hlen.
  split; [split|]; [split; [done|by rewrite Hc]| |done..].
  eapply future_set_cell; [done|lia].
Qed.

Lemma Foo_ctor_body_action o i mem cur mem' cur' :
  mem_ok mem → view_closed (hist_len mem) cur →
  Foo_ctor_body v o i mem cur = Some (mem', cur') →
  action mem cur mem' cur'.
Proof.
  intros [Hwf Hf] Hcur Hcb.
  destruct (Foo_ctor_body_wf _ _ _ _ _ _ _ Hwf Hcur Hcb) as (Hwf' & Hcur' & _).
  apply Foo_ctor_body_Some in Hcb as (h & Ho & -> & ->).
  split; [by split| |done|apply atomic_store_view].
  eapply future_set_cell; [done|]. unfold atomic_store. simpl.
  rewrite length_snoc. lia.
Qed.

Lemma try_stop_step_action p st mem cur st' h' cur' :
  mem_ok mem → view_closed (hist_len mem) cur → stop_inv st cur →
  try_stop_step v p st (cond mem) cur = Some (st', h', cur') →
  action mem cur (set_cond h' mem) cur' ∧ stop_inv st' cur' ∧
  (∀ e, s_pc st' = stop_done e → seen_set cur' = true).
Proof.
  intros [Hwf Hf] Hcur Hinv Hstep.
  destruct (try_stop_step_wf v _ _ _ _ _ _ _ Hwf Hcur Hstep) as (Hwf' & Hcur' & Hlen).
  pose proof (stop_inv_step v _ _ _ _ _ _ _ Hf Hinv Hstep) as Hinv'.
  assert (flag_hist h' ∧ view_le cur cur' ∧
          (∀ e, s_pc st' = stop_done e → length (cond mem) ≤ vget cur' m_cond
             ∨ finish_work st' = true)) as (Hf' & Hle & Hdone).
  { destruct (try_stop_step_pc v _ _ _ _ _ Hstep) as [Hpc|Hpc].
    - apply (try_stop_step_load v _ _ _ _ _ _ _ Hpc) in Hstep as (b & Hld & -> & ->).
      split_and!; [done|by eapply atomic_load_view|done].
    - apply (try_stop_step_cas v _ _ _ _ _ _ _ Hpc) in Hstep as (ok & e & Hcas & ->).
      destruct (compare_exchange_weak_view _ _ _ _ _ _ _ _ _ _ _ _ Hcas).
      destruct (flag_cas_hist _ _ _ _ _ _ _ _ _ _ Hf Hcas) as [? Hok].
      split_and!; [done..|]. intros e' Hpc'.
      destruct (stop_next_cases ok e (spurious st))
        as [(-> & Hn)|[(_ & -> & Hn)|[(_ & _ & _ & Hn)|(_ & _ & _ & Hn)]]];
        rewrite Hn in *; [left; by destruct Hok|by right|done..]. }
  split_and!; [split; [by split| |done..]|done|].
  - split; [done|]. by intros o'.
  - intros e He. destruct (Hdone e He) as [Hts|Hfw]; [|by apply Hinv'].
    apply bool_decide_eq_true. pose proof (flag_hist_ne _ Hf).
    destruct (cond mem); simpl in *; [done|lia].
Qed.

End actions.

(** ** The invariant is preserved *)

Section preservation.
Context (v : variant).
Implicit Types (s : state) (mem : memory) (cur : view) (o : nat) (p : pick).

Lemma sys_inv_init : sys_inv v state_init.
Proof.
  split; simpl.
  - split; [apply mem_wf_init|apply flag_hist_init].
  - split; simpl; [apply view_closed_empty|done|done|].
    split; [compute; lia|]. unfold ctor_steps. destruct (thread_before_counter v); simpl; lia.
  - apply map_Forall_empty.
  - intros o. rewrite lookup_empty. unfold initialised, ctor_reached, ctor_done.
    simpl. rewrite andb_false_r. split; [by intros []|done].
  - intros o. rewrite lookup_empty. unfold started, ctor_reached, ctor_done.
    simpl. rewrite andb_false_r. split; [by intros []|done].
Qed.

(** The invariant after a step: the threads that did not move keep theirs
    because memory has only grown. *)
Lemma sys_inv_intro s s' :
  sys_inv v s →
  mem_ok (s_mem s') → (∀ l, hist_len (s_mem s) l ≤ hist_len (s_mem s') l) →
  main_ok v (s_mem s') (s_main s') →
  (∀ o w, s_workers s' !! o = Some w →
     s_workers s !! o = Some w ∨ worker_ok (s_mem s') w) →
  (∀ o, is_Some (cells (s_mem s') !! o) ↔ initialised v (m_pc (s_main s')) o = true) →
  (∀ o, is_Some (s_workers s' !! o) ↔ started v (m_pc (s_main s')) o = true) →
  sys_inv v s'.
Proof.
  intros Hinv Hok Hlen Hmain Hws Hcells Hstarted. split; [done..| |done|done].
  intros o w [Hw|Hw]%Hws; [|done].
  eapply worker_ok_mono; [done|]. by eapply (inv_workers _ _ Hinv).
Qed.

(** *** Steps of the threads of the objects *)

Lemma do_thing_step_ok o p w mem w' mem' :
  mem_ok mem → worker_ok mem w →
  do_thing_step v o p w mem = Some (w', mem') →
  mem_ok mem' ∧ future mem mem' ∧ worker_ok mem' w'.
Proof.
  intros Hok [Hcl Hdone] Hstep.
  destruct (do_thing_step_pc v _ _ _ _ _ Hstep) as [Hpc|Hpc].
  - apply (do_thing_step_check v _ _ _ _ _ _ Hpc) in Hstep
      as (b & cur' & Hld & -> & ->).
    destruct (load_flag_action _ _ _ _ _ _ Hok Hcl Hld) as [[] Hb].
    split_and!; [done..|]. split; [done|]. simpl. destruct b; [auto|done].
  - apply (do_thing_step_work v _ _ _ _ _ _ Hpc) in Hstep
      as [(cur' & Hdw & ->)|(_ & -> & ->)]; [|by split_and!].
    destruct (do_work_action v _ _ _ _ _ Hok Hcl Hdw) as [[] _].
    by split_and!.
Qed.

Lemma worker_exec_inv o p s s' :
  sys_inv v s → worker_exec v o p s = Some s' → sys_inv v s'.
Proof.
  intros Hinv (w & Hw & ([w' mem'] & Hstep & [= <-])%bind_Some)%bind_Some.
  destruct (do_thing_step_ok _ _ _ _ _ _ (inv_mem _ _ Hinv)
    (inv_workers _ _ Hinv _ _ Hw) Hstep) as (Hok & Hfut & Hw').
  apply (sys_inv_intro s); simpl; [done|done|apply Hfut| | | |].
  - eapply main_ok_mono; [apply Hfut|apply Hinv].
  - intros o' w0 [[-> ->]|[_ ?]]%lookup_insert_Some; auto.
  - intros o'. rewrite (future_cells _ _ Hfut). apply Hinv.
  - intros o'. rewrite <-(inv_started _ _ Hinv).
    by eapply is_Some_insert_same.
Qed.

(** *** The constructors *)

(** A step of the constructor is not done before it is taken, and is the
    only one done by taking it. *)
Lemma ctor_done_step k c c' :
  ctor_steps v !! k = Some c →
  ctor_done v c k = false ∧
  ctor_done v c' (S k) = ctor_done v c' k || bool_decide (c' = c).
Proof.
  unfold ctor_done, ctor_steps.
  destruct (thread_before_counter v), k as [|[|[|k]]]; intros [= <-];
    by destruct c'.
Qed.

Lemma ctor_done_bounds c :
  ctor_done v c 0 = false ∧ ctor_done v c (length (ctor_steps v)) = true.
Proof.
  unfold ctor_done, ctor_steps. by destruct (thread_before_counter v), c.
Qed.

(** The steps done after a step of the constructor of object [o]: those
    done before, and the step taken. *)
Lemma ctor_reached_step o k c c' o' :
  o < length seeds → ctor_steps v !! k = Some c →
  ctor_reached v c' (after_ctor_step v o k) o'
  = ctor_reached v c' (m_ctor o k) o' || bool_decide (o' = o) && bool_decide (c' = c).
Proof.
  intros Ho Hk. pose proof (lookup_lt_Some _ _ _ Hk) as Hlt.
  destruct (ctor_done_step k c c' Hk) as [_ Hs].
  destruct (ctor_done_bounds c') as [H0 Hall].
  unfold after_ctor_step, ctor_reached. change (length seeds) with 3 in *.
  destruct (decide (S k < length (ctor_steps v))) as [Hk'|Hk'].
  { rewrite Hs. by destruct (bool_decide (o' < o)), (bool_decide (o' = o)),
      (ctor_done v c' k), (bool_decide (c' = c)). }
  assert (S k = length (ctor_steps v)) as Hlast by lia.
  rewrite <-Hlast, Hs in Hall. rewrite ?H0.
  destruct (ctor_done v c' k), (bool_decide (c' = c)), (decide (S o < 3));
    try done; simpl; repeat case_bool_decide; try done; lia.
Qed.

Lemma ctor_reached_other o k c c' o' :
  o < length seeds → ctor_steps v !! k = Some c → c' ≠ c →
  ctor_reached v c' (after_ctor_step v o k) o' = ctor_reached v c' (m_ctor o k) o'.
Proof.
  intros Ho Hk Hne. rewrite (ctor_reached_step _ _ c) by done.
  by rewrite (bool_decide_eq_false_2 _ Hne), andb_false_r, orb_false_r.
Qed.

Lemma ctor_reached_taken o k c o' :
  o < length seeds → ctor_steps v !! k = Some c →
  ctor_reached v c (after_ctor_step v o k) o' = true
  ↔ ctor_reached v c (m_ctor o k) o' = true ∨ o' = o.
Proof.
  intros Ho Hk. rewrite (ctor_reached_step _ _ c) by done.
  rewrite (bool_decide_eq_true_2 (c = c)), andb_true_r by done.
  by rewrite orb_true_iff, bool_decide_eq_true.
Qed.

(** The step at hand of the constructor of object [o] is not done yet. *)
Lemma ctor_reached_current o k c :
  ctor_steps v !! k = Some c → ctor_reached v c (m_ctor o k) o = false.
Proof.
  intros Hk. destruct (ctor_done_step k c c Hk) as [Hc _]. simpl.
  rewrite Hc, andb_false_r, orb_false_r. apply bool_decide_eq_false. lia.
Qed.

Lemma main_ok_after_ctor mem ms o k cur' :
  main_ok v mem ms → m_pc ms = m_ctor o k →
  view_closed (hist_len mem) cur' → view_le (m_view ms) cur' →
  main_ok v mem (MainState (after_ctor_step v o k) cur' (ckp ms) (cnt ms) (stop ms)).
Proof.
  intros [Hcl Hstop Hpast Hpc] Hat Hcl' Hle. rewrite Hat in Hpc.
  assert (length (ctor_steps v) = 3) as Hlen.
  { unfold ctor_steps. by destruct (thread_before_counter v). }
  split; simpl; [done| | |].
  - intros Hfw. eapply seen_set_mono; [done|by apply Hstop].
  - unfold after_ctor_step. by repeat case_decide.
  - unfold after_ctor_step, pc_wf in *. change (length seeds) with 3 in *.
    repeat case_decide; [lia..|done].
Qed.

Lemma ctor_init_m_thread_inv o k s s' :
  sys_inv v s → m_pc (s_main s) = m_ctor o k →
  ctor_steps v !! k = Some init_m_thread →
  ctor_step_exec v o init_m_thread (after_ctor_step v o k) s = Some s' →
  sys_inv v s'.
Proof.
  intros Hinv Hat Hk [= <-]. pose proof (inv_main _ _ Hinv) as Hmain.
  pose proof (mok_pc _ _ _ Hmain) as Hpc. rewrite Hat in Hpc.
  destruct Hpc as [Ho _].
  apply (sys_inv_intro s); simpl; [done|apply Hinv|done| | | |].
  - unfold set_pc. apply main_ok_after_ctor; [done|done|apply Hmain|done].
  - intros o' w [[-> <-]|[_ ?]]%lookup_insert_Some; [right|by left].
    split; [apply Hmain|done].
  - intros o'. unfold initialised.
    rewrite (ctor_reached_other _ _ init_m_thread) by done.
    rewrite (inv_cells _ _ Hinv), Hat. done.
  - intros o'. unfold started. rewrite ctor_reached_taken by done.
    rewrite <-Hat. apply is_Some_insert_iff, Hinv.
Qed.

Lemma ctor_init_m_v_inv o k s s' :
  sys_inv v s → m_pc (s_main s) = m_ctor o k →
  ctor_steps v !! k = Some init_m_v →
  ctor_step_exec v o init_m_v (after_ctor_step v o k) s = Some s' →
  sys_inv v s'.
Proof.
  intros Hinv Hat Hk [= <-]. pose proof (inv_main _ _ Hinv) as Hmain.
  pose proof (mok_pc _ _ _ Hmain) as Hpc. rewrite Hat in Hpc.
  destruct Hpc as [Ho _].
  assert (cells (s_mem s) !! o = None) as Hnone.
  { apply eq_None_not_Some. rewrite (inv_cells _ _ Hinv), Hat.
    unfold initialised. by rewrite (ctor_reached_current o k init_m_v). }
  pose proof (λ l, Foo_init_m_v_len o _ l Hnone) as Hlen.
  apply (sys_inv_intro s); simpl; [done| |done| |by left| |].
  - split; [apply Foo_init_m_v_wf; [apply Hinv|done]|apply Hinv].
  - apply main_ok_after_ctor;
      [by eapply main_ok_mono|done| |apply view_le_vset].
    apply view_closed_vset.
    + unfold Foo_init_m_v. simpl. rewrite lookup_insert_eq. simpl. lia.
    + eapply view_closed_mono; [done|apply Hmain].
  - intros o'. unfold initialised. rewrite ctor_reached_taken by done.
    rewrite <-Hat. apply is_Some_insert_iff, Hinv.
  - intros o'. unfold started.
    rewrite (ctor_reached_other _ _ init_m_v) by done.
    rewrite (inv_started _ _ Hinv), Hat. done.
Qed.

Lemma ctor_body_inv o k s s' :
  sys_inv v s → m_pc (s_main s) = m_ctor o k →
  ctor_steps v !! k = Some ctor_body →
  ctor_step_exec v o ctor_body (after_ctor_step v o k) s = Some s' →
  sys_inv v s'.
Proof.
  intros Hinv Hat Hk (i & _ & ([mem' cur'] & Hcb & [= <-])%bind_Some)%bind_Some.
  pose proof (inv_main _ _ Hinv) as Hmain.
  pose proof (mok_pc _ _ _ Hmain) as Hpc. rewrite Hat in Hpc.
  destruct Hpc as [Ho _].
  destruct (Foo_ctor_body_action v _ _ _ _ _ _ (inv_mem _ _ Hinv)
    (mok_closed _ _ _ Hmain) Hcb) as [Hok Hfut Hcl Hle].
  apply (sys_inv_intro s); simpl; [done|done|apply Hfut| |by left| |].
  - apply main_ok_after_ctor; [|done..].
    eapply main_ok_mono; [apply Hfut|done].
  - intros o'. rewrite (future_cells _ _ Hfut). unfold initialised.
    rewrite (ctor_reached_other _ _ ctor_body) by done.
    rewrite (inv_cells _ _ Hinv), Hat. done.
  - intros o'. unfold started.
    rewrite (ctor_reached_other _ _ ctor_body) by done.
    rewrite (inv_started _ _ Hinv), Hat. done.
Qed.

Lemma ctor_step_exec_inv o k c s s' :
  sys_inv v s → m_pc (s_main s) = m_ctor o k → ctor_steps v !! k = Some c →
  ctor_step_exec v o c (after_ctor_step v o k) s = Some s' → sys_inv v s'.
Proof.
  destruct c; eauto using ctor_init_m_thread_inv, ctor_init_m_v_inv, ctor_body_inv.
Qed.

(** *** [main] after the constructors *)

(** A step of [main] outside the constructors: the objects stay as they
    are, whatever the step does to the handles. *)
Lemma sys_inv_main s mem' ms' hs' :
  sys_inv v s → mem_ok mem' → future (s_mem s) mem' → main_ok v mem' ms' →
  in_ctor (m_pc (s_main s)) = false → in_ctor (m_pc ms') = false →
  sys_inv v (State mem' ms' (s_workers s) hs').
Proof.
  intros Hinv Hok Hfut Hmain Hpc Hpc'.
  assert (∀ c o, ctor_reached v c (m_pc ms') o
                 = ctor_reached v c (m_pc (s_main s)) o) as Heq.
  { intros c o. by destruct (m_pc ms'), (m_pc (s_main s)). }
  apply (sys_inv_intro s); simpl; [done|done|apply Hfut|done|by left| |].
  - intros o. unfold initialised. rewrite Heq, (future_cells _ _ Hfut).
    apply Hinv.
  - intros o. unfold started. rewrite Heq. apply Hinv.
Qed.

(** What [main] knows after an action: what it knew, and what the action
    taught it. *)
Lemma main_ok_step mem ms mem' pc' cur' ck' cn' st' :
  main_ok v mem ms → view_closed (hist_len mem') cur' → view_le (m_view ms) cur' →
  (finish_work st' = true → finish_work (stop ms) = true ∨ seen_set cur' = true) →
  (past_loop pc' = true → past_loop (m_pc ms) = true ∨ seen_set cur' = true) →
  in_ctor pc' = false →
  main_ok v mem' (MainState pc' cur' ck' cn' st').
Proof.
  intros [Hcl Hstop Hpast Hpc] Hcl' Hle Hfw Hpl Hnc. split; simpl; [done| | |].
  - intros [?%Hstop|?]%Hfw; [by eapply seen_set_mono|done].
  - intros [?%Hpast|?]%Hpl; [by eapply seen_set_mono|done].
  - by destruct pc'.
Qed.

(** A step of [main] that changes its program counter only. *)
Lemma set_pc_inv s pc' :
  sys_inv v s → in_ctor (m_pc (s_main s)) = false → in_ctor pc' = false →
  (past_loop pc' = true → past_loop (m_pc (s_main s)) = true) →
  sys_inv v (set_main (set_pc pc' (s_main s)) s).
Proof.
  intros Hinv Hpc Hpc' Hpast.
  apply sys_inv_main; [done|apply Hinv|done| |done..].
  eapply main_ok_step; [apply Hinv|apply Hinv|done|auto..].
Qed.

Ltac main_step_at Hat Hstep :=
  unfold main_step in Hstep; rewrite Hat in Hstep.

Lemma main_sleep_inv n p s s' :
  sys_inv v s → m_pc (s_main s) = m_sleep n →
  main_step v p s = Some s' → sys_inv v s'.
Proof.
  intros Hinv Hat Hstep. main_step_at Hat Hstep. injection Hstep as <-.
  apply set_pc_inv; rewrite ?Hat; [done|done|by destruct n..].
Qed.

Lemma main_ckp_inv c o p s s' :
  sys_inv v s → m_pc (s_main s) = m_ckp c o →
  main_step v p s = Some s' → sys_inv v s'.
Proof.
  intros Hinv Hat Hstep. main_step_at Hat Hstep.
  apply bind_Some in Hstep as ([x cur'] & Hc & [= <-]).
  destruct (count_action v _ _ _ _ _ _ (inv_mem _ _ Hinv)
    (mok_closed _ _ _ (inv_main _ _ Hinv)) Hc) as [Hok Hfut Hcl Hle].
  assert (in_ctor (after_ckp c o) = false ∧
          (past_loop (after_ckp c o) = true → past_loop (m_ckp c o) = true))
    as [Hnc Hpl].
  { unfold after_ckp. case_decide; [done|]. by destruct c as [|[|c]]. }
  apply sys_inv_main; rewrite ?Hat; [done..| |done|done].
  eapply main_ok_step; [apply Hinv|done|done|auto|rewrite Hat; auto|done].
Qed.

Lemma main_poll_inv p s s' :
  sys_inv v s → m_pc (s_main s) = m_poll →
  main_step v p s = Some s' → sys_inv v s'.
Proof.
  intros Hinv Hat Hstep. main_step_at Hat Hstep.
  apply bind_Some in Hstep as ([b cur'] & Hld & [= <-]).
  destruct (load_flag_action _ _ _ _ _ _ (inv_mem _ _ Hinv)
    (mok_closed _ _ _ (inv_main _ _ Hinv)) Hld) as [[Hok Hfut Hcl Hle] Hb].
  apply sys_inv_main; rewrite ?Hat; [done..| |done|by destruct b].
  eapply main_ok_step; [apply Hinv|done|done|auto| |by destruct b].
  destruct b; [auto|done].
Qed.

Lemma main_cnt_inv p s s' :
  sys_inv v s → m_pc (s_main s) = m_cnt →
  main_step v p s = Some s' → sys_inv v s'.
Proof.
  intros Hinv Hat Hstep. main_step_at Hat Hstep.
  apply bind_Some in Hstep as ([x cur'] & Hc & [= <-]).
  destruct (count_action v _ _ _ _ _ _ (inv_mem _ _ Hinv)
    (mok_closed _ _ _ (inv_main _ _ Hinv)) Hc) as [Hok Hfut Hcl Hle].
  destruct (signal_reached v x);
    (apply sys_inv_main; rewrite ?Hat; [done..| |done|done]);
    (eapply main_ok_step; [apply Hinv|done|done|auto|done|done]).
  done.
Qed.

Lemma main_stop_inv p s s' :
  sys_inv v s → m_pc (s_main s) = m_stop →
  main_step v p s = Some s' → sys_inv v s'.
Proof.
  intros Hinv Hat Hstep. main_step_at Hat Hstep.
  apply bind_Some in Hstep as ([[st' h'] cur'] & Hts & [= <-]).
  destruct (try_stop_step_action v _ _ _ _ _ _ _ (inv_mem _ _ Hinv)
    (mok_closed _ _ _ (inv_main _ _ Hinv)) (mok_stop _ _ _ (inv_main _ _ Hinv)) Hts)
    as ([Hok Hfut Hcl Hle] & Hstop & _).
  assert (in_ctor (after_stop st') = false ∧ past_loop (after_stop st') = false)
    as [Hnc Hpl].
  { unfold after_stop. by destruct (s_pc st'). }
  apply sys_inv_main; rewrite ?Hat; [done..| |done|done].
  eapply main_ok_step; [apply Hinv|done|done|auto| |done].
  by rewrite Hpl.
Qed.

Lemma main_extra_inv p s s' :
  sys_inv v s → m_pc (s_main s) = m_extra →
  main_step v p s = Some s' → sys_inv v s'.
Proof.
  intros Hinv Hat Hstep. main_step_at Hat Hstep.
  destruct (do_work v 0 _ _) as [[mem' cur']|] eqn:Hdw; injection Hstep as <-.
  - destruct (do_work_action v _ _ _ _ _ (inv_mem _ _ Hinv)
      (mok_closed _ _ _ (inv_main _ _ Hinv)) Hdw) as [[Hok Hfut Hcl Hle] _].
    apply sys_inv_main; rewrite ?Hat; [done..| |done|done].
    eapply main_ok_step; [apply Hinv|done|done|auto|rewrite Hat; auto|done].
  - apply set_pc_inv; rewrite ?Hat; done.
Qed.

Lemma main_dtor_inv o p s s' :
  sys_inv v s → m_pc (s_main s) = m_dtor o →
  main_step v p s = Some s' → sys_inv v s'.
Proof.
  intros Hinv Hat Hstep. main_step_at Hat Hstep. unfold dtor_exec in Hstep.
  assert (in_ctor (after_dtor o) = false ∧ past_loop (after_dtor o) = true)
    as [Hnc Hpl] by by destruct o.
  destruct (Foo_dtor_joins _).
  - apply bind_Some in Hstep as (w & Hw & Hstep). case_decide; [|done].
    injection Hstep as <-.
    apply sys_inv_main; rewrite ?Hat; [done|apply Hinv|done| |done|done].
    eapply main_ok_step; [apply Hinv| |apply view_le_vjoin_l|auto|rewrite Hat; auto|done].
    apply view_closed_vjoin; [apply Hinv|].
    by apply (inv_workers _ _ Hinv _ _ Hw).
  - injection Hstep as <-. apply set_pc_inv; rewrite ?Hat; done.
Qed.

(** Every step of [main] preserves the invariant. *)
Lemma main_step_inv p s s' :
  sys_inv v s → main_step v p s = Some s' → sys_inv v s'.
Proof.
  intros Hinv Hstep. destruct (m_pc (s_main s)) eqn:Hat.
  - main_step_at Hat Hstep. apply bind_Some in Hstep as (c & Hk & Hstep).
    by eapply ctor_step_exec_inv.
  - by eapply main_sleep_inv.
  - by eapply main_ckp_inv.
  - by eapply main_poll_inv.
  - by eapply main_cnt_inv.
  - by eapply main_stop_inv.
  - by eapply main_extra_inv.
  - by eapply main_dtor_inv.
  - by main_step_at Hat Hstep.
  - by main_step_at Hat Hstep.
Qed.

Lemma exec_inv l s s' : sys_inv v s → exec v l s = Some s' → sys_inv v s'.
Proof.
  unfold exec. destruct (l.1); eauto using main_step_inv, worker_exec_inv.
Qed.

Lemma run_inv ls s s' : sys_inv v s → run v ls s = Some s' → sys_inv v s'.
Proof.
  revert s. induction ls as [|l ls IH]; intros s Hinv; simpl; [by intros [= <-]|].
  intros (s1 & Hex & Hrun)%bind_Some. eauto using exec_inv.
Qed.

Lemma reachable_inv s : reachable v s → sys_inv v s.
Proof.
  intros Hr. eapply (rtc_invariant (step v) (sys_inv v));
    [|exact Hr|apply sys_inv_init].
  intros s1 s2 Hinv [l Hex]. by eapply exec_inv.
Qed.

(** A run is a sequence of steps, and conversely. *)
Lemma run_rtc ls s s' : run v ls s = Some s' → rtc (step v) s s'.
Proof.
  revert s. induction ls as [|l ls IH]; intros s; simpl; [by intros [= <-]|].
  intros (s1 & Hex & Hrun)%bind_Some. eapply rtc_l; [by exists l|by apply IH].
Qed.

Lemma run_app ls1 ls2 s : run v (ls1 ++ ls2) s = run v ls1 s ≫= run v ls2.
Proof.
  revert s. induction ls1 as [|l ls1 IH]; intros s; [done|].
  simpl. destruct (exec v l s) as [s'|]; [apply IH|done].
Qed.

Lemma rtc_run s s' : rtc (step v) s s' → ∃ ls, run v ls s = Some s'.
Proof.
  induction 1 as [s0|s0 s1 s2 [l Hex] _ [ls IH]]; [by exists []|].
  exists (l :: ls). simpl. by rewrite Hex.
Qed.

(** The reachable states are those of the runs. *)
Lemma reachable_run s : reachable v s ↔ ∃ ls, run v ls state_init = Some s.
Proof.
  split; [apply rtc_run|]. intros [ls Hrun]. by eapply run_rtc.
Qed.

End preservation.

(** ** What a step does to the flag and to the threads *)

Section steps.
Context (v : variant).
Implicit Types (s : state) (mem : memory) (o : nat) (p : pick).

Lemma do_thing_step_cond o p w mem w' mem' :
  do_thing_step v o p w mem = Some (w', mem') → cond mem' = cond mem.
Proof.
  intros Hstep. destruct (do_thing_step_pc v _ _ _ _ _ Hstep) as [Hpc|Hpc].
  - by apply (do_thing_step_check v _ _ _ _ _ _ Hpc) in Hstep as (_ & _ & _ & -> & _).
  - apply (do_thing_step_work v _ _ _ _ _ _ Hpc) in Hstep
      as [(cur' & Hdw & _)|(_ & -> & _)]; [|done].
    by destruct (do_work_mem _ _ _ _ _ _ Hdw).
Qed.

Lemma ctor_step_exec_cond o c pc' s s' :
  ctor_step_exec v o c pc' s = Some s' → cond (s_mem s') = cond (s_mem s).
Proof.
  destruct c; simpl; [by intros [= <-]..|].
  intros (i & _ & ([mem' cur'] & Hcb & [= <-])%bind_Some)%bind_Some.
  by apply Foo_ctor_body_Some in Hcb as (h & _ & -> & _).
Qed.

(** A step of a constructor moves [main] on and leaves its local
    variables as they are. *)
Lemma ctor_step_exec_pc o c pc' s s' :
  ctor_step_exec v o c pc' s = Some s' → m_pc (s_main s') = pc'.
Proof. unfold ctor_step_exec. intros Hstep. destruct c; by step_cases. Qed.

Lemma ctor_step_exec_stop o c pc' s s' :
  ctor_step_exec v o c pc' s = Some s' → stop (s_main s') = stop (s_main s).
Proof. unfold ctor_step_exec. intros Hstep. destruct c; by step_cases. Qed.

(** [main] writes the flag in the loop of lines 106-115 only, and only
    appends to its history. *)
Lemma main_step_cond p s s' :
  main_step v p s = Some s' →
  cond (s_mem s) `prefix_of` cond (s_mem s') ∧
  (m_pc (s_main s) ≠ m_stop → cond (s_mem s') = cond (s_mem s)).
Proof.
  unfold main_step, dtor_exec. intros Hstep.
  destruct (m_pc (s_main s)); step_cases; try done.
  - rewrite (ctor_step_exec_cond _ _ _ _ _ Hstep). done.
  - split; [by eapply try_stop_step_prefix|done].
  - match goal with H : do_work _ _ _ _ = _ |- _ =>
      by destruct (do_work_mem _ _ _ _ _ _ H) as [-> _] end.
Qed.

(** [main] does not come back to a constructor. *)
Lemma main_trans_in_ctor p s s' :
  main_trans v p s s' → in_ctor (m_pc (s_main s)) = false →
  in_ctor (m_pc (s_main s')) = false.
Proof.
  destruct 1 as [o k c s' Hpc Hc Hstep|n Hpc|c o x cur' Hpc Hc|b cur' Hpc Hld
    |x cur' Hpc Hc Hx|x cur' Hpc Hc Hx|st' h' cur' Hpc Hts|mem' cur' Hpc Hdw
    |Hpc Hdw|o w Hpc Hj Hw Hd|o Hpc Hj]; rewrite Hpc; simpl; try done; intros _.
  - by destruct n.
  - unfold after_ckp. case_decide; [done|]. by destruct c as [|[|c]].
  - by destruct b.
  - unfold after_stop. by destruct (s_pc st').
  - by destruct o.
  - by destruct o.
Qed.

Lemma exec_in_ctor l s s' :
  exec v l s = Some s' → in_ctor (m_pc (s_main s)) = false →
  in_ctor (m_pc (s_main s')) = false.
Proof.
  destruct l as [[|o] p]; unfold exec; cbn [fst snd].
  - intros ?%main_step_sound. by eapply main_trans_in_ctor.
  - by intros (w & _ & ([w' mem'] & _ & [= <-])%bind_Some)%bind_Some.
Qed.

(** The view of [main] only grows. *)
Lemma main_trans_view p s s' :
  main_trans v p s s' → view_le (m_view (s_main s)) (m_view (s_main s')).
Proof.
  destruct 1 as [o k c s' Hpc Hc Hstep|n Hpc|c o x cur' Hpc Hc|b cur' Hpc Hld
    |x cur' Hpc Hc Hx|x cur' Hpc Hc Hx|st' h' cur' Hpc Hts|mem' cur' Hpc Hdw
    |Hpc Hdw|o w Hpc Hj Hw Hd|o Hpc Hj]; simpl; try done;
    try (by eapply count_view); try (by eapply atomic_load_view);
    try (by eapply try_stop_step_view); try apply view_le_vjoin_l.
  - unfold ctor_step_exec in Hstep.
    destruct c; step_cases; simpl; try done; [apply view_le_vset|].
    match goal with H : Foo_ctor_body _ _ _ _ _ = _ |- _ =>
      apply Foo_ctor_body_Some in H as (h & _ & _ & ->) end.
    apply atomic_store_view.
  - by destruct (do_work_mem _ _ _ _ _ _ Hdw) as (_ & _ & _ & ?).
Qed.

(** [main] forgets nothing. *)
Lemma main_trans_knows p s s' :
  main_trans v p s s' → view_sub (m_view (s_main s)) (m_view (s_main s')).
Proof.
  destruct 1 as [o k c s' Hpc Hc Hstep|n Hpc|c o x cur' Hpc Hc|b cur' Hpc Hld
    |x cur' Hpc Hc Hx|x cur' Hpc Hc Hx|st' h' cur' Hpc Hts|mem' cur' Hpc Hdw
    |Hpc Hdw|o w Hpc Hj Hw Hd|o Hpc Hj]; simpl; try done;
    try (by eapply count_knows); try (by eapply atomic_load_knows);
    try (by eapply try_stop_step_knows); try (by eapply do_work_knows);
    try apply view_sub_vjoin_l.
  unfold ctor_step_exec in Hstep.
  destruct c; step_cases; simpl; try done; [apply view_sub_vset|].
  match goal with H : Foo_ctor_body _ _ _ _ _ = _ |- _ =>
    by apply Foo_ctor_body_knows in H as [? _] end.
Qed.

(** [main] changes the threads only by starting one, in a constructor. *)
Lemma main_step_workers p s s' o w :
  main_step v p s = Some s' → s_workers s' !! o = Some w →
  s_workers s !! o = Some w ∨ w_pc w = w_check.
Proof.
  unfold main_step, dtor_exec, ctor_step_exec. intros Hstep.
  destruct (m_pc (s_main s)); step_cases; auto.
  intros [[_ <-]|[_ ?]]%lookup_insert_Some; auto.
Qed.

Lemma ctor_steps_length : length (ctor_steps v) = 3.
Proof. unfold ctor_steps. by destruct (thread_before_counter v). Qed.

(** The body of the constructor comes after the initialiser of the
    counter. *)
Lemma ctor_body_initialised o k :
  ctor_steps v !! k = Some ctor_body → initialised v (m_ctor o k) o = true.
Proof.
  unfold initialised, ctor_reached, ctor_done, ctor_steps.
  rewrite (bool_decide_eq_true_2 (o = o)) by done. intros Hk.
  rewrite orb_true_iff. right. simpl. apply bool_decide_eq_true.
  destruct (thread_before_counter v), k as [|[|[|k]]]; simplify_eq/=; set_solver.
Qed.

(** Where the thread is declared before the counter, it is started
    before the counter is initialised. *)
Lemma thread_start_uninitialised o k :
  thread_before_counter v = true → ctor_steps v !! k = Some init_m_thread →
  initialised v (m_ctor o k) o = false.
Proof.
  unfold initialised, ctor_reached, ctor_done, ctor_steps. intros -> Hk.
  rewrite (bool_decide_eq_false_2 (o < o)) by lia. simpl.
  destruct k as [|[|[|k]]]; simplify_eq/=. by rewrite andb_false_r.
Qed.

(** Where the counter is declared before the thread, the counter is
    initialised when the thread is started. *)
Lemma thread_start_initialised o k :
  thread_before_counter v = false → ctor_steps v !! k = Some init_m_thread →
  initialised v (m_ctor o k) o = true.
Proof.
  unfold initialised, ctor_reached, ctor_done, ctor_steps. intros -> Hk.
  rewrite (bool_decide_eq_true_2 (o = o)) by done.
  rewrite orb_true_iff. right. simpl. apply bool_decide_eq_true.
  destruct k as [|[|[|k]]]; simplify_eq/=; set_solver.
Qed.

(** Where the counter is declared before the thread, a started thread
    has an initialised counter. *)
Lemma started_initialised pc o :
  thread_before_counter v = false →
  started v pc o = true → initialised v pc o = true.
Proof.
  intros Hv. unfold started, initialised, ctor_reached, ctor_done, ctor_steps.
  rewrite Hv. destruct pc as [o0 [|[|[|k]]]| | | | | | | | |]; try done;
    simpl; by destruct (bool_decide (o < o0)), (bool_decide (o = o0)).
Qed.

End steps.

(** ** Properties of the program *)

Section properties.
Context (v : variant).
Implicit Types (s : state) (o : nat) (w : worker).

(** No thread touches an uninitialised counter where the counter is
    declared before the thread. *)
Lemma exec_workers_defined l s s' :
  thread_before_counter v = false → sys_inv v s → workers_defined s →
  exec v l s = Some s' → workers_defined s'.
Proof.
  intros Hv Hinv Hdef Hex o w Hw.
  destruct l as [[|o'] p]; unfold exec in Hex; cbn [fst snd] in Hex.
  { destruct (main_step_workers v _ _ _ _ _ Hex Hw) as [?| ->]; [|done].
    by eapply Hdef. }
  apply bind_Some in Hex as (w0 & Hw0 & ([w' mem'] & Hstep & [= <-])%bind_Some).
  simpl in Hw. apply lookup_insert_Some in Hw as [[<- <-]|[_ ?]]; [|by eapply Hdef].
  intros Hpc. destruct (do_thing_step_pc v _ _ _ _ _ Hstep) as [Hpc0|Hpc0].
  - apply (do_thing_step_check v _ _ _ _ _ _ Hpc0) in Hstep
      as (b & cur' & _ & _ & ->). by destruct b.
  - apply (do_thing_step_work v _ _ _ _ _ _ Hpc0) in Hstep
      as [(cur' & _ & ->)|(Hnone & _)]; [done|].
    destruct (do_work_is_Some v o' (s_mem s) (w_view w0)) as [? Hsome];
      [apply Hinv| |congruence].
    apply (inv_cells _ _ Hinv), started_initialised, (inv_started _ _ Hinv); eauto.
Qed.

Lemma reachable_workers_defined s :
  thread_before_counter v = false → reachable v s → workers_defined s.
Proof.
  intros Hv Hr.
  cut (sys_inv v s ∧ workers_defined s); [by intros []|].
  eapply (rtc_invariant (step v) (λ s, sys_inv v s ∧ workers_defined s));
    [|exact Hr|].
  - intros s1 s2 [Hinv Hdef] [l Hex].
    split; [by eapply exec_inv|by eapply exec_workers_defined].
  - split; [apply sys_inv_init|apply map_Forall_empty].
Qed.

(** C4 (reachable_flag_one_shot): in the whole program the flag is set
    once and for all.  Whichever thread takes a step from a reachable
    state, the history of the flag stays of the form [false; true; ...;
    true] and is only extended: no thread ever resets the flag. *)
Theorem reachable_flag_one_shot s s' :
  reachable v s → step v s s' →
  flag_hist (cond (s_mem s')) ∧
  cond (s_mem s) `prefix_of` cond (s_mem s') ∧
  (flag_set (cond (s_mem s)) = true → flag_set (cond (s_mem s')) = true).
Proof.
  intros Hinv%reachable_inv [l Hex].
  pose proof (exec_inv v _ _ _ Hinv Hex) as Hinv'.
  assert (cond (s_mem s) `prefix_of` cond (s_mem s')) as Hpre.
  { destruct l as [[|o] p]; unfold exec in Hex; cbn [fst snd] in Hex;
      [by destruct (main_step_cond v _ _ _ Hex)|].
    apply bind_Some in Hex as (w & _ & ([w' mem'] & Hstep & [= <-])%bind_Some).
    simpl. by rewrite (do_thing_step_cond v _ _ _ _ _ _ Hstep). }
  split_and!; [apply Hinv'|done|].
  unfold flag_set. intros ?%bool_decide_eq_true. apply bool_decide_eq_true.
  apply prefix_length in Hpre. lia.
Qed.

(** C6 (reachable_past_loop): [main] leaves its loop only when the flag
    is set.  In every reachable state in which [main] is past the outer
    [while], the flag is set and [main] has seen it set. *)
Theorem reachable_past_loop s :
  reachable v s → past_loop (m_pc (s_main s)) = true →
  flag_set (cond (s_mem s)) = true ∧ seen_set (m_view (s_main s)) = true.
Proof.
  intros Hinv%reachable_inv Hpast.
  pose proof (mok_past _ _ _ (inv_main _ _ Hinv) Hpast) as Hseen.
  split; [|done]. eapply seen_set_flag_set; [|done]. apply Hinv.
Qed.

(** C32 (reachable_worker_done): no thread returns before the flag is
    set.  In every reachable state, if [do_thing] of an object has
    returned then the flag is set and that thread has seen it set. *)
Theorem reachable_worker_done s o w :
  reachable v s → s_workers s !! o = Some w → w_pc w = w_done →
  flag_set (cond (s_mem s)) = true ∧ seen_set (w_view w) = true.
Proof.
  intros Hinv%reachable_inv Hw Hdone.
  destruct (inv_workers _ _ Hinv _ _ Hw) as [Hcl Hseen].
  split; [|by apply Hseen]. eapply seen_set_flag_set; [done|by apply Hseen].
Qed.

(** C23 (padded_workers_defined): in src/main_seqcst_padding.cpp, where
    [m_v] is declared before [m_thread], a thread is started only once
    the counter of its object is initialised, and no thread ever calls
    [do_work] on an uninitialised counter. *)
Theorem padded_workers_defined s o w :
  thread_before_counter v = false → reachable v s →
  s_workers s !! o = Some w →
  w_pc w ≠ w_undefined ∧ is_Some (cells (s_mem s) !! o).
Proof.
  intros Hv Hr Hw. split; [by eapply (reachable_workers_defined s Hv Hr)|].
  apply reachable_inv in Hr as Hinv.
  apply (inv_cells _ _ Hinv), started_initialised, (inv_started _ _ Hinv); eauto.
Qed.

End properties.

(** ** Runs of the two source files

    The schedules of the section Schedules, run by the kernel.  The number
    of rounds of the loop is the number of increments the thread of [a]
    needs to take its counter from the seed 1 to the threshold: 9 for
    [cnt >= 10] (src/main.cpp), 1 for [cnt > 1]
    (src/main_seqcst_padding.cpp). *)

Lemma state_after_reachable v ls :
  is_Some (run v ls state_init) → reachable v (state_after v ls).
Proof.
  intros [s Hs]. apply reachable_run. exists ls. unfold state_after.
  by rewrite Hs.
Qed.

(** C8 (verdict_in_flight): the final comparison of [main] can fail for
    a stopped object.  In both source files there is a complete run, in
    which no thread touches an uninitialised counter and [spurious] does
    not overflow ([undefined] is false at its end), in which the thread
    of [b] tests the flag
    before it is set and increments after the second checkpoint: [main]
    returns having printed [true] for [ckp3_a == ckp2_a + 1], [false] for
    [ckp3_b == ckp2_b] and [true] for [ckp3_c == ckp2_c]. *)
Theorem verdict_in_flight :
  outcome <$> run main_cpp (sched_in_flight 9) state_init
  = Some (m_exit, Some (true, false, true), false) ∧
  outcome <$> run main_seqcst_padding_cpp (sched_in_flight 1) state_init
  = Some (m_exit, Some (true, false, true), false).
Proof. split; vm_compute; reflexivity. Qed.

(** C25 (early_start_undefined): src/main.cpp has undefined behaviour.
    [m_thread] is declared before [m_v], so the thread of [a] can call
    [do_work] before the counter is initialised: two steps of the thread
    after the first step of the constructor reach it.  (When the thread
    comes later, the call still races with the initialisation: see
    [Race].) *)
Theorem early_start_undefined :
  outcome <$> run main_cpp sched_early_start state_init
  = Some (m_ctor 0 1, None, true) ∧
  counter_values 0 <$> run main_cpp sched_early_start state_init = Some None.
Proof. split; vm_compute; reflexivity. Qed.

(** C36 (early_work_overwritten): the constructor starts the thread
    before its body stores the seed, in both source files.  The
    increments the thread makes in between are overwritten by the store:
    the counter of [b] goes 0, 1, 2, 3 and then back to the seed 2, so a
    counter is not non-decreasing over the construction of its object. *)
Theorem early_work_overwritten :
  counter_values 1 <$> run main_cpp sched_early_work state_init
  = Some (Some [0; 1; 2; 3; 2]%Z) ∧
  counter_values 1 <$> run main_seqcst_padding_cpp sched_early_work state_init
  = Some (Some [0; 1; 2; 3; 2]%Z).
Proof. split; vm_compute; reflexivity. Qed.

Lemma reachable_flag_one_shot_witness :
  flag_hist (cond (s_mem after_cas)) ∧
  cond (s_mem before_cas) `prefix_of` cond (s_mem after_cas) ∧
  (flag_set (cond (s_mem before_cas)) = true →
   flag_set (cond (s_mem after_cas)) = true).
Proof.
  apply (reachable_flag_one_shot main_seqcst_padding_cpp before_cas after_cas).
  - apply state_after_reachable. vm_compute. by eexists.
  - exists (t_main, latest). vm_compute. reflexivity.
Defined.

Lemma reachable_past_loop_witness :
  flag_set (cond (s_mem at_exit)) = true ∧
  seen_set (m_view (s_main at_exit)) = true.
Proof.
  apply (reachable_past_loop main_seqcst_padding_cpp at_exit).
  - apply state_after_reachable. vm_compute. by eexists.
  - vm_compute. reflexivity.
Defined.

Lemma reachable_worker_done_witness :
  flag_set (cond (s_mem at_exit)) = true ∧
  seen_set (w_view (worker_after main_seqcst_padding_cpp (sched_quiescent 1) 1))
  = true.
Proof.
  apply (reachable_worker_done main_seqcst_padding_cpp at_exit 1).
  - apply state_after_reachable. vm_compute. by eexists.
  - vm_compute. reflexivity.
  - vm_compute. reflexivity.
Defined.

Lemma padded_workers_defined_witness :
  w_pc (worker_after main_seqcst_padding_cpp sched_early_work 1) ≠ w_undefined ∧
  is_Some (cells (s_mem (state_after main_seqcst_padding_cpp sched_early_work)) !! 1).
Proof.
  apply (padded_workers_defined main_seqcst_padding_cpp).
  - reflexivity.
  - apply state_after_reachable. vm_compute. by eexists.
  - vm_compute. reflexivity.
Defined.
