(* ===== verification/Lifecycle.v ===== *)
(** * Lifecycle: threads from start to join, and the end of the loop

    The handle [m_thread] of an object is [joinable] from the step of the
    constructor that starts the thread to the destructor of the object,
    and [joined] after it; the destructor can take its step only when the
    thread has returned.  So the test [m_thread.joinable()] of [~Foo]
    (src/main.cpp lines 21-27) always holds when [main] evaluates it, and
    when [main] returns the three threads have returned and are joined.

    The second invariant is about the end of the loop of lines 99-117: once
    the compare-exchange loop has ended, [main] has seen the flag set, so
    the next evaluation of the outer condition reads [true], whichever
    message the relaxed load picks, and the loop is left. *)

From S2P Require Import Prelude Int32 Memory Foo StopFlag Worker Driver System.

(** ** Definitions *)

(** The object [o] is destroyed when [main] is at [pc]: [c], then [b],
    then [a]. *)
Definition destroyed (pc : main_pc) (o : nat) : bool :=
  match pc with
  | m_dtor o' => bool_decide (o' < o < length seeds)
  | m_exit => bool_decide (o < length seeds)
  | _ => false
  end.

(** The handle of object [o] when [main] is at [pc]. *)
Definition handle_at (v : variant) (pc : main_pc) (o : nat)
    : option thread_handle :=
  if started v pc o then Some (if destroyed pc o then joined else joinable)
  else None.

(** The thread of object [o] has returned from [do_thing] and has been
    joined. *)
Definition thread_joined (s : state) (o : nat) : Prop :=
  s_handles s !! o = Some joined ∧
  ∃ w, s_workers s !! o = Some w ∧ w_pc w = w_done.

(** The compare-exchange loop has ended. *)
Definition stop_ended (st : stop_state) : bool :=
  match s_pc st with
  | stop_done _ => true
  | _ => false
  end.

(** [main] goes from [pc] to [pc'] without constructing or destroying an
    object. *)
Definition plain_next (pc pc' : main_pc) : Prop :=
  in_ctor pc = false ∧ in_ctor pc' = false ∧
  (∀ o, destroyed pc' o = destroyed pc o) ∧
  (∀ o, pc' = m_dtor o → o < length seeds).

Record life_inv (v : variant) (s : state) : Prop := LifeInv {
  (** the handles are as construction and destruction have left them *)
  life_handles o : s_handles s !! o = handle_at v (m_pc (s_main s)) o;
  (** the thread of a destroyed object has returned *)
  life_joined o w :
    destroyed (m_pc (s_main s)) o = true → s_workers s !! o = Some w →
    w_pc w = w_done;
  (** [main] destroys existing objects only *)
  life_dtor o : m_pc (s_main s) = m_dtor o → o < length seeds;
  (** after the compare-exchange loop [main] has seen the flag set *)
  life_stop :
    stop_ended (stop (s_main s)) = true → seen_set (m_view (s_main s)) = true;
}.

(** ** The invariant is preserved *)

Section preservation.
Context (v : variant).
Implicit Types (s : state) (o : nat) (p : pick).

Lemma life_inv_init : life_inv v state_init.
Proof.
  split; try done. intros o. unfold handle_at.
  destruct (started v _ o) eqn:Hs; [|done].
  apply (inv_started _ _ (sys_inv_init v)) in Hs as [w Hw]. done.
Qed.

(** A step of a thread of an object: a thread that has returned takes no
    step. *)
Lemma worker_exec_life o p s s' :
  life_inv v s → worker_exec v o p s = Some s' → life_inv v s'.
Proof.
  intros [Hh Hj Hd Hs] (w & Hw & ([w' mem'] & Hstep & [= <-])%bind_Some)%bind_Some.
  split; simpl; [done| |done|done].
  intros o' w0 Hdes [[<- <-]|[_ ?]]%lookup_insert_Some; [|by eapply Hj].
  pose proof (Hj _ _ Hdes Hw) as Hdone.
  destruct (do_thing_step_pc v _ _ _ _ _ Hstep); congruence.
Qed.

(** Outside the constructors and the destructors the handles and the
    threads stay as they are. *)
Lemma life_inv_main s mem' ms' :
  life_inv v s →
  in_ctor (m_pc (s_main s)) = false → in_ctor (m_pc ms') = false →
  (∀ o, destroyed (m_pc ms') o = destroyed (m_pc (s_main s)) o) →
  (∀ o, m_pc ms' = m_dtor o → o < length seeds) →
  (stop_ended (stop ms') = true → seen_set (m_view ms') = true) →
  life_inv v (State mem' ms' (s_workers s) (s_handles s)).
Proof.
  intros [Hh Hj Hd Hs] Hc Hc' Hdes Hd' Hs'.
  split; simpl; [|intros o w; rewrite Hdes; apply Hj|done..].
  intros o. rewrite Hh. unfold handle_at, started. rewrite Hdes.
  by destruct (m_pc ms'), (m_pc (s_main s)).
Qed.

Ltac plain_next_solve :=
  split_and!; [done..| |]; intros ?; simpl; try done;
  try (intros [= <-]); try case_bool_decide; simpl in *; try done; lia.

Lemma plain_next_sleep n : plain_next (m_sleep n) (after_sleep n).
Proof. destruct n; plain_next_solve. Qed.

Lemma plain_next_ckp c o : plain_next (m_ckp c o) (after_ckp c o).
Proof.
  unfold after_ckp. case_decide; [plain_next_solve|].
  destruct c as [|[|c]]; plain_next_solve.
Qed.

Lemma plain_next_poll (b : bool) : plain_next m_poll (if b then m_ckp 1 0 else m_cnt).
Proof. destruct b; plain_next_solve. Qed.

Lemma plain_next_stop st : plain_next m_stop (after_stop st).
Proof. unfold after_stop. destruct (s_pc st); plain_next_solve. Qed.

Lemma life_plain s mem' pc' cur' ck' cn' st' :
  life_inv v s → plain_next (m_pc (s_main s)) pc' →
  view_le (m_view (s_main s)) cur' →
  (stop_ended st' = true →
   stop_ended (stop (s_main s)) = true ∨ seen_set cur' = true) →
  life_inv v (State mem' (MainState pc' cur' ck' cn' st') (s_workers s) (s_handles s)).
Proof.
  intros Hl (Hc & Hc' & Hdes & Hd) Hle Hst.
  apply life_inv_main; simpl; [done..|].
  intros [Hs|?]%Hst; [|done]. eapply seen_set_mono; [done|]. by apply Hl.
Qed.

(** *** The constructors *)

Lemma destroyed_after_ctor o k o' : destroyed (after_ctor_step v o k) o' = false.
Proof. unfold after_ctor_step. by repeat case_decide. Qed.

(** The handles after a step of the constructor of object [o]: the step
    that starts the thread makes the handle of [o] joinable. *)
Lemma handle_at_ctor_step o k c o' :
  o < length seeds → ctor_steps v !! k = Some c →
  handle_at v (after_ctor_step v o k) o'
  = if decide (c = init_m_thread ∧ o' = o) then Some joinable
    else handle_at v (m_ctor o k) o'.
Proof.
  intros Ho Hk. unfold handle_at, started.
  rewrite (ctor_reached_step v o k c) by done. rewrite destroyed_after_ctor.
  simpl destroyed. case_decide as Hd.
  - destruct Hd as [-> ->]. rewrite !bool_decide_eq_true_2 by done.
    by rewrite orb_true_r.
  - rewrite (andb_comm (bool_decide (o' = o))), <-bool_decide_and.
    rewrite (bool_decide_eq_false_2 (_ ∧ _)) by (intros []; auto).
    by rewrite orb_false_r.
Qed.

Lemma life_inv_ctor s s' o k :
  life_inv v s → m_pc (s_main s) = m_ctor o k →
  m_pc (s_main s') = after_ctor_step v o k →
  (∀ o', s_handles s' !! o' = handle_at v (after_ctor_step v o k) o') →
  stop (s_main s') = stop (s_main s) →
  view_le (m_view (s_main s)) (m_view (s_main s')) →
  life_inv v s'.
Proof.
  intros [Hh Hj Hd Hs] Hpc Hpc' Hh' Hst Hle. split; rewrite ?Hpc'.
  - done.
  - intros o' w. by rewrite destroyed_after_ctor.
  - intros o'. unfold after_ctor_step. by repeat case_decide.
  - rewrite Hst. intros ?%Hs. by eapply seen_set_mono.
Qed.

Lemma ctor_step_exec_life o k c s s' :
  sys_inv v s → life_inv v s →
  m_pc (s_main s) = m_ctor o k → ctor_steps v !! k = Some c →
  ctor_step_exec v o c (after_ctor_step v o k) s = Some s' → life_inv v s'.
Proof.
  intros Hinv Hl Hpc Hk Hstep.
  pose proof (mok_pc _ _ _ (inv_main _ _ Hinv)) as Hwf. rewrite Hpc in Hwf.
  destruct Hwf as [Ho _].
  pose proof (λ o', handle_at_ctor_step o k c o' Ho Hk) as Hat.
  pose proof (life_handles _ _ Hl) as Hh. rewrite Hpc in Hh.
  destruct c; simpl in Hstep.
  - injection Hstep as <-. apply (life_inv_ctor s _ o k); simpl; try done.
    intros o'. rewrite Hat. destruct (decide (_ ∧ o' = o)) as [[_ ->]|Hd].
    + apply lookup_insert_eq.
    + rewrite lookup_insert_ne by (intros ->; auto). apply Hh.
  - injection Hstep as <-.
    apply (life_inv_ctor s _ o k); simpl; try done; [|apply view_le_vset].
    intros o'. rewrite Hat, decide_False by (by intros []). apply Hh.
  - apply bind_Some in Hstep as (i & _ & ([mem' cur'] & Hcb & [= <-])%bind_Some).
    apply Foo_ctor_body_Some in Hcb as (h & _ & _ & ->).
    apply (life_inv_ctor s _ o k); simpl; try done; [|apply view_le_vset].
    intros o'. rewrite Hat, decide_False by (by intros []). apply Hh.
Qed.

(** *** The destructors *)

Lemma destroyed_after_dtor o o' :
  o < length seeds →
  destroyed (after_dtor o) o' = destroyed (m_dtor o) o' || bool_decide (o' = o).
Proof.
  intros Ho. destruct o; simpl in *; repeat case_bool_decide; simpl; try done; lia.
Qed.

(** After the constructors the three threads are started. *)
Lemma started_after_ctors pc o :
  in_ctor pc = false → started v pc o = bool_decide (o < length seeds).
Proof. by destruct pc. Qed.

(** At the destructor of an object the handle is joinable. *)
Lemma handle_at_dtor o :
  o < length seeds → handle_at v (m_dtor o) o = Some joinable.
Proof.
  intros Ho. unfold handle_at, started. simpl in *.
  rewrite bool_decide_eq_true_2, bool_decide_eq_false_2 by lia. done.
Qed.

Lemma dtor_join_life o w s :
  life_inv v s → m_pc (s_main s) = m_dtor o →
  s_workers s !! o = Some w → w_pc w = w_done →
  life_inv v
    (State (s_mem s)
       (MainState (after_dtor o) (vjoin (m_view (s_main s)) (w_view w))
          (ckp (s_main s)) (cnt (s_main s)) (stop (s_main s)))
       (s_workers s) (<[o := joined]> (s_handles s))).
Proof.
  intros [Hh Hj Hd Hs] Hpc Hw Hdone. pose proof (Hd _ Hpc) as Ho.
  rewrite Hpc in *. split; simpl.
  - intros o'. unfold handle_at. rewrite destroyed_after_dtor by done.
    rewrite (started_after_ctors (after_dtor o)) by by destruct o.
    destruct (decide (o' = o)) as [->|Hne].
    + rewrite lookup_insert_eq, !bool_decide_eq_true_2 by done.
      by rewrite orb_true_r.
    + rewrite lookup_insert_ne, (bool_decide_eq_false_2 (o' = o)), orb_false_r by done.
      rewrite Hh. unfold handle_at. by rewrite (started_after_ctors (m_dtor o)).
  - intros o' w'. rewrite destroyed_after_dtor by done.
    intros [?|Heq%bool_decide_eq_true]%orb_true_iff ?; [by eapply Hj|].
    subst o'. congruence.
  - intros o' Ho'. destruct o; simplify_eq/=. lia.
  - intros ?%Hs. eapply seen_set_mono; [apply view_le_vjoin_l|done].
Qed.

(** *** Every step *)

Lemma main_trans_life p s s' :
  sys_inv v s → life_inv v s → main_trans v p s s' → life_inv v s'.
Proof.
  intros Hinv Hl.
  destruct 1 as [o k c s' Hpc Hc Hstep|n Hpc|c o x cur' Hpc Hc|b cur' Hpc Hld
    |x cur' Hpc Hc Hx|x cur' Hpc Hc Hx|st' h' cur' Hpc Hts|mem' cur' Hpc Hdw
    |Hpc Hdw|o w Hpc Hj Hw Hd|o Hpc Hj].
  - by eapply ctor_step_exec_life.
  - apply life_plain; rewrite ?Hpc; auto using plain_next_sleep. done.
  - apply life_plain; rewrite ?Hpc; eauto using plain_next_ckp, count_view.
  - apply life_plain; rewrite ?Hpc; auto using plain_next_poll.
    by eapply atomic_load_view.
  - apply life_plain; rewrite ?Hpc; eauto using count_view; [by split_and!|done].
  - apply life_plain; rewrite ?Hpc; eauto using count_view. by split_and!.
  - destruct (try_stop_step_action v _ _ _ _ _ _ _ (inv_mem _ _ Hinv)
      (mok_closed _ _ _ (inv_main _ _ Hinv)) (mok_stop _ _ _ (inv_main _ _ Hinv)) Hts)
      as ([_ _ _ Hle] & _ & Hseen).
    apply life_plain; rewrite ?Hpc; auto using plain_next_stop.
    unfold stop_ended. destruct (s_pc st') eqn:Hst; eauto; done.
  - destruct (do_work_mem _ _ _ _ _ _ Hdw) as (_ & _ & _ & Hle).
    apply life_plain; rewrite ?Hpc; auto. by split_and!.
  - apply life_plain; rewrite ?Hpc; auto; [by split_and!|done].
  - by apply dtor_join_life.
  - pose proof (life_dtor _ _ Hl _ Hpc) as Ho.
    rewrite (life_handles _ _ Hl), Hpc, handle_at_dtor in Hj by done. done.
Qed.

Lemma exec_life l s s' :
  sys_inv v s → life_inv v s → exec v l s = Some s' → life_inv v s'.
Proof.
  intros Hinv Hl. destruct l as [[|o] p]; unfold exec; cbn [fst snd].
  - intros ?%main_step_sound. by eapply main_trans_life.
  - by apply worker_exec_life.
Qed.

Lemma reachable_life s : reachable v s → sys_inv v s ∧ life_inv v s.
Proof.
  intros Hr.
  eapply (rtc_invariant (step v) (λ s, sys_inv v s ∧ life_inv v s)); [|exact Hr|].
  - intros s1 s2 [Hinv Hl] [l Hex]. split; [by eapply exec_inv|by eapply exec_life].
  - split; [apply sys_inv_init|apply life_inv_init].
Qed.

End preservation.

(** ** Properties *)

Section properties.
Context (v : variant).
Implicit Types (s : state) (o : nat) (p : pick).

(** C17 (exit_all_joined): no thread outlives [main].  In every reachable
    state in which [main] has returned, the thread of each of the three
    objects has returned from [do_thing] and has been joined. *)
Theorem exit_all_joined s o :
  reachable v s → m_pc (s_main s) = m_exit → o < length seeds →
  thread_joined s o.
Proof.
  intros [Hinv Hl]%reachable_life Hpc Ho.
  assert (started v m_exit o = true) as Hst by by apply bool_decide_eq_true.
  assert (destroyed m_exit o = true) as Hdes by by apply bool_decide_eq_true.
  split.
  - rewrite (life_handles _ _ Hl), Hpc. unfold handle_at. by rewrite Hst, Hdes.
  - rewrite <-Hpc in Hst, Hdes. apply (inv_started _ _ Hinv) in Hst as [w Hw].
    exists w. split; [done|]. by eapply (life_joined _ _ Hl).
Qed.

(** C18 (dtor_joins): the destructor always joins, and only a thread that
    has returned.  When [main] reaches [~Foo] of an object the test
    [m_thread.joinable()] holds, and the destructor completes only in a
    state where [do_thing] of that object has returned; the thread is
    joined afterwards. *)
Theorem dtor_joins s o p s' :
  reachable v s → m_pc (s_main s) = m_dtor o →
  main_step v p s = Some s' →
  Foo_dtor_joins (default not_started (s_handles s !! o)) = true ∧
  (∃ w, s_workers s !! o = Some w ∧ w_pc w = w_done) ∧
  thread_joined s' o.
Proof.
  intros [Hinv Hl]%reachable_life Hpc Hstep.
  pose proof (life_dtor _ _ Hl _ Hpc) as Ho.
  assert (s_handles s !! o = Some joinable) as Hh.
  { by rewrite (life_handles _ _ Hl), Hpc, handle_at_dtor. }
  unfold main_step, dtor_exec in Hstep. rewrite Hpc, Hh in Hstep. simpl in Hstep.
  apply bind_Some in Hstep as (w & Hw & Hstep). case_decide; [|done].
  injection Hstep as <-. rewrite Hh. simpl.
  split_and!; [done|by exists w|]. split; [apply lookup_insert_eq|by exists w].
Qed.

(** C21 (poll_after_stop_exits): the outer loop ends as soon as the
    compare-exchange loop has ended.  In every reachable state in which
    [main] is at the condition of the outer [while] after the loop of lines
    106-115, the load can be taken, and whichever message the relaxed load
    picks it reads [true]: [main] goes on to the second checkpoint. *)
Theorem poll_after_stop_exits s :
  reachable v s → m_pc (s_main s) = m_poll →
  stop_ended (stop (s_main s)) = true →
  is_Some (main_step v latest s) ∧
  ∀ p s', main_step v p s = Some s' → m_pc (s_main s') = m_ckp 1 0.
Proof.
  intros [Hinv Hl]%reachable_life Hpc Hend.
  pose proof (life_stop _ _ Hl Hend) as Hseen.
  destruct (inv_mem _ _ Hinv) as [Hwf Hf]. unfold main_step. rewrite Hpc. split.
  - destruct (atomic_load_latest m_cond (o_main_poll v) (cond (s_mem s))
      (m_view (s_main s))) as (m & _ & ->);
      [by apply flag_hist_ne|apply view_closed_cond, Hinv|done].
  - intros p s' ([b cur'] & Hld & [= <-])%bind_Some.
    by destruct (seen_set_load _ _ _ _ _ _ Hf Hseen Hld) as [-> _].
Qed.

End properties.

(** ** Witnesses *)

(** src/main_seqcst_padding.cpp at the destructor of [c]. *)
Definition at_dtor : state :=
  state_after main_seqcst_padding_cpp (take 31 (sched_quiescent 1)).

Lemma exit_all_joined_witness : thread_joined at_exit 1.
Proof.
  apply (exit_all_joined main_seqcst_padding_cpp at_exit 1).
  - apply state_after_reachable. vm_compute. by eexists.
  - vm_compute. reflexivity.
  - vm_compute. lia.
Defined.

Lemma dtor_joins_witness :
  Foo_dtor_joins (default not_started (s_handles at_dtor !! 2)) = true ∧
  (∃ w, s_workers at_dtor !! 2 = Some w ∧ w_pc w = w_done) ∧
  thread_joined (state_after main_seqcst_padding_cpp (take 32 (sched_quiescent 1))) 2.
Proof.
  apply (dtor_joins main_seqcst_padding_cpp at_dtor 2 latest).
  - apply state_after_reachable. vm_compute. by eexists.
  - vm_compute. reflexivity.
  - vm_compute. reflexivity.
Defined.

Lemma poll_after_stop_exits_witness :
  is_Some (main_step main_seqcst_padding_cpp latest after_cas) ∧
  ∀ p s', main_step main_seqcst_padding_cpp p after_cas = Some s' →
          m_pc (s_main s') = m_ckp 1 0.
Proof.
  apply (poll_after_stop_exits main_seqcst_padding_cpp after_cas).
  - apply state_after_reachable. vm_compute. by eexists.
  - vm_compute. reflexivity.
  - vm_compute. reflexivity.
Defined.
