(* ===== verification/Once.v ===== *)
(** * Once: the flag is written once, by [main]

    The loop of src/main.cpp lines 106-115 is written for a flag that
    several threads may try to set: [finish_work] holds what the
    compare-exchange has read, and the test [&& !finish_work] leaves the
    loop when another thread has set the flag in the meantime.  In this
    program only [main] runs the loop, and it reaches the loop only while
    the flag is unset.  So the flag is written exactly once: its history is
    [false] at first and [false; true] from the success of the
    compare-exchange on; [finish_work] never holds [true]; the loop is
    never left by the test on [finish_work]; and once the flag is set
    [main] is at the condition of the outer loop, which it leaves, or past
    it.

    The invariant is [once_inv]; it is preserved by every step of every
    thread. *)

From S2P Require Import Prelude Int32 Memory Foo StopFlag Worker Driver System.

(** ** Definitions *)

(** [main] is at the condition of the outer loop, or has left the loop. *)
Definition at_or_past_loop (pc : main_pc) : bool :=
  match pc with
  | m_poll => true
  | _ => past_loop pc
  end.

(** The flag has been written at most once. *)
Definition written_once (h : history bool) : Prop :=
  hvals h = [false] ∨ hvals h = [false; true].

(** The loop has been left, or would be left, by the test on
    [finish_work]: [finish_work] holds [true]. *)
Definition short_cut (st : stop_state) : bool :=
  finish_work st || bool_decide (s_pc st = stop_done exit_finish_work).

Record once_inv (s : state) : Prop := OnceInv {
  once_len : length (cond (s_mem s)) ≤ 2;
  once_fw : finish_work (stop (s_main s)) = false;
  once_exit : s_pc (stop (s_main s)) ≠ stop_done exit_finish_work;
  once_set :
    flag_set (cond (s_mem s)) = true →
    seen_set (m_view (s_main s)) = true ∧
    at_or_past_loop (m_pc (s_main s)) = true;
}.

#[export] Instance written_once_dec h : Decision (written_once h).
Proof. unfold written_once. apply _. Defined.

(** ** The invariant is preserved *)

Section preservation.
Context (v : variant).
Implicit Types (s : state) (o : nat) (p : pick).

Lemma once_inv_init : once_inv state_init.
Proof. split; simpl; [lia|done..]. Qed.

(** A step that does not write the flag. *)
Lemma once_plain s s' :
  once_inv s → cond (s_mem s') = cond (s_mem s) →
  view_le (m_view (s_main s)) (m_view (s_main s')) →
  finish_work (stop (s_main s')) = false →
  s_pc (stop (s_main s')) ≠ stop_done exit_finish_work →
  (flag_set (cond (s_mem s)) = true →
   seen_set (m_view (s_main s)) = true →
   at_or_past_loop (m_pc (s_main s)) = true →
   at_or_past_loop (m_pc (s_main s')) = true) →
  once_inv s'.
Proof.
  intros [Hlen Hfw Hex Hset] Hc Hle Hfw' Hex' Hpc'.
  split; rewrite ?Hc; try done.
  intros Hs. destruct (Hset Hs) as [Hseen Hpc].
  split; [by eapply seen_set_mono|auto].
Qed.

Lemma worker_exec_once o p s s' :
  once_inv s → worker_exec v o p s = Some s' → once_inv s'.
Proof.
  intros Ho (w & Hw & ([w' mem'] & Hstep & [= <-])%bind_Some)%bind_Some.
  apply (once_plain s); simpl; try done; try apply Ho.
  by eapply do_thing_step_cond.
Qed.

(** The steps of the compare-exchange loop. *)
Lemma main_stop_once p s st' h' cur' :
  sys_inv v s → once_inv s → m_pc (s_main s) = m_stop →
  try_stop_step v p (stop (s_main s)) (cond (s_mem s)) (m_view (s_main s))
  = Some (st', h', cur') →
  once_inv
    (State (set_cond h' (s_mem s))
       (MainState (after_stop st') cur' (ckp (s_main s)) (cnt (s_main s)) st')
       (s_workers s) (s_handles s)).
Proof.
  intros Hinv Ho Hpc Hts. destruct (inv_mem _ _ Hinv) as [_ Hf].
  assert (flag_set (cond (s_mem s)) = false) as Hunset.
  { destruct (flag_set (cond (s_mem s))) eqn:Hs; [|done].
    destruct (once_set _ Ho Hs) as [_ Hat]. by rewrite Hpc in Hat. }
  destruct (try_stop_step_unset v _ _ _ _ _ _ _ Hf Hunset (once_fw _ Ho) Hts)
    as (Hfw' & [[-> Hnd]|(Hlen & Hd & Hseen)]).
  - apply (once_plain s); simpl; try done.
    + by eapply try_stop_step_view.
    + congruence.
  - split; simpl; [lia|done|by rewrite Hd|].
    intros _. unfold after_stop. by rewrite Hd.
Qed.

(** Every step of [main]. *)
Lemma main_trans_once p s s' :
  sys_inv v s → once_inv s → main_trans v p s s' → once_inv s'.
Proof.
  intros Hinv Ho Ht. pose proof (main_trans_view v p s s' Ht) as Hle.
  destruct (main_step_cond v p s s' (main_step_complete v p s s' Ht)) as [_ Hc].
  destruct Ht as [o k c s' Hpc Hc0 Hstep|n Hpc|c o x cur' Hpc Hc0|b cur' Hpc Hld
    |x cur' Hpc Hc0 Hx|x cur' Hpc Hc0 Hx|st' h' cur' Hpc Hts|mem' cur' Hpc Hdw
    |Hpc Hdw|o w Hpc Hj Hw Hd|o Hpc Hj];
    try (by eapply main_stop_once);
    (apply (once_plain s); [done|apply Hc; congruence|done|..]);
    rewrite ?(ctor_step_exec_stop v _ _ _ _ _ Hstep),
      ?(ctor_step_exec_pc v _ _ _ _ _ Hstep); simpl;
    try apply Ho; try done; rewrite Hpc; try done; intros Hset Hseen.
  - by destruct n.
  - destruct c as [|c]; [done|]. intros _. unfold after_ckp.
    case_decide; [done|]. by destruct c.
  - destruct (inv_mem _ _ Hinv) as [_ Hf].
    by destruct (seen_set_load _ _ _ _ _ _ Hf Hseen Hld) as [-> _].
  - destruct (do_work_is_Some v 0 (s_mem s) (m_view (s_main s))) as [? Hdw'];
      [apply Hinv|apply (inv_cells _ _ Hinv); by rewrite Hpc|congruence].
  - by destruct o.
  - by destruct o.
Qed.

Lemma exec_once l s s' :
  sys_inv v s → once_inv s → exec v l s = Some s' → once_inv s'.
Proof.
  intros Hinv Ho. destruct l as [[|o] p]; unfold exec; cbn [fst snd].
  - intros ?%main_step_sound. by eapply main_trans_once.
  - by apply worker_exec_once.
Qed.

Lemma reachable_once s : reachable v s → once_inv s.
Proof.
  intros Hr. cut (sys_inv v s ∧ once_inv s); [by intros []|].
  eapply (rtc_invariant (step v) (λ s, sys_inv v s ∧ once_inv s)); [|exact Hr|].
  - intros s1 s2 [Hinv Ho] [l Hex]. split; [by eapply exec_inv|by eapply exec_once].
  - split; [apply sys_inv_init|apply once_inv_init].
Qed.

End preservation.

(** ** Properties *)

Section properties.
Context (v : variant).
Implicit Types (s : state).

(** C15 (reachable_written_once): the flag is written once.  In every
    reachable state the history of the flag is [false], or [false; true];
    and when it is set [main] has seen it set and is at the condition of
    the outer loop or past the loop: no second compare-exchange is ever
    attempted. *)
Theorem reachable_written_once s :
  reachable v s →
  written_once (cond (s_mem s)) ∧
  (flag_set (cond (s_mem s)) = true →
   seen_set (m_view (s_main s)) = true ∧
   at_or_past_loop (m_pc (s_main s)) = true).
Proof.
  intros Hr. destruct (reachable_once v s Hr) as [Hlen _ _ Hset].
  split; [|done].
  destruct (inv_mem _ _ (reachable_inv v s Hr)) as [_ [k Hk]].
  assert (length (hvals (cond (s_mem s))) = S k) as Hl.
  { rewrite Hk. simpl. by rewrite length_replicate. }
  rewrite hvals_length in Hl. unfold written_once. rewrite Hk.
  destruct k as [|[|k]]; [by left|by right|lia].
Qed.

(** C22 (reachable_no_short_cut): the test [&& !finish_work] never decides.
    In every reachable state [finish_work] is [false] and the
    compare-exchange loop has not been left through the test on
    [finish_work]: it ends only by the success of the compare-exchange. *)
Theorem reachable_no_short_cut s :
  reachable v s → short_cut (stop (s_main s)) = false.
Proof.
  intros [_ Hfw Hex _]%(reachable_once v). unfold short_cut.
  by rewrite Hfw, bool_decide_eq_false_2.
Qed.

End properties.

(** ** Witnesses *)

Lemma reachable_written_once_witness :
  written_once (cond (s_mem after_cas)) ∧
  (flag_set (cond (s_mem after_cas)) = true →
   seen_set (m_view (s_main after_cas)) = true ∧
   at_or_past_loop (m_pc (s_main after_cas)) = true).
Proof.
  apply (reachable_written_once main_seqcst_padding_cpp after_cas).
  apply state_after_reachable. vm_compute. by eexists.
Defined.

Lemma reachable_no_short_cut_witness :
  short_cut (stop (s_main after_cas)) = false.
Proof.
  apply (reachable_no_short_cut main_seqcst_padding_cpp after_cas).
  apply state_after_reachable. vm_compute. by eexists.
Defined.
