(* ===== verification/Verdict.v ===== *)
(** * Verdict: what [main] prints about a stopped object

    [main] samples the counters after the flag is set ([ckp2]), calls
    [a.do_work()] itself, samples again ([ckp3]) and prints whether
    [ckp3_a == ckp2_a + 1], [ckp3_b == ckp2_b] and [ckp3_c == ckp2_c]
    (src/main.cpp lines 122-136).

    With [memory_order_seq_cst] on [count] (src/main_seqcst_padding.cpp) a
    sample is the newest value of the counter.  If the thread of an object
    has returned when [main] starts the second checkpoint, the counter of
    the object changes no more, except for the one increment [main] makes
    on [a]: the comparison for that object prints [true].  The proof is an
    invariant ([ckp_inv]) that relates the samples taken so far to the
    newest value of the counter, at each point of [main] from the second
    checkpoint on.

    With [memory_order_acquire] on [count] (src/main.cpp) a sample may be a
    value that is no longer the newest, and the comparison for [a] can
    print [false] although every thread had returned before the second
    checkpoint ([acquire_verdict_stale]). *)

From S2P Require Import Prelude Int32 Memory Foo StopFlag Worker Driver System.

(** ** Definitions *)

(** The newest value of the counter of object [o]. *)
Definition newest (mem : memory) (o : nat) : option Z :=
  h ← cells mem !! o; last (hvals h).

(** What the counter of object [o] gains between the second and the
    third checkpoint, when its thread has returned: the increment of line
    127, on [a] only. *)
Definition bump (o : nat) (x : Z) : Z :=
  if decide (o = 0) then int_add x 1 else x.

(** The thread of object [o] has returned. *)
Definition stopped (o : nat) (s : state) : Prop :=
  ∃ w, s_workers s !! o = Some w ∧ w_pc w = w_done.

(** The second sample of the counter of [o] is a value of the type
    [int]. *)
Definition sampled_int (ck : gmap (nat * nat) Z) (o : nat) : Prop :=
  ∀ x, ck !! (1, o) = Some x → in_int x.

(** The samples of the counter of [o] taken so far and its newest value,
    from the second checkpoint on. *)
Definition ckp_inv (o : nat) (s : state) : Prop :=
  let ck := ckp (s_main s) in
  let n := newest (s_mem s) o in
  match m_pc (s_main s) with
  | m_ckp 1 o' => o < o' → ck !! (1, o) = n
  | m_extra => ck !! (1, o) = n
  | m_sleep (S _) => sampled_int ck o ∧ bump o <$> ck !! (1, o) = n
  | m_ckp 2 o' =>
      sampled_int ck o ∧ bump o <$> ck !! (1, o) = n ∧
      (o < o' → ck !! (2, o) = n)
  | m_dtor _ | m_exit =>
      ∃ x, in_int x ∧ ck !! (1, o) = Some x ∧ ck !! (2, o) = Some (bump o x)
  | m_undefined => True
  | _ => False
  end.

(** Every value a counter has held is a value of the type [int]. *)
Definition cells_int (mem : memory) : Prop :=
  ∀ o h, cells mem !! o = Some h → Forall in_int (hvals h).

(** Every thread has returned. *)
Definition all_stopped (s : state) : bool :=
  bool_decide (map_Forall (λ _ w, w_pc w = w_done) (s_workers s)).

Record verdict_inv (v : variant) (o : nat) (s : state) : Prop := VerdictInv {
  vi_sys : sys_inv v s;
  vi_obj : o < length seeds;
  vi_stopped : stopped o s;
  vi_ckp : ckp_inv o s;
  vi_int : cells_int (s_mem s);
}.

(** The schedule of [acquire_verdict_stale]: the thread of [a] makes one
    more increment while [main] sets the flag, the three threads return,
    and the second sample of [a] reads the message [main] had read at line
    101, which is no longer the newest. *)
Definition sched_stale : list label :=
  sched_ctors
  ++ steps t_main 4
  ++ concat (replicate 9 (steps (t_worker 0) 2 ++ steps t_main 2))
  ++ [(t_worker 0, latest)] ++ steps t_main 3 ++ [(t_worker 0, latest)]
  ++ sched_stop
  ++ [(t_main, at_ts 10)] ++ steps t_main 2
  ++ sched_ckp3 ++ sched_dtors.

(** ** The newest value *)

Section newest.
Context (v : variant).
Implicit Types (mem : memory) (o : nat) (p : pick).

Lemma newest_is_Some mem o :
  mem_wf mem → is_Some (cells mem !! o) → is_Some (newest mem o).
Proof.
  intros Hwf [h Ho]. unfold newest. rewrite Ho. simpl. rewrite hvals_last.
  destruct (cell_wf _ Hwf _ _ Ho) as [Hne _].
  destruct (last_is_Some h Hne) as [m ->]. by eexists.
Qed.

(** A [seq_cst] sample is the newest value. *)
Lemma newest_count o p mem cur x cur' :
  o_count v = memory_order_seq_cst →
  count v o p mem cur = Some (x, cur') → newest mem o = Some x.
Proof.
  intros Hsc (h & Ho & Hld)%count_Some. unfold newest. rewrite Ho. simpl.
  rewrite Hsc in Hld. by eapply atomic_load_seq_cst.
Qed.

(** [do_work] adds one to the newest value of its counter and leaves the
    others. *)
Lemma newest_do_work o mem cur mem' cur' o' :
  do_work v o mem cur = Some (mem', cur') →
  newest mem' o' = (if decide (o' = o) then λ x, int_add x 1 else id) <$> newest mem o'.
Proof.
  intros Hdw. case_decide as Ho; [subst o'|].
  - apply do_work_Some in Hdw as (h & x & h' & Hh & Hfa & ->).
    destruct (atomic_rmw_hvals _ _ _ _ _ _ _ _ Hfa) as [Hx Hv].
    unfold newest. simpl. rewrite lookup_insert_eq, Hh. simpl.
    by rewrite Hv, last_snoc, Hx.
  - destruct (do_work_mem _ _ _ _ _ _ Hdw) as (_ & Hother & _).
    unfold newest. rewrite (Hother _ Ho). by rewrite option_fmap_id.
Qed.

(** A step of the thread of another object leaves the counter as it
    is. *)
Lemma newest_do_thing_step o p w mem w' mem' o' :
  o' ≠ o → do_thing_step v o p w mem = Some (w', mem') →
  newest mem' o' = newest mem o'.
Proof.
  intros Hne Hstep.
  destruct (do_thing_step_pc v _ _ _ _ _ Hstep) as [Hpc|Hpc].
  - by apply (do_thing_step_check v _ _ _ _ _ _ Hpc) in Hstep as (_ & _ & _ & -> & _).
  - apply (do_thing_step_work v _ _ _ _ _ _ Hpc) in Hstep
      as [(cur' & Hdw & _)|(_ & -> & _)]; [|done].
    rewrite (newest_do_work _ _ _ _ _ o' Hdw), decide_False by done.
    by rewrite option_fmap_id.
Qed.

(** *** The values are in range *)

Lemma cells_int_set_cell o h mem :
  cells_int mem → Forall in_int (hvals h) → cells_int (set_cell o h mem).
Proof.
  intros Hint Hh o' h'. simpl.
  intros [[<- <-]|[_ ?]]%lookup_insert_Some; [done|by eapply Hint].
Qed.

Lemma cells_int_newest mem o x : cells_int mem → newest mem o = Some x → in_int x.
Proof.
  intros Hint (h & Ho & Hl)%bind_Some. apply last_Some_elem_of in Hl.
  by eapply (proj1 (Forall_forall _ _) (Hint _ _ Ho)).
Qed.

Lemma do_work_cells_int o mem cur mem' cur' :
  cells_int mem → do_work v o mem cur = Some (mem', cur') → cells_int mem'.
Proof.
  intros Hint (h & x & h' & Ho & Hfa & ->)%do_work_Some.
  destruct (atomic_rmw_hvals _ _ _ _ _ _ _ _ Hfa) as [_ Hv].
  apply cells_int_set_cell; [done|]. rewrite Hv.
  apply Forall_app. split; [by eapply Hint|]. apply Forall_singleton, int_add_range.
Qed.

Lemma do_thing_step_cells_int o p w mem w' mem' :
  cells_int mem → do_thing_step v o p w mem = Some (w', mem') → cells_int mem'.
Proof.
  intros Hint Hstep. destruct (do_thing_step_pc v _ _ _ _ _ Hstep) as [Hpc|Hpc].
  - by apply (do_thing_step_check v _ _ _ _ _ _ Hpc) in Hstep as (_ & _ & _ & -> & _).
  - apply (do_thing_step_work v _ _ _ _ _ _ Hpc) in Hstep
      as [(cur' & Hdw & _)|(_ & -> & _)]; [|done].
    by eapply do_work_cells_int.
Qed.

Lemma ctor_step_exec_cells_int o c pc' s s' :
  cells_int (s_mem s) → ctor_step_exec v o c pc' s = Some s' →
  cells_int (s_mem s').
Proof.
  intros Hint. destruct c; simpl; [by intros [= <-]| |].
  - intros [= <-]. simpl. apply cells_int_set_cell; [done|].
    apply Forall_singleton. compute_done.
  - intros (i & Hi & ([mem' cur'] & Hcb & [= <-])%bind_Some)%bind_Some.
    apply Foo_ctor_body_Some in Hcb as (h & Ho & -> & _). simpl.
    apply cells_int_set_cell; [done|]. unfold atomic_store. simpl.
    rewrite hvals_snoc. apply Forall_app. split; [by eapply Hint|].
    apply Forall_singleton. simpl.
    assert (Forall in_int seeds) as Hs by compute_done.
    by eapply (proj1 (Forall_lookup _ _) Hs).
Qed.

Lemma main_trans_cells_int p s s' :
  cells_int (s_mem s) → main_trans v p s s' → cells_int (s_mem s').
Proof.
  intros Hint. destruct 1; simpl; try done.
  - by eapply ctor_step_exec_cells_int.
  - by eapply do_work_cells_int.
Qed.

End newest.

(** ** The invariant is preserved *)

Section preservation.
Context (v : variant) (Hsc : o_count v = memory_order_seq_cst).
Implicit Types (s : state) (o : nat) (p : pick).

(** A sample of object [o'] is the newest value of its counter, and the
    sample of no other object. *)
Lemma ckp_sample (c o' : nat) (x : Z) (ck : gmap (nat * nat) Z) mem o cur cur' p :
  count v o' p mem cur = Some (x, cur') → o < length seeds →
  (o < o' → ck !! (c, o) = newest mem o) →
  o < S o' ∨ ¬ S o' < length seeds →
  <[(c, o') := x]> ck !! (c, o) = newest mem o.
Proof.
  intros Hc Ho Hlt Hle. destruct (decide (o = o')) as [->|Hne].
  - rewrite lookup_insert_eq. symmetry. by eapply newest_count.
  - rewrite lookup_insert_ne by congruence. apply Hlt. simpl in *. lia.
Qed.

Lemma ckp_inv_ckp c o' x cur' p s o :
  sys_inv v s → o < length seeds → ckp_inv o s →
  m_pc (s_main s) = m_ckp c o' →
  count v o' p (s_mem s) (m_view (s_main s)) = Some (x, cur') →
  ckp_inv o
    (set_main (MainState (after_ckp c o') cur' (<[(c, o') := x]> (ckp (s_main s)))
                 (cnt (s_main s)) (stop (s_main s))) s).
Proof.
  intros Hinv Ho Hck Hpc Hc. unfold ckp_inv in *. rewrite Hpc in Hck.
  cbn [s_main s_mem set_main m_pc ckp]. unfold after_ckp.
  destruct c as [|[|[|c]]]; try done.
  - case_decide; [intros ?|]; eapply ckp_sample; eauto.
  - destruct Hck as (H0 & H1 & H2). unfold sampled_int in *.
    assert (<[(2, o') := x]> (ckp (s_main s)) !! (1, o) = ckp (s_main s) !! (1, o))
      as H1' by by rewrite lookup_insert_ne.
    rewrite H1'.
    case_decide as Hlt; [split_and!; [done..|intros ?]; eapply ckp_sample; eauto|].
    rewrite (ckp_sample 2 o' x _ _ o _ _ _ Hc Ho H2) by auto.
    destruct (newest_is_Some (s_mem s) o) as [y Hy];
      [apply Hinv|by apply (inv_cells _ _ Hinv); rewrite Hpc; apply bool_decide_eq_true|].
    rewrite Hy in *. apply fmap_Some in H1 as (x2 & Hx2 & ->). eauto.
Qed.

Lemma ckp_inv_extra mem' cur' s o :
  cells_int (s_mem s) → ckp_inv o s → m_pc (s_main s) = m_extra →
  do_work v 0 (s_mem s) (m_view (s_main s)) = Some (mem', cur') →
  ckp_inv o
    (State mem'
       (MainState (m_sleep 1) cur' (ckp (s_main s)) (cnt (s_main s))
          (stop (s_main s)))
       (s_workers s) (s_handles s)).
Proof.
  intros Hint Hck Hpc Hdw. unfold ckp_inv in *. rewrite Hpc in Hck.
  cbn [s_main s_mem m_pc ckp]. split.
  - intros x Hx. rewrite Hck in Hx. by eapply cells_int_newest.
  - rewrite Hck, (newest_do_work v _ _ _ _ _ o Hdw). unfold bump.
    by destruct (decide (o = 0)).
Qed.

(** From the second checkpoint on, a step of [main] keeps the relation
    between the samples and the counter, and leaves the threads as they
    are. *)
Lemma main_trans_ckp_inv p s s' o :
  sys_inv v s → cells_int (s_mem s) → o < length seeds → ckp_inv o s →
  main_trans v p s s' →
  ckp_inv o s' ∧ s_workers s' = s_workers s.
Proof.
  intros Hinv Hint Ho Hck.
  destruct 1 as [o' k c s' Hpc Hc Hstep|n Hpc|c o' x cur' Hpc Hc|b cur' Hpc Hld
    |x cur' Hpc Hc Hx|x cur' Hpc Hc Hx|st' h' cur' Hpc Hts|mem' cur' Hpc Hdw
    |Hpc Hdw|o' w Hpc Hj Hw Hd|o' Hpc Hj];
    try (exfalso; unfold ckp_inv in Hck; by rewrite Hpc in Hck).
  - split; [|done]. unfold ckp_inv in *. rewrite Hpc in Hck. simpl.
    destruct n; [done|]. simpl. destruct Hck. split_and!; [done..|lia].
  - split; [|done]. by eapply ckp_inv_ckp.
  - split; [|done]. by eapply ckp_inv_extra.
  - done.
  - split; [|done]. unfold ckp_inv in *. rewrite Hpc in Hck. simpl. by destruct o'.
  - split; [|done]. unfold ckp_inv in *. rewrite Hpc in Hck. simpl. by destruct o'.
Qed.

Lemma exec_verdict_inv l s s' o :
  verdict_inv v o s → exec v l s = Some s' → verdict_inv v o s'.
Proof.
  intros [Hinv Ho (w & Hw & Hdone) Hck Hint] Hex.
  pose proof (exec_inv v _ _ _ Hinv Hex) as Hinv'.
  destruct l as [[|o'] p]; unfold exec in Hex; cbn [fst snd] in Hex.
  - apply main_step_sound in Hex.
    destruct (main_trans_ckp_inv _ _ _ _ Hinv Hint Ho Hck Hex) as [Hck' Hws].
    split; [done..|exists w; by rewrite Hws|done|by eapply main_trans_cells_int].
  - apply bind_Some in Hex as (w0 & Hw0 & ([w' mem'] & Hstep & [= <-])%bind_Some).
    assert (o ≠ o') as Hne.
    { intros ->. destruct (do_thing_step_pc v _ _ _ _ _ Hstep); congruence. }
    split; [done..| | |by eapply do_thing_step_cells_int].
    + exists w. simpl. by rewrite lookup_insert_ne.
    + unfold ckp_inv in *. simpl.
      by rewrite (newest_do_thing_step v _ _ _ _ _ _ o Hne Hstep).
Qed.

(** From the second checkpoint to the return of [main]: the two samples
    of a stopped object. *)
Lemma stopped_samples s1 s2 o :
  reachable v s1 → m_pc (s_main s1) = m_ckp 1 0 → cells_int (s_mem s1) →
  stopped o s1 → o < length seeds →
  rtc (step v) s1 s2 → m_pc (s_main s2) = m_exit →
  ∃ x, in_int x ∧ ckp (s_main s2) !! (1, o) = Some x ∧
       ckp (s_main s2) !! (2, o) = Some (bump o x).
Proof.
  intros Hinv%reachable_inv Hpc Hint Hst Ho Hrtc Hpc2.
  assert (verdict_inv v o s2) as [_ _ _ Hck Hint2].
  { eapply (rtc_invariant (step v) (verdict_inv v o)); [|exact Hrtc|].
    - intros s s' Hv [l Hex]. by eapply exec_verdict_inv.
    - split; [done..| |done]. unfold ckp_inv. rewrite Hpc. lia. }
  unfold ckp_inv in Hck. by rewrite Hpc2 in Hck.
Qed.

(** Every reachable memory holds values of the type [int] only. *)
Lemma reachable_cells_int s : reachable v s → cells_int (s_mem s).
Proof.
  intros Hr.
  eapply (rtc_invariant (step v) (λ s, cells_int (s_mem s))); [|exact Hr|done].
  intros s1 s2 Hint [[[|o] p] Hex]; unfold exec in Hex; cbn [fst snd] in Hex.
  - eapply main_trans_cells_int; [done|]. by apply main_step_sound.
  - apply bind_Some in Hex as (w0 & Hw0 & ([w' mem'] & Hstep & [= <-])%bind_Some).
    by eapply do_thing_step_cells_int.
Qed.

End preservation.

(** ** Properties *)

Section properties.
Context (v : variant).
Implicit Types (s : state) (o : nat).

(** C19 (seq_cst_stopped_sample): a stopped object makes no further
    progress.  With [memory_order_seq_cst] on [count]
    (src/main_seqcst_padding.cpp), if the thread of an object has returned
    when [main] starts the second checkpoint, then at the return of [main]
    the third sample of that object is its second sample, plus the one
    increment of line 127 for [a]. *)
Theorem seq_cst_stopped_sample s1 s2 o :
  o_count v = memory_order_seq_cst →
  reachable v s1 → m_pc (s_main s1) = m_ckp 1 0 →
  stopped o s1 → o < length seeds →
  rtc (step v) s1 s2 → m_pc (s_main s2) = m_exit →
  ∃ x, in_int x ∧ ckp (s_main s2) !! (1, o) = Some x ∧
       ckp (s_main s2) !! (2, o) = Some (bump o x).
Proof.
  intros Hsc Hr Hpc. apply stopped_samples; [done..|].
  by apply (reachable_cells_int v).
Qed.

(** C10 (seq_cst_verdict_quiescent): the program prints three times
    [true].  With [memory_order_seq_cst] on [count], if the three threads
    have returned when [main] starts the second checkpoint, then [main]
    returns having printed [true] for [ckp3_a == ckp2_a + 1], for
    [ckp3_b == ckp2_b] and for [ckp3_c == ckp2_c], unless the counter of
    [a] stood at [INT_MAX]. *)
Theorem seq_cst_verdict_quiescent s1 s2 :
  o_count v = memory_order_seq_cst →
  reachable v s1 → m_pc (s_main s1) = m_ckp 1 0 →
  (∀ o, o < length seeds → stopped o s1) →
  rtc (step v) s1 s2 → m_pc (s_main s2) = m_exit →
  ckp (s_main s2) !! (1, 0) ≠ Some INT_MAX →
  verdict (s_main s2) = Some (true, true, true).
Proof.
  intros Hsc Hr Hpc Hst Hrtc Hpc2 Hmax.
  pose proof (reachable_cells_int v _ Hr) as Hint.
  destruct (stopped_samples v Hsc s1 s2 0 Hr Hpc Hint) as (a & Ha & Ha2 & Ha3);
    [apply Hst; simpl; lia|simpl; lia|done..|].
  destruct (stopped_samples v Hsc s1 s2 1 Hr Hpc Hint) as (b & _ & Hb2 & Hb3);
    [apply Hst; simpl; lia|simpl; lia|done..|].
  destruct (stopped_samples v Hsc s1 s2 2 Hr Hpc Hint) as (c & _ & Hc2 & Hc3);
    [apply Hst; simpl; lia|simpl; lia|done..|].
  assert (a ≠ INT_MAX) as Hne by congruence.
  unfold verdict. rewrite Ha2, Ha3, Hb2, Hb3, Hc2, Hc3. simpl.
  rewrite (int_add_checked_1 a Ha Hne). simpl. unfold bump. simpl.
  by rewrite !bool_decide_eq_true_2.
Qed.

End properties.

(** C20 (acquire_verdict_stale): with [memory_order_acquire] on [count]
    (src/main.cpp) a sample need not be the newest value.  There is a
    complete run, in which no thread touches an uninitialised counter and
    [spurious] does not overflow, in which the three threads
    have returned when [main] starts the second checkpoint and [main]
    still prints [false] for [ckp3_a == ckp2_a + 1]: the second sample of
    [a] reads 10, the value [main] had read at line 101, while the counter
    stands at 11. *)
Theorem acquire_verdict_stale :
  (λ s, (m_pc (s_main s), all_stopped s)) <$> run main_cpp (take 57 sched_stale) state_init
  = Some (m_ckp 1 0, true) ∧
  outcome <$> run main_cpp sched_stale state_init
  = Some (m_exit, Some (false, true, true), false) ∧
  (λ s, ckp (s_main s) !! (1, 0)) <$> run main_cpp sched_stale state_init
  = Some (Some 10%Z) ∧
  counter_values 0 <$> run main_cpp (take 57 sched_stale) state_init
  = Some (Some [0; 1; 2; 3; 4; 5; 6; 7; 8; 9; 10; 11]%Z).
Proof. split_and!; vm_compute; reflexivity. Qed.

(** ** Witnesses *)

(** src/main_seqcst_padding.cpp at the start of the second checkpoint,
    the three threads having returned. *)
Definition at_ckp2 : state :=
  state_after main_seqcst_padding_cpp (take 23 (sched_quiescent 1)).

Lemma at_ckp2_reachable : reachable main_seqcst_padding_cpp at_ckp2.
Proof. apply state_after_reachable. vm_compute. by eexists. Qed.

Lemma at_ckp2_stopped o : o < length seeds → stopped o at_ckp2.
Proof.
  intros Ho. destruct o as [|[|[|o]]]; [..|simpl in Ho; lia];
    eexists; split; vm_compute; reflexivity.
Qed.

Lemma at_ckp2_exit : rtc (step main_seqcst_padding_cpp) at_ckp2 at_exit.
Proof.
  apply (run_rtc _ (drop 23 (sched_quiescent 1))). vm_compute. reflexivity.
Qed.

Lemma seq_cst_stopped_sample_witness :
  ∃ x, in_int x ∧ ckp (s_main at_exit) !! (1, 1) = Some x ∧
       ckp (s_main at_exit) !! (2, 1) = Some (bump 1 x).
Proof.
  apply (seq_cst_stopped_sample main_seqcst_padding_cpp at_ckp2 at_exit 1);
    [reflexivity|apply at_ckp2_reachable|vm_compute; reflexivity
    |apply at_ckp2_stopped; simpl; lia|simpl; lia|apply at_ckp2_exit
    |vm_compute; reflexivity].
Defined.

Lemma seq_cst_verdict_quiescent_witness :
  verdict (s_main at_exit) = Some (true, true, true).
Proof.
  apply (seq_cst_verdict_quiescent main_seqcst_padding_cpp at_ckp2 at_exit);
    [reflexivity|apply at_ckp2_reachable|vm_compute; reflexivity
    |apply at_ckp2_stopped|apply at_ckp2_exit|vm_compute; reflexivity
    |vm_compute; discriminate].
Defined.
