(* ===== verification/Refinement.v ===== *)
(** * Refinement: the program implements the abstract machine

    The abstraction of a state of the program forgets the threads, the
    views and the past: of each history it keeps the newest value ([abs]).
    The modification order of an atomic object is the order in which the
    abstract machine sees its writes: this holds for the release/acquire
    file as for the [seq_cst] file, because every write of the program
    except the constructor's store is a read-modify-write, and a
    read-modify-write reads the newest message whatever its order.

    Each step of the program performs one event of [Spec] ([event]): an
    increment for [do_work], the transition of the flag for the
    compare-exchange that succeeds on the unset flag, silence for every
    load.  [system_refines] is the instance of [Machine.Refines] for the
    program; the theorems on runs follow from those of [Machine] and
    [Spec]. *)

From S2P Require Import Prelude Int32 Machine Spec Memory Foo StopFlag Worker.
From S2P Require Import Driver System Verdict.

(** ** The abstraction *)

Definition abs_mem (mem : memory) : astate :=
  AState (flag_value (cond mem)) (omap (λ h, last (hvals h)) (cells mem)).

Definition abs (s : state) : astate := abs_mem (s_mem s).

(** The event of a step of the loop of lines 106-115 that takes the
    history of the flag from [h] to [h']: a step that writes the flag is
    the transition when the flag held [false], and a second write of
    [true] when it held [true].  The abstract machine has no step that
    takes the flag back to [false]. *)
Definition stop_event (h h' : history bool) : aevent :=
  if decide (length h' = length h) then a_tau
  else if flag_value h then a_again else a_won.

(** The event of a step of [main] from [s] to [s']. *)
Definition main_event (v : variant) (s s' : state) : aevent :=
  match m_pc (s_main s) with
  | m_ctor o k =>
      match ctor_steps v !! k with
      | Some init_m_v => a_create o
      | Some ctor_body => from_option (a_seed o) a_tau (seeds !! o)
      | _ => a_tau
      end
  | m_stop => stop_event (cond (s_mem s)) (cond (s_mem s'))
  | m_extra =>
      if decide (m_pc (s_main s') = m_undefined) then a_tau else a_advance 0
  | _ => a_tau
  end.

(** The event of a step of the thread of object [o]. *)
Definition worker_event (o : nat) (s s' : state) : aevent :=
  if decide (cell_len (s_mem s') o = cell_len (s_mem s) o) then a_tau
  else a_advance o.

(** The event of the step with label [l] from [s]. *)
Definition event (v : variant) (l : label) (s : state) : aevent :=
  match exec v l s with
  | Some s' =>
      match l.1 with
      | t_main => main_event v s s'
      | t_worker o => worker_event o s s'
      end
  | None => a_tau
  end.

(** The program as a machine. *)
Definition system_machine (v : variant) : Machine label state := exec v.

(** The events of a run of the program. *)
Definition trace_from (v : variant) (ls : list label) (s : state)
    : list aevent :=
  @mtrace _ _ _ (system_machine v) (event v) ls s.

Definition trace (v : variant) (ls : list label) : list aevent :=
  trace_from v ls state_init.

(** ** The abstraction of memory *)

Section abstraction.
Context (v : variant).
Implicit Types (mem : memory) (o : nat) (p : pick).

Lemma abs_counter mem o :
  a_counter (abs_mem mem) !! o = cells mem !! o ≫= λ h, last (hvals h).
Proof. apply lookup_omap. Qed.

Lemma abs_set_cell mem o h x :
  last (hvals h) = Some x →
  abs_mem (set_cell o h mem) = set_counter o x (abs_mem mem).
Proof.
  intros Hx. unfold abs_mem, set_counter. simpl. f_equal.
  by apply omap_insert_Some.
Qed.

Lemma abs_do_work o mem cur mem' cur' :
  do_work v o mem cur = Some (mem', cur') →
  astep (a_advance o) (abs_mem mem) = Some (abs_mem mem').
Proof.
  intros (h & x & h' & Ho & Hfa & ->)%do_work_Some.
  destruct (atomic_rmw_hvals _ _ _ _ _ _ _ _ Hfa) as [Hx Hv].
  simpl. rewrite (lookup_omap _ (cells mem)), Ho. simpl. rewrite Hx. simpl.
  f_equal. symmetry. apply abs_set_cell. by rewrite Hv, last_snoc.
Qed.

Lemma abs_ctor_body o i mem cur mem' cur' :
  mem_wf mem → Foo_ctor_body v o i mem cur = Some (mem', cur') →
  astep (a_seed o i) (abs_mem mem) = Some (abs_mem mem').
Proof.
  intros Hwf (h & Ho & -> & _)%Foo_ctor_body_Some.
  destruct (cell_wf _ Hwf _ _ Ho) as [Hne _].
  destruct (last_is_Some h Hne) as [m Hm].
  simpl. rewrite (lookup_omap _ (cells mem)), Ho. simpl.
  rewrite hvals_last, Hm. simpl. f_equal. symmetry. apply abs_set_cell.
  unfold atomic_store. simpl. by rewrite hvals_snoc, last_snoc.
Qed.

Lemma abs_init_m_v o mem :
  cells mem !! o = None →
  astep (a_create o) (abs_mem mem) = Some (abs_mem (Foo_init_m_v o mem)).
Proof.
  intros Ho. simpl. rewrite (lookup_omap _ (cells mem)), Ho. simpl.
  f_equal. symmetry. by apply abs_set_cell.
Qed.

Lemma abs_try_stop p st mem cur st' h' cur' :
  flag_hist (cond mem) →
  try_stop_step v p st (cond mem) cur = Some (st', h', cur') →
  astep (stop_event (cond mem) h') (abs_mem mem) = Some (abs_mem (set_cond h' mem)).
Proof.
  intros Hf Hstep. pose proof (try_stop_step_prefix v _ _ _ _ _ _ _ Hstep) as Hpre.
  pose proof (prefix_length _ _ Hpre) as Hlen. pose proof (flag_hist_ne _ Hf) as Hne.
  assert (1 ≤ length (cond mem)) by (destruct (cond mem); [done|simpl; lia]).
  unfold stop_event. case_decide as Heq.
  - apply prefix_length_eq in Hpre; [|lia]. by rewrite <-Hpre, set_cond_id.
  - assert (flag_set h' = true) as Hset by (apply bool_decide_eq_true; lia).
    pose proof (try_stop_step_hist v _ _ _ _ _ _ _ Hf Hstep) as Hf'.
    unfold abs_mem. simpl. rewrite (flag_hist_value h' Hf'), Hset.
    by destruct (flag_value (cond mem)).
Qed.

End abstraction.

(** ** Every step performs its event *)

Section steps.
Context (v : variant).
Implicit Types (s : state) (o : nat) (p : pick).

Lemma worker_refines o p s s' :
  worker_exec v o p s = Some s' →
  astep (worker_event o s s') (abs s) = Some (abs s').
Proof.
  intros (w & Hw & ([w' mem'] & Hstep & [= <-])%bind_Some)%bind_Some.
  unfold worker_event, abs, cell_len. simpl.
  destruct (do_thing_step_pc v _ _ _ _ _ Hstep) as [Hpc|Hpc].
  - apply (do_thing_step_check v _ _ _ _ _ _ Hpc) in Hstep as (_ & _ & _ & -> & _).
    by rewrite decide_True.
  - apply (do_thing_step_work v _ _ _ _ _ _ Hpc) in Hstep
      as [(cur' & Hdw & _)|(_ & -> & _)]; [|by rewrite decide_True].
    destruct (do_work_mem _ _ _ _ _ _ Hdw) as (_ & _ & Hlen & _).
    simpl in Hlen. rewrite decide_False by lia. by eapply abs_do_work.
Qed.

Lemma ctor_refines o k c s s' :
  sys_inv v s → m_pc (s_main s) = m_ctor o k → ctor_steps v !! k = Some c →
  ctor_step_exec v o c (after_ctor_step v o k) s = Some s' →
  astep (main_event v s s') (abs s) = Some (abs s').
Proof.
  intros Hinv Hpc Hk Hstep. unfold main_event, abs. rewrite Hpc, Hk.
  destruct c; simpl in Hstep.
  - by injection Hstep as <-.
  - injection Hstep as <-. apply abs_init_m_v.
    apply eq_None_not_Some. rewrite (inv_cells _ _ Hinv), Hpc.
    unfold initialised. by rewrite (ctor_reached_current v o k init_m_v).
  - apply bind_Some in Hstep as (i & Hi & ([mem' cur'] & Hcb & [= <-])%bind_Some).
    rewrite Hi. simpl. eapply abs_ctor_body; [apply Hinv|done].
Qed.

Lemma main_refines p s s' :
  sys_inv v s → main_trans v p s s' →
  astep (main_event v s s') (abs s) = Some (abs s').
Proof.
  intros Hinv.
  destruct 1 as [o k c s' Hpc Hc Hstep|n Hpc|c o x cur' Hpc Hc|b cur' Hpc Hld
    |x cur' Hpc Hc Hx|x cur' Hpc Hc Hx|st' h' cur' Hpc Hts|mem' cur' Hpc Hdw
    |Hpc Hdw|o w Hpc Hj Hw Hd|o Hpc Hj];
    [by eapply ctor_refines|unfold main_event; rewrite Hpc; try done..].
  - eapply abs_try_stop; [apply Hinv|done].
  - simpl. by eapply abs_do_work.
Qed.

End steps.

(** ** The program refines the abstract machine *)

Section refinement.
Context (v : variant).
Implicit Types (s : state) (l : label) (ls : list label).

Lemma event_refines l s s' :
  sys_inv v s → exec v l s = Some s' →
  event v l s = match l.1 with
                | t_main => main_event v s s'
                | t_worker o => worker_event o s s'
                end ∧
  astep (match l.1 with
         | t_main => main_event v s s'
         | t_worker o => worker_event o s s'
         end) (abs s) = Some (abs s').
Proof.
  intros Hinv Hex. split; [unfold event; by rewrite Hex|].
  destruct l as [[|o] p]; unfold exec in Hex; cbn [fst snd] in *.
  - apply (main_refines v p); [done|]. by apply main_step_sound.
  - by eapply worker_refines.
Qed.

(** C9 (exec_refines): every step of the program is a step of the
    abstract machine.  From a state that satisfies the invariant, a step
    of any thread takes the abstraction of the state (the flag as a
    boolean, each counter as its newest value) to the abstraction of the
    next state by the event of the step: an increment, the seed, the
    transition of the flag, or nothing. *)
Theorem exec_refines l s s' :
  sys_inv v s → exec v l s = Some s' →
  astep (event v l s) (abs s) = Some (abs s').
Proof.
  intros Hinv Hex. by destruct (event_refines _ _ _ Hinv Hex) as [-> ?].
Qed.

#[local] Existing Instance system_machine.

(** The instance of [Machine.Refines] for the program. *)
#[export] Instance system_refines :
  @Refines _ _ _ _ (system_machine v) abstract_machine (sys_inv v) abs (event v).
Proof.
  split.
  - intros l s s'. apply exec_inv.
  - intros l s s' Hinv Hex. unfold mstep, abstract_machine.
    by destruct (event_refines _ _ _ Hinv Hex) as [-> ?].
Qed.

Lemma mrun_run ls s : @mrun _ _ (system_machine v) ls s = run v ls s.
Proof.
  revert s. induction ls as [|l ls IH]; intros s; [done|].
  rewrite mrun_cons. change (mstep l s) with (exec v l s).
  simpl. destruct (exec v l s); simpl; [apply IH|done].
Qed.

Lemma abs_init : abs state_init = astate_init.
Proof. done. Qed.

(** A run of the program is a run of the abstract machine along its
    trace. *)
Lemma run_refines_from ls s s' :
  sys_inv v s → run v ls s = Some s' →
  mrun (trace_from v ls s) (abs s) = Some (abs s').
Proof.
  rewrite <-mrun_run. intros Hinv Hrun.
  by apply (refines_mrun (sys_inv v) abs (event v)).
Qed.

Lemma run_refines ls s :
  run v ls state_init = Some s →
  mrun (trace v ls) astate_init = Some (abs s).
Proof. rewrite <-abs_init. apply run_refines_from, sys_inv_init. Qed.

(** After the constructors no step sets a counter other than by an
    increment. *)
Lemma event_no_reset l s o :
  in_ctor (m_pc (s_main s)) = false → resets o (event v l s) = false.
Proof.
  intros Hc. unfold event. destruct (exec v l s) as [s'|]; [|done].
  destruct l as [[|o'] p]; cbn [fst snd].
  - unfold main_event, stop_event. destruct (m_pc (s_main s)); try done;
      by repeat case_decide; try destruct (flag_value _).
  - unfold worker_event. by case_decide.
Qed.

Lemma trace_no_reset ls s s' o :
  in_ctor (m_pc (s_main s)) = false → run v ls s = Some s' →
  Forall (λ e, resets o e = false) (trace_from v ls s).
Proof.
  revert s. induction ls as [|l ls IH]; intros s Hc; simpl; [by constructor|].
  intros (s1 & Hex & Hrun)%bind_Some. constructor; [by apply event_no_reset|].
  change (mstep l s) with (exec v l s). rewrite Hex. simpl.
  apply IH; [by eapply exec_in_ctor|done].
Qed.

(** C14 (run_wins_once): exactly one transition of the flag.  The
    value of the flag is the value of the newest message of its history
    ([flag_value]); a step wins when it writes the flag while its value is
    [false].  In every run of the program from its start at most one step
    wins, whichever threads compete and however often the compare-exchange
    fails or succeeds again; exactly one has won when the value of the
    flag is [true] at the end of the run, and none when it is [false].
    The abstract machine has no step that takes the flag back to [false]:
    a compare-exchange that stored anything but [true] would win more than
    once, or end with a value that its wins do not explain. *)
Theorem run_wins_once ls s :
  run v ls state_init = Some s →
  wins (trace v ls) ≤ 1 ∧
  (flag_value (cond (s_mem s)) = true → wins (trace v ls) = 1) ∧
  (flag_value (cond (s_mem s)) = false → wins (trace v ls) = 0).
Proof.
  intros Hrun%run_refines.
  destruct (arun_wins _ _ _ Hrun) as (Hle & Hone & Hzero).
  split_and!; [done|by apply Hone|by apply Hzero].
Qed.

(** C16 (run_counts): a counter moves by the calls of [do_work], and by
    nothing else.  Along every run that starts in a reachable state after
    the constructors, the newest value of the counter of an object at the
    end is its value at the start plus the number of increments of that
    object in the run (by its thread, or by [main] at line 127 for [a]),
    modulo 2^32. *)
Theorem run_counts ls s s' o x :
  reachable v s → in_ctor (m_pc (s_main s)) = false →
  run v ls s = Some s' → newest (s_mem s) o = Some x →
  newest (s_mem s') o
  = Some (wrap_int (x + Z.of_nat (advances o (trace_from v ls s)))).
Proof.
  intros Hr Hc Hrun Hx.
  pose proof (run_refines_from ls s s' (reachable_inv v s Hr) Hrun) as Habs.
  unfold newest. rewrite <-abs_counter. fold (abs s').
  apply (arun_counter _ _ _ _ _ Habs); [by eapply trace_no_reset| |].
  - unfold abs. by rewrite abs_counter.
  - eapply cells_int_newest; [by apply (reachable_cells_int v)|done].
Qed.

End refinement.

(** ** Witnesses *)

Lemma exec_refines_witness :
  astep (event main_seqcst_padding_cpp (t_main, latest) before_cas) (abs before_cas)
  = Some (abs after_cas).
Proof.
  apply (exec_refines main_seqcst_padding_cpp (t_main, latest) before_cas after_cas).
  - apply reachable_inv, state_after_reachable. vm_compute. by eexists.
  - vm_compute. reflexivity.
Defined.

Lemma run_wins_once_witness :
  wins (trace main_seqcst_padding_cpp (sched_quiescent 1)) ≤ 1 ∧
  (flag_value (cond (s_mem at_exit)) = true →
   wins (trace main_seqcst_padding_cpp (sched_quiescent 1)) = 1) ∧
  (flag_value (cond (s_mem at_exit)) = false →
   wins (trace main_seqcst_padding_cpp (sched_quiescent 1)) = 0).
Proof.
  apply (run_wins_once main_seqcst_padding_cpp (sched_quiescent 1) at_exit).
  vm_compute. reflexivity.
Defined.

(** src/main_seqcst_padding.cpp from the end of the constructors: the
    thread of [a] makes one increment before the flag is set, and [main]
    one at line 127. *)
Lemma run_counts_witness :
  newest (s_mem at_exit) 0
  = Some (wrap_int (1 + Z.of_nat (advances 0
            (trace_from main_seqcst_padding_cpp (drop 9 (sched_quiescent 1))
               (state_after main_seqcst_padding_cpp sched_ctors))))).
Proof.
  apply (run_counts main_seqcst_padding_cpp (drop 9 (sched_quiescent 1))
    (state_after main_seqcst_padding_cpp sched_ctors) at_exit 0 1%Z).
  - apply state_after_reachable. vm_compute. by eexists.
  - vm_compute. reflexivity.
  - vm_compute. reflexivity.
  - vm_compute. reflexivity.
Defined.
