(* ===== verification/Progress.v ===== *)
(** * Progress: the program can always run to its end

    The loops of the program wait for each other: [main] polls the counter
    of [a] until the thread of [a] has counted far enough (src/main.cpp
    lines 99-117), the threads run until [main] has set the flag (lines
    59-65), and the destructors wait for the threads to return (lines
    21-27).  This file shows that none of these waits can be in vain: from
    every reachable state that is not [undefined] there is a schedule
    that takes the program to the return of [main], with the three threads
    joined; in particular some thread can always take a step.

    The schedule is built from steps that read the newest message
    ([latest]), which never block: [main] goes straight on wherever it
    does not wait; in the outer loop the thread of [a] is run until the
    counter has reached the threshold; before a destructor the thread of
    the object is run until it has tested the set flag.  The argument is an
    induction on [rank], which orders the positions of [main] by their
    distance from the end.

    The only assumption is that the threshold can be reached
    ([signal_reached v INT_MAX]), as it can in both source files. *)

From S2P Require Import Prelude Int32 Memory Foo StopFlag Worker Driver System.
From S2P Require Import Lifecycle Verdict.

(** ** Definitions *)

(** The schedule in which the threads [ts] move in turn, each reading the
    newest message. *)
Definition sched (ts : list tid) : list label := (λ t, (t, latest)) <$> ts.

(** Some such schedule takes [s] to [s']. *)
Definition leads (v : variant) (s s' : state) : Prop :=
  ∃ ts, run v (sched ts) s = Some s'.

(** The thread [t] has a step in [s] that reads the newest message. *)
Definition enabled (v : variant) (s : state) (t : tid) : bool :=
  bool_decide (is_Some (exec v (t, latest) s)).

(** [main] is at a position from which it has a step: a checkpoint reads
    an existing object, and inside the compare-exchange loop the loop has
    not ended. *)
Definition pc_live (ms : main_state) : Prop :=
  match m_pc ms with
  | m_ckp _ o => o < length seeds
  | m_stop => s_pc (stop ms) = stop_load ∨ s_pc (stop ms) = stop_cas
  | _ => True
  end.

(** The distance of a position of [main] from its return: it decreases
    along [main], the outer loop counting as one position. *)
Definition rank (pc : main_pc) : nat :=
  match pc with
  | m_ctor o k => 40 - (3 * o + k)
  | m_sleep 0 => 30
  | m_ckp 0 o => 29 - o
  | m_poll | m_cnt | m_stop => 25
  | m_ckp 1 o => 20 - o
  | m_extra => 15
  | m_sleep (S _) => 14
  | m_ckp _ o => 13 - o
  | m_dtor o => S o
  | m_exit | m_undefined => 0
  end.

(** What the construction of the schedule maintains: the invariants of the
    reachable states, and that no thread has stopped in [m_undefined] or
    [w_undefined]. *)
Record live (v : variant) (s : state) : Prop := Live {
  live_sys : sys_inv v s;
  live_life : life_inv v s;
  live_pc : pc_live (s_main s);
  live_main : m_pc (s_main s) ≠ m_undefined;
  live_workers : workers_defined s;
}.

(** [reach v s Q]: a schedule leads from [s] to a state that satisfies
    [Q] and is not [undefined]. *)
Definition reach (v : variant) (s : state) (Q : state → Prop) : Prop :=
  ∃ s', leads v s s' ∧ live v s' ∧ Q s'.

(** ** Schedules *)

Section leads.
Context (v : variant).
Implicit Types (s : state) (t : tid) (ts : list tid).

Lemma sched_app ts1 ts2 : sched (ts1 ++ ts2) = sched ts1 ++ sched ts2.
Proof. apply fmap_app. Qed.

#[export] Instance leads_po : PreOrder (leads v).
Proof.
  split.
  - intros s. by exists [].
  - intros s1 s2 s3 [ts1 H1] [ts2 H2]. exists (ts1 ++ ts2).
    by rewrite sched_app, run_app, H1.
Qed.

Lemma leads_step t s s' : exec v (t, latest) s = Some s' → leads v s s'.
Proof. intros Hex. exists [t]. simpl. by rewrite Hex. Qed.

Lemma leads_rtc s s' : leads v s s' → rtc (step v) s s'.
Proof. intros [ts Hrun]. by eapply run_rtc. Qed.

(** A state from which a schedule leads on is not the end of that
    schedule, or a thread has a step. *)
Lemma leads_inv s s' :
  leads v s s' → s' = s ∨ ∃ t s1, exec v (t, latest) s = Some s1.
Proof.
  intros [[|t ts] Hrun]; simpl in Hrun; [left; congruence|right].
  apply bind_Some in Hrun as (s1 & Hex & _). eauto.
Qed.

End leads.

(** ** Undefined behaviour *)

Section defined.
Context (v : variant).
Implicit Types (s : state) (o : nat) (p : pick).

Lemma undefined_false s :
  undefined s = false ↔ m_pc (s_main s) ≠ m_undefined ∧ workers_defined s.
Proof.
  unfold undefined, workers_defined.
  by rewrite orb_false_iff, !bool_decide_eq_false, map_not_Exists.
Qed.

(** A step of [main] starts threads, and does not touch the others. *)
Lemma main_step_workers_defined p s s' :
  main_step v p s = Some s' → workers_defined s → workers_defined s'.
Proof.
  intros Hstep Hdef o w Hw.
  destruct (main_step_workers v _ _ _ _ _ Hstep Hw) as [?| ->]; [|done].
  by eapply Hdef.
Qed.

(** A step of a thread leaves the other threads as they are. *)
Lemma insert_worker_defined o w s :
  workers_defined s → w_pc w ≠ w_undefined →
  map_Forall (λ _ w, w_pc w ≠ w_undefined) (<[o := w]> (s_workers s)).
Proof. intros Hdef Hw. by apply map_Forall_insert_2. Qed.

End defined.

(** ** The invariant *)

Section live.
Context (v : variant).
Implicit Types (s : state) (o : nat) (p : pick) (t : tid).

(** Every step of [main] leads to a position from which it has a step. *)
Lemma main_trans_pc_live p s s' : main_trans v p s s' → pc_live (s_main s').
Proof.
  destruct 1 as [o k c s' Hpc Hc Hstep|n Hpc|c o x cur' Hpc Hc|b cur' Hpc Hld
    |x cur' Hpc Hc Hx|x cur' Hpc Hc Hx|st' h' cur' Hpc Hts|mem' cur' Hpc Hdw
    |Hpc Hdw|o w Hpc Hj Hw Hd|o Hpc Hj]; unfold pc_live; simpl; try done.
  - rewrite (ctor_step_exec_pc v _ _ _ _ _ Hstep). unfold after_ctor_step.
    by repeat case_decide.
  - destruct n; simpl; lia.
  - unfold after_ckp. case_decide; [done|]. by destruct c as [|[|c]].
  - destruct b; simpl; lia.
  - by left.
  - unfold after_stop. destruct (s_pc st') eqn:Hst; simpl; auto.
  - by destruct o.
  - by destruct o.
Qed.

Lemma exec_pc_live l s s' :
  pc_live (s_main s) → exec v l s = Some s' → pc_live (s_main s').
Proof.
  intros Hl. destruct l as [[|o] p]; unfold exec; cbn [fst snd].
  - intros ?%main_step_sound. by eapply main_trans_pc_live.
  - by intros (w & _ & ([w' mem'] & _ & [= <-])%bind_Some)%bind_Some.
Qed.

Lemma reachable_pc_live s : reachable v s → pc_live (s_main s).
Proof.
  intros Hr. eapply (rtc_invariant (step v) (λ s, pc_live (s_main s)));
    [|exact Hr|done].
  intros s1 s2 Hl [l Hex]. by eapply exec_pc_live.
Qed.

Lemma reachable_live s : reachable v s → undefined s = false → live v s.
Proof.
  intros Hr [Hm Hw]%undefined_false.
  destruct (reachable_life v s Hr) as [Hinv Hl].
  split; try done. by apply reachable_pc_live.
Qed.

(** A step keeps the invariant when it does not run into undefined
    behaviour. *)
Lemma live_exec l s s' :
  live v s → exec v l s = Some s' →
  m_pc (s_main s') ≠ m_undefined → workers_defined s' → live v s'.
Proof.
  intros [Hinv Hl Hpc _ _] Hex Hm Hw.
  split; [by eapply exec_inv|by eapply exec_life|by eapply exec_pc_live|done..].
Qed.

End live.

(** ** The steps of [main]

    Each step of [main] that does not wait can be taken, reading the
    newest message where it reads. *)

Section main_steps.
Context (v : variant).
Implicit Types (s : state) (o : nat) (p : pick) (t : tid).

Lemma main_ctor_step s o k :
  live v s → m_pc (s_main s) = m_ctor o k →
  ∃ s', main_step v latest s = Some s' ∧
        m_pc (s_main s') = after_ctor_step v o k.
Proof.
  intros [Hinv _ _ _ _] Hpc.
  pose proof (mok_pc _ _ _ (inv_main _ _ Hinv)) as Hwf. rewrite Hpc in Hwf.
  destruct Hwf as [Ho Hk]. apply lookup_lt_is_Some_2 in Ho as [i Hi].
  apply lookup_lt_is_Some_2 in Hk as [c Hc].
  unfold main_step. rewrite Hpc, Hc. simpl.
  destruct c; simpl; [by eexists..|]. rewrite Hi. simpl.
  pose proof (ctor_body_initialised v o k Hc) as Hini. rewrite <-Hpc in Hini.
  apply (inv_cells _ _ Hinv) in Hini as [h Hh].
  unfold Foo_ctor_body. rewrite Hh. simpl. by eexists.
Qed.

Lemma main_ckp_step s c o :
  live v s → m_pc (s_main s) = m_ckp c o →
  ∃ s', main_step v latest s = Some s' ∧ m_pc (s_main s') = after_ckp c o.
Proof.
  intros [Hinv _ Hl _ _] Hpc. unfold pc_live in Hl. rewrite Hpc in Hl.
  destruct (proj2 (inv_cells _ _ Hinv o)) as [h Hh].
  { rewrite Hpc. by apply bool_decide_eq_true. }
  destruct (count_latest v o (s_mem s) (m_view (s_main s)) h)
    as (x & cur' & _ & Hc);
    [apply Hinv|apply (mok_closed _ _ _ (inv_main _ _ Hinv))|done|].
  unfold main_step. rewrite Hpc, Hc. simpl. by eexists.
Qed.

Lemma main_extra_step s :
  live v s → m_pc (s_main s) = m_extra →
  ∃ s', main_step v latest s = Some s' ∧ m_pc (s_main s') = m_sleep 1.
Proof.
  intros [Hinv _ _ _ _] Hpc.
  destruct (do_work_is_Some v 0 (s_mem s) (m_view (s_main s))) as [[mem' cur'] Hdw];
    [apply Hinv|apply (inv_cells _ _ Hinv); by rewrite Hpc|].
  unfold main_step. rewrite Hpc, Hdw. by eexists.
Qed.

(** The condition of the outer loop reads whether the flag is set. *)
Lemma main_poll_step s :
  live v s → m_pc (s_main s) = m_poll →
  ∃ s', main_step v latest s = Some s' ∧
        m_pc (s_main s')
        = (if flag_set (cond (s_mem s)) then m_ckp 1 0 else m_cnt) ∧
        s_mem s' = s_mem s.
Proof.
  intros [Hinv _ _ _ _] Hpc. destruct (inv_mem _ _ Hinv) as [Hwf Hf].
  destruct (flag_load_latest (o_main_poll v) (cond (s_mem s)) (m_view (s_main s)) Hf)
    as [cur' Hld]; [apply view_closed_cond, Hinv|].
  unfold main_step. rewrite Hpc, Hld. simpl. by eexists.
Qed.

(** [a.count()] reads the newest value of the counter of [a]. *)
Lemma main_cnt_step s :
  live v s → m_pc (s_main s) = m_cnt →
  ∃ x s', newest (s_mem s) 0 = Some x ∧ main_step v latest s = Some s' ∧
          m_pc (s_main s') = (if signal_reached v x then m_stop else m_poll) ∧
          s_mem s' = s_mem s.
Proof.
  intros [Hinv _ _ _ _] Hpc.
  destruct (proj2 (inv_cells _ _ Hinv 0)) as [h Hh]; [by rewrite Hpc|].
  destruct (count_latest v 0 (s_mem s) (m_view (s_main s)) h)
    as (x & cur' & Hx & Hc);
    [apply Hinv|apply (mok_closed _ _ _ (inv_main _ _ Hinv))|done|].
  exists x. unfold main_step, newest. rewrite Hpc, Hc, Hh. simpl.
  eexists. split_and!; [done..| |]; by destruct (signal_reached v x).
Qed.

(** A step of the compare-exchange loop on the newest message: the load
    of [finish_work] is followed by the compare-exchange, and the
    compare-exchange ends the loop with the flag set. *)
Lemma main_stop_step s :
  live v s → m_pc (s_main s) = m_stop →
  ∃ s', main_step v latest s = Some s' ∧
        (m_pc (s_main s') = m_stop ∧ s_pc (stop (s_main s)) = stop_load ∧
         s_pc (stop (s_main s')) = stop_cas ∨
         m_pc (s_main s') = m_poll ∧ flag_set (cond (s_mem s')) = true).
Proof.
  intros [Hinv _ Hst _ _] Hpc. unfold pc_live in Hst. rewrite Hpc in Hst.
  unfold main_step. rewrite Hpc. destruct Hst as [Hst|Hst].
  - destruct (try_stop_step_latest_load v (stop (s_main s)) (cond (s_mem s))
      (m_view (s_main s)) Hst) as [cur' ->];
      [apply Hinv|apply view_closed_cond, Hinv|].
    eexists. split; [done|]. by left.
  - destruct (try_stop_step_latest_cas v (stop (s_main s)) (cond (s_mem s))
      (m_view (s_main s)) Hst) as (e & b & h' & cur' & -> & Hset);
      [apply Hinv|apply view_closed_cond, Hinv|apply Hinv|].
    eexists. split; [done|]. by right.
Qed.

(** The destructor of an object whose thread has returned. *)
Lemma main_dtor_step s o :
  live v s → m_pc (s_main s) = m_dtor o → stopped o s →
  ∃ s', main_step v latest s = Some s' ∧ m_pc (s_main s') = after_dtor o.
Proof.
  intros [_ Hlife _ _ _] Hpc (w & Hw & Hd).
  pose proof (life_dtor _ _ Hlife _ Hpc) as Ho.
  unfold main_step, dtor_exec.
  rewrite Hpc, (life_handles _ _ Hlife), Hpc, handle_at_dtor, Hw by done.
  simpl. rewrite decide_True by done. by eexists.
Qed.

End main_steps.

(** ** Building a schedule *)

Section reach.
Context (v : variant).
Implicit Types (s : state) (o : nat) (Q : state → Prop).

Lemma reach_here s Q : live v s → Q s → reach v s Q.
Proof. by exists s. Qed.

Lemma reach_trans s Q : reach v s (λ s', reach v s' Q) → reach v s Q.
Proof.
  intros (s1 & H1 & _ & s2 & H2 & Hl & HQ). exists s2.
  split; [by etrans|done].
Qed.

Lemma reach_mono s (Q Q' : state → Prop) :
  (∀ s', live v s' → Q s' → Q' s') → reach v s Q → reach v s Q'.
Proof. intros HQ (s' & ? & ? & ?). exists s'. auto. Qed.

(** A step of [main], then a schedule from the state it leads to. *)
Lemma reach_main s s' Q :
  live v s → main_step v latest s = Some s' →
  m_pc (s_main s') ≠ m_undefined →
  (live v s' → reach v s' Q) → reach v s Q.
Proof.
  intros Hl Hstep Hpc Hrest.
  assert (live v s') as Hl'.
  { apply (live_exec v (t_main, latest) s); [done..|].
    eapply main_step_workers_defined; [done|apply Hl]. }
  destruct (Hrest Hl') as (s2 & H2 & ? & ?). exists s2.
  split; [|done]. etrans; [|done]. by apply (leads_step v t_main).
Qed.

(** A step of the thread of an object, likewise. *)
Lemma reach_worker s s' o Q :
  live v s → worker_exec v o latest s = Some s' →
  workers_defined s' →
  (live v s' → reach v s' Q) → reach v s Q.
Proof.
  intros Hl Hstep Hdef Hrest.
  assert (s_main s' = s_main s) as Hm.
  { by apply bind_Some in Hstep
      as (w & _ & ([w' mem'] & _ & [= <-])%bind_Some). }
  assert (live v s') as Hl'.
  { apply (live_exec v (t_worker o, latest) s); [done..| |done].
    rewrite Hm. apply Hl. }
  destruct (Hrest Hl') as (s2 & H2 & ? & ?). exists s2.
  split; [|done]. etrans; [|done]. by apply (leads_step v (t_worker o)).
Qed.

End reach.

(** ** The steps of the threads *)

Section worker_steps.
Context (v : variant).
Implicit Types (s : state) (o : nat) (w : worker).

(** The test of the flag, on the newest message. *)
Lemma worker_check_step s o w :
  live v s → s_workers s !! o = Some w → w_pc w = w_check →
  ∃ cur',
    worker_exec v o latest s
    = Some (State (s_mem s) (s_main s)
              (<[o := Worker (if flag_set (cond (s_mem s)) then w_done else w_work)
                         cur']> (s_workers s))
              (s_handles s)).
Proof.
  intros [Hinv _ _ _ _] Hw Hpc.
  destruct (do_thing_step_latest_check v o w (s_mem s) Hpc) as [cur' Hstep];
    [apply Hinv|apply (inv_workers _ _ Hinv _ _ Hw)|].
  exists cur'. unfold worker_exec. by rewrite Hw; simpl; rewrite Hstep.
Qed.

(** The call of [do_work], on an initialised counter. *)
Lemma worker_work_step s o w :
  live v s → s_workers s !! o = Some w → w_pc w = w_work →
  is_Some (cells (s_mem s) !! o) →
  ∃ mem' cur',
    do_work v o (s_mem s) (w_view w) = Some (mem', cur') ∧
    worker_exec v o latest s
    = Some (State mem' (s_main s) (<[o := Worker w_check cur']> (s_workers s))
              (s_handles s)).
Proof.
  intros [Hinv _ _ _ _] Hw Hpc Ho.
  destruct (do_thing_step_latest_work v o latest w (s_mem s) Hpc)
    as (mem' & cur' & Hdw & Hstep); [apply Hinv|done|].
  exists mem', cur'. split; [done|].
  unfold worker_exec. by rewrite Hw; simpl; rewrite Hstep.
Qed.

(** While its object exists a thread has a counter to work on. *)
Lemma live_worker_cell s o w :
  live v s → in_ctor (m_pc (s_main s)) = false →
  s_workers s !! o = Some w → is_Some (cells (s_mem s) !! o).
Proof.
  intros [Hinv _ _ _ _] Hc Hw. apply (inv_cells _ _ Hinv).
  assert (started v (m_pc (s_main s)) o = true) as Hst.
  { apply (inv_started _ _ Hinv). eauto. }
  unfold initialised. by destruct (m_pc (s_main s)).
Qed.

(** Once the flag is set every thread can return: it returns at its next
    test of the flag, after at most one more increment. *)
Lemma worker_returns s o w :
  live v s → in_ctor (m_pc (s_main s)) = false →
  flag_set (cond (s_mem s)) = true → s_workers s !! o = Some w →
  reach v s (λ s', s_main s' = s_main s ∧ stopped o s').
Proof.
  intros Hl Hc Hset Hw.
  assert (∀ s1 w1, live v s1 → s_main s1 = s_main s →
    flag_set (cond (s_mem s1)) = true → s_workers s1 !! o = Some w1 →
    w_pc w1 = w_check →
    reach v s1 (λ s', s_main s' = s_main s ∧ stopped o s')) as Hcheck.
  { intros s1 w1 Hl1 Hm1 Hset1 Hw1 Hpc1.
    destruct (worker_check_step s1 o w1 Hl1 Hw1 Hpc1) as [cur' Hstep].
    rewrite Hset1 in Hstep. eapply reach_worker; [done..| |].
    - apply insert_worker_defined; [apply Hl1|done].
    - intros Hl'. apply reach_here; [done|]. split; [done|].
      eexists. split; [apply lookup_insert_eq|done]. }
  destruct (w_pc w) eqn:Hpc.
  - by eapply Hcheck.
  - destruct (worker_work_step s o w Hl Hw Hpc) as (mem' & cur' & Hdw & Hstep);
      [by eapply live_worker_cell|].
    eapply reach_worker; [done..| |].
    { apply insert_worker_defined; [apply Hl|done]. }
    intros Hl'. eapply Hcheck; [done..| |apply lookup_insert_eq|done]. simpl.
    destruct (do_work_mem _ _ _ _ _ _ Hdw) as (-> & _). done.
  - apply reach_here; [done|]. split; [done|]. by exists w.
  - by destruct (live_workers _ _ Hl _ _ Hw).
Qed.

End worker_steps.

(** ** The threads count *)

Section counting.
Context (v : variant).
Implicit Types (s : state) (o : nat) (w : worker) (x : Z).

(** After the constructors the thread of every object exists. *)
Lemma live_worker s o :
  live v s → in_ctor (m_pc (s_main s)) = false → o < length seeds →
  is_Some (s_workers s !! o).
Proof.
  intros [Hinv _ _ _ _] Hc Ho. apply (inv_started _ _ Hinv).
  rewrite started_after_ctors by done. by apply bool_decide_eq_true.
Qed.

(** While the flag is unset the thread of an object can make one more
    increment. *)
Lemma worker_counts s o x :
  live v s → in_ctor (m_pc (s_main s)) = false → o < length seeds →
  flag_set (cond (s_mem s)) = false → newest (s_mem s) o = Some x →
  reach v s (λ s', s_main s' = s_main s ∧ cond (s_mem s') = cond (s_mem s) ∧
                   newest (s_mem s') o = Some (int_add x 1)).
Proof.
  intros Hl Hc Ho Hset Hx. destruct (live_worker s o Hl Hc Ho) as [w Hw].
  assert (∀ s1 w1, live v s1 → s_main s1 = s_main s → s_mem s1 = s_mem s →
    s_workers s1 !! o = Some w1 → w_pc w1 = w_work →
    reach v s1 (λ s', s_main s' = s_main s ∧ cond (s_mem s') = cond (s_mem s) ∧
                      newest (s_mem s') o = Some (int_add x 1))) as Hwork.
  { intros s1 w1 Hl1 Hm1 Hmem1 Hw1 Hpc1.
    destruct (worker_work_step v s1 o w1 Hl1 Hw1 Hpc1) as (mem' & cur' & Hdw & Hstep).
    { eapply live_worker_cell; [done| |done]. by rewrite Hm1. }
    eapply reach_worker; [done..| |].
    { apply insert_worker_defined; [apply Hl1|done]. }
    intros Hl'. apply reach_here; [done|]. simpl. rewrite Hmem1 in Hdw.
    destruct (do_work_mem _ _ _ _ _ _ Hdw) as (-> & _).
    by rewrite (newest_do_work v _ _ _ _ _ o Hdw), decide_True, Hx. }
  destruct (w_pc w) eqn:Hpc.
  - destruct (worker_check_step v s o w Hl Hw Hpc) as [cur' Hstep].
    rewrite Hset in Hstep. eapply reach_worker; [done..| |].
    { apply insert_worker_defined; [apply Hl|done]. }
    intros Hl'. eapply Hwork; [done..|apply lookup_insert_eq|done].
  - by eapply Hwork.
  - destruct (inv_workers _ _ (live_sys _ _ Hl) _ _ Hw) as [Hcl Hdone].
    rewrite (seen_set_flag_set _ _ Hcl (Hdone Hpc)) in Hset. done.
  - by destruct (live_workers _ _ Hl _ _ Hw).
Qed.

(** And so any number of increments. *)
Lemma worker_counts_iter (n : nat) s o x :
  live v s → in_ctor (m_pc (s_main s)) = false → o < length seeds →
  flag_set (cond (s_mem s)) = false → newest (s_mem s) o = Some x →
  reach v s (λ s', s_main s' = s_main s ∧ cond (s_mem s') = cond (s_mem s) ∧
                   newest (s_mem s') o = Some (Nat.iter n (λ z, int_add z 1) x)).
Proof.
  intros Hl Hc Ho Hset Hx. induction n as [|n IH]; [by apply reach_here|].
  apply reach_trans. eapply reach_mono; [|exact IH].
  intros s1 Hl1 (Hm1 & Hc1 & Hx1). simpl.
  eapply reach_mono; [|eapply (worker_counts s1 o); [by rewrite ?Hm1, ?Hc1..|done]].
  intros s2 _ (-> & -> & ->). done.
Qed.

End counting.

(** ** The loops of [main] *)

Section loops.
Context (v : variant) (Hsig : signal_reached v INT_MAX = true).
Implicit Types (s : state) (o : nat) (w : worker) (x : Z).

(** The compare-exchange loop ends, with the flag set. *)
Lemma main_stop_exit s :
  live v s → m_pc (s_main s) = m_stop →
  reach v s (λ s', m_pc (s_main s') = m_poll ∧
                   flag_set (cond (s_mem s')) = true).
Proof.
  intros Hl Hpc.
  destruct (main_stop_step v s Hl Hpc) as (s1 & Hstep & [(Hpc1 & _ & Hst1)|[Hpc1 ?]]);
    (eapply reach_main; [done..|by rewrite Hpc1|]); intros Hl1;
    [|by apply reach_here].
  destruct (main_stop_step v s1 Hl1 Hpc1)
    as (s2 & Hstep2 & [(_ & Hst & _)|[Hpc2 ?]]); [congruence|].
  eapply reach_main; [done..|by rewrite Hpc2|]. intros Hl2. by apply reach_here.
Qed.

(** Once the flag is set the outer loop is left at its next test. *)
Lemma main_poll_set s :
  live v s → m_pc (s_main s) = m_poll → flag_set (cond (s_mem s)) = true →
  reach v s (λ s', m_pc (s_main s') = m_ckp 1 0).
Proof.
  intros Hl Hpc Hset.
  destruct (main_poll_step v s Hl Hpc) as (s' & Hstep & Hpc' & _).
  rewrite Hset in Hpc'. eapply reach_main; [done..|by rewrite Hpc'|].
  intros Hl'. by apply reach_here.
Qed.

Lemma main_stop_leave s :
  live v s → m_pc (s_main s) = m_stop →
  reach v s (λ s', m_pc (s_main s') = m_ckp 1 0).
Proof.
  intros Hl Hpc. apply reach_trans.
  eapply reach_mono; [|by apply main_stop_exit].
  intros s' Hl' [Hpc' Hset]. by apply main_poll_set.
Qed.

(** With the counter of [a] at a value that reaches the threshold, [main]
    goes through the loop once and leaves it. *)
Lemma main_cnt_leave s :
  live v s → m_pc (s_main s) = m_cnt →
  (∀ x, newest (s_mem s) 0 = Some x → signal_reached v x = true) →
  reach v s (λ s', m_pc (s_main s') = m_ckp 1 0).
Proof.
  intros Hl Hpc Hx.
  destruct (main_cnt_step v s Hl Hpc) as (x & s' & Hn & Hstep & Hpc' & _).
  rewrite (Hx x Hn) in Hpc'. eapply reach_main; [done..|by rewrite Hpc'|].
  intros Hl'. by apply main_stop_leave.
Qed.

(** From the condition of the outer loop: if the flag is unset, the
    thread of [a] counts until the threshold is reached. *)
Lemma main_poll_leave s :
  live v s → m_pc (s_main s) = m_poll →
  reach v s (λ s', m_pc (s_main s') = m_ckp 1 0).
Proof.
  intros Hl Hpc. destruct (flag_set (cond (s_mem s))) eqn:Hset;
    [by apply main_poll_set|].
  pose proof (live_sys _ _ Hl) as Hinv.
  destruct (newest_is_Some (s_mem s) 0) as [x Hx];
    [apply Hinv|apply (inv_cells _ _ Hinv); by rewrite Hpc|].
  destruct (int_add_reaches_max x) as [n Hn].
  apply reach_trans.
  eapply reach_mono;
    [|apply (worker_counts_iter v n s 0 x); rewrite ?Hpc; simpl; done || lia].
  intros s1 Hl1 (Hm1 & Hc1 & Hx1). rewrite Hn in Hx1.
  destruct (main_poll_step v s1 Hl1) as (s2 & Hstep & Hpc2 & Hmem2);
    [by rewrite Hm1|].
  rewrite Hc1, Hset in Hpc2. eapply reach_main; [done..|by rewrite Hpc2|].
  intros Hl2. apply main_cnt_leave; [done..|].
  intros y. rewrite Hmem2, Hx1. by intros [= <-].
Qed.

Lemma main_loop_leave s :
  live v s →
  m_pc (s_main s) = m_poll ∨ m_pc (s_main s) = m_cnt ∨ m_pc (s_main s) = m_stop →
  reach v s (λ s', m_pc (s_main s') = m_ckp 1 0).
Proof.
  intros Hl [Hpc|[Hpc|Hpc]];
    [by apply main_poll_leave| |by apply main_stop_leave].
  destruct (main_cnt_step v s Hl Hpc) as (x & s' & Hn & Hstep & Hpc' & _).
  eapply reach_main; [done..| |].
  - rewrite Hpc'. by destruct (signal_reached v x).
  - intros Hl'. destruct (signal_reached v x);
      [by apply main_stop_leave|by apply main_poll_leave].
Qed.

End loops.

(** ** To the end of [main] *)

Section exit.
Context (v : variant).
Implicit Types (s : state) (o : nat) (w : worker).

(** Before a destructor the flag is set: the thread of the object
    returns, and the destructor joins it. *)
Lemma main_dtor_leave s o :
  live v s → m_pc (s_main s) = m_dtor o →
  reach v s (λ s', m_pc (s_main s') = after_dtor o).
Proof.
  intros Hl Hpc. pose proof (live_sys _ _ Hl) as Hinv.
  pose proof (life_dtor _ _ (live_life _ _ Hl) _ Hpc) as Ho.
  destruct (live_worker v s o Hl) as [w Hw]; [by rewrite Hpc|done|].
  assert (flag_set (cond (s_mem s)) = true) as Hset.
  { apply (seen_set_flag_set _ (m_view (s_main s))); [apply Hinv|].
    apply (mok_past _ _ _ (inv_main _ _ Hinv)). by rewrite Hpc. }
  apply reach_trans.
  eapply reach_mono; [|apply (worker_returns v s o w); by rewrite ?Hpc].
  intros s1 Hl1 [Hm1 Hst1].
  destruct (main_dtor_step v s1 o Hl1) as (s2 & Hstep & Hpc2); [by rewrite Hm1|done|].
  eapply reach_main; [done..| |].
  - rewrite Hpc2. by destruct o.
  - intros Hl2. by apply reach_here.
Qed.

Lemma rank_after_ctor o k :
  o < length seeds → k < length (ctor_steps v) →
  rank (after_ctor_step v o k) < rank (m_ctor o k).
Proof.
  unfold after_ctor_step. rewrite (ctor_steps_length v). simpl.
  intros Ho Hk. repeat case_decide; simpl; lia.
Qed.

Lemma rank_after_ckp c o : o < length seeds → rank (after_ckp c o) < rank (m_ckp c o).
Proof.
  unfold after_ckp. simpl. intros Ho.
  case_decide; destruct c as [|[|c]]; simpl; lia.
Qed.

(** The steps of [main] that do not wait. *)
Lemma main_straight s :
  live v s →
  match m_pc (s_main s) with
  | m_ctor _ _ | m_sleep _ | m_ckp _ _ | m_extra => True
  | _ => False
  end →
  ∃ s', main_step v latest s = Some s' ∧ m_pc (s_main s') ≠ m_undefined ∧
        rank (m_pc (s_main s')) < rank (m_pc (s_main s)).
Proof.
  intros Hl Hst. pose proof (mok_pc _ _ _ (inv_main _ _ (live_sys _ _ Hl))) as Hwf.
  pose proof (live_pc _ _ Hl) as Hlive. unfold pc_live in Hlive.
  destruct (m_pc (s_main s)) as [o k|n|c o| | | | | | |] eqn:Hpc; try done.
  - destruct (main_ctor_step v s o k Hl Hpc) as (s' & Hstep & Hpc').
    exists s'. rewrite Hpc'. split_and!; [done| |by apply rank_after_ctor; apply Hwf].
    unfold after_ctor_step. by repeat case_decide.
  - exists (set_main (set_pc (after_sleep n) (s_main s)) s).
    unfold main_step. rewrite Hpc. by destruct n; simpl; split_and!; try lia.
  - destruct (main_ckp_step v s c o Hl Hpc) as (s' & Hstep & Hpc').
    exists s'. rewrite Hpc'. split_and!; [done| |by apply rank_after_ckp].
    unfold after_ckp. case_decide; [done|]. by destruct c as [|[|c]].
  - destruct (main_extra_step v s Hl Hpc) as (s' & Hstep & Hpc').
    exists s'. rewrite Hpc'. simpl. split_and!; [done..|lia].
Qed.

(** Wherever [main] is, some thread has a step. *)
Lemma live_can_step s :
  live v s → m_pc (s_main s) ≠ m_exit → ∃ t s', exec v (t, latest) s = Some s'.
Proof.
  intros Hl Hne.
  destruct (m_pc (s_main s)) as [o k|n|c o| | | | |o| |] eqn:Hpc;
    try (destruct (main_straight s Hl) as (s' & Hstep & _);
         [by rewrite Hpc|by exists t_main, s']).
  - destruct (main_poll_step v s Hl Hpc) as (s' & Hstep & _). by exists t_main, s'.
  - destruct (main_cnt_step v s Hl Hpc) as (x & s' & _ & Hstep & _).
    by exists t_main, s'.
  - destruct (main_stop_step v s Hl Hpc) as (s' & Hstep & _). by exists t_main, s'.
  - pose proof (life_dtor _ _ (live_life _ _ Hl) _ Hpc) as Ho.
    destruct (live_worker v s o Hl) as [w Hw]; [by rewrite Hpc|done|].
    destruct (w_pc w) eqn:Hw_pc.
    + destruct (worker_check_step v s o w Hl Hw Hw_pc) as [cur' Hstep].
      by exists (t_worker o); eexists.
    + destruct (worker_work_step v s o w Hl Hw Hw_pc) as (mem' & cur' & _ & Hstep).
      { eapply live_worker_cell; [done| |done]. by rewrite Hpc. }
      by exists (t_worker o); eexists.
    + destruct (main_dtor_step v s o Hl Hpc) as (s' & Hstep & _); [by exists w|].
      by exists t_main, s'.
    + by destruct (live_workers _ _ Hl _ _ Hw).
  - by destruct (live_main _ _ Hl).
Qed.

Section termination.
Context (Hsig : signal_reached v INT_MAX = true).

(** From every position but the last, a schedule takes [main] to a
    position nearer to its return. *)
Lemma live_advance s :
  live v s → m_pc (s_main s) ≠ m_exit →
  reach v s (λ s', rank (m_pc (s_main s')) < rank (m_pc (s_main s))).
Proof.
  intros Hl Hne.
  destruct (m_pc (s_main s)) as [o k|n|c o| | | | |o| |] eqn:Hpc;
    try (destruct (main_straight s Hl) as (s' & Hstep & Hu & Hr);
         [by rewrite Hpc|rewrite Hpc in Hr];
         eapply reach_main; [done..|]; intros Hl'; by apply reach_here);
    try (eapply reach_mono; [|apply (main_loop_leave v Hsig s Hl); auto];
         intros s' _ ->; simpl; lia).
  - eapply reach_mono; [|by apply main_dtor_leave].
    intros s' _ ->. destruct o; simpl; lia.
  - by destruct (live_main _ _ Hl).
Qed.

Lemma live_exit s : live v s → reach v s (λ s', m_pc (s_main s') = m_exit).
Proof.
  remember (S (rank (m_pc (s_main s)))) as n eqn:Hn.
  assert (rank (m_pc (s_main s)) < n) as Hr by lia. clear Hn.
  revert s Hr. induction n as [|n IH]; intros s Hr Hl; [lia|].
  destruct (decide (m_pc (s_main s) = m_exit)) as [Hpc|Hpc];
    [by apply reach_here|].
  apply reach_trans. eapply reach_mono; [|by apply live_advance].
  intros s' Hl' Hr'. simpl in Hr'. apply IH; [lia|done].
Qed.

End termination.

End exit.

(** ** Properties *)

Section properties.
Context (v : variant).
Implicit Types (s : state).

(** C12 (reachable_can_exit): the program can always come to its end.
    From every reachable state that is not [undefined] (no thread has
    touched an uninitialised counter, [spurious] has not overflowed) there
    is a schedule, all of whose operations read the newest message, that
    takes [main] to its return, to a state that is not [undefined]
    either: the outer loop finds
    the threshold reached, the compare-exchange sets the flag, the threads
    see it and return, the destructors join them.  The threshold is assumed
    to be within the range of [int]. *)
Theorem reachable_can_exit s :
  signal_reached v INT_MAX = true → reachable v s → undefined s = false →
  ∃ ts s', run v (sched ts) s = Some s' ∧ m_pc (s_main s') = m_exit ∧
           undefined s' = false.
Proof.
  intros Hsig Hr Hu.
  destruct (live_exit v Hsig s (reachable_live v s Hr Hu)) as (s' & [ts Hrun] & Hl & Hpc).
  exists ts, s'. split_and!; [done..|]. apply undefined_false. split; apply Hl.
Qed.

(** C13 (reachable_not_stuck): the program has no deadlock.  In every
    reachable state that is not [undefined] and in which [main] has not
    returned, some thread can take a step that reads the newest message:
    [main] itself, or the thread whose return a destructor waits for. *)
Theorem reachable_not_stuck s :
  reachable v s → undefined s = false → m_pc (s_main s) ≠ m_exit →
  ∃ t, enabled v s t = true.
Proof.
  intros Hr Hu Hpc.
  destruct (live_can_step v s (reachable_live v s Hr Hu) Hpc) as (t & s' & Hex).
  exists t. apply bool_decide_eq_true. eauto.
Qed.

End properties.

(** ** Witnesses *)

Lemma reachable_can_exit_witness :
  ∃ ts s', run main_cpp (sched ts) state_init = Some s' ∧
           m_pc (s_main s') = m_exit ∧ undefined s' = false.
Proof.
  apply (reachable_can_exit main_cpp state_init);
    [reflexivity|apply rtc_refl|vm_compute; reflexivity].
Defined.

Lemma reachable_not_stuck_witness :
  ∃ t, enabled main_seqcst_padding_cpp before_cas t = true.
Proof.
  apply (reachable_not_stuck main_seqcst_padding_cpp before_cas).
  - apply state_after_reachable. vm_compute. by eexists.
  - vm_compute. reflexivity.
  - vm_compute. discriminate.
Defined.
