(* ===== verification/Race.v ===== *)
(** * Race: the initialisation of the counter and the thread of the object

    [std::atomic_int m_v { 0 }] (src/main.cpp line 47) initialises the
    counter in the constructor, at the place of [m_v] among the members;
    the initialisation of an atomic object is not an atomic operation.  A
    call of [fetch_add] by the thread of the object conflicts with it,
    and is a data race unless the initialisation happens before the call.
    The start of a thread orders what its creator has done before what the
    thread does: so the order of the declarations of [m_thread] and [m_v]
    decides.

    A view knows of a location ([Memory.knows]) when the initialisation
    of the object or an access to it happens before: the initialisation
    records the counter in the view of [main] ([Driver.ctor_step_exec]),
    the thread starts with the view of [main], and acquire loads join the
    views that writes have released.  A state races ([races]) when a
    thread is about to call [fetch_add] on a counter of which its view
    does not know.

    - In src/main_seqcst_padding.cpp ([m_v] declared first) no reachable
      state races.
    - In src/main.cpp ([m_thread] declared first) every thread is started
      without knowing of its counter, and learns of it only by accessing
      it: every run in which [main] gets past the outer loop, and so every
      run to the end, goes through a state that races.

    [System.undefined] does not count the race: the theorems on the runs
    of src/main.cpp elsewhere in the development say what its atomic
    operations do, under the assumption that the race is benign. *)

From S2P Require Import Prelude Int32 Memory Foo StopFlag Worker Driver System.

(** ** Definitions *)

(** The thread of object [o] is about to call [fetch_add] on the counter,
    and the initialisation of the counter does not happen before the
    call. *)
Definition unordered_access (o : nat) (w : worker) : Prop :=
  w_pc w = w_work ∧ ¬ knows (w_view w) (m_v o).

(** Some thread is about to race with the initialisation of its
    counter. *)
Definition races (s : state) : bool :=
  bool_decide (map_Exists unordered_access (s_workers s)).

(** Some state of the run along [ls] from [s] races. *)
Fixpoint run_races (v : variant) (ls : list label) (s : state) : bool :=
  races s ||
  match ls with
  | [] => false
  | l :: ls => from_option (run_races v ls) false (exec v l s)
  end.

(** Every thread knows of its counter, and [main] knows of the counters
    that are initialised. *)
Record ordered (v : variant) (s : state) : Prop := Ordered {
  ord_workers o w : s_workers s !! o = Some w → knows (w_view w) (m_v o);
  ord_main o :
    initialised v (m_pc (s_main s)) o = true →
    knows (m_view (s_main s)) (m_v o);
}.

(** [main] has not come to the compare-exchange loop. *)
Definition before_stop (pc : main_pc) : bool :=
  match pc with
  | m_ctor _ _ | m_sleep 0 | m_ckp 0 _ | m_poll | m_cnt => true
  | _ => false
  end.

(** What holds of src/main.cpp as long as no thread has raced: no thread
    knows of its counter, the flag has not been written, the counters hold
    what [main] has stored, [main] has not come to the compare-exchange
    loop, and the views of [main] and of the messages know of initialised
    counters only. *)
Record unraced (v : variant) (s : state) : Prop := Unraced {
  unr_workers o w : s_workers s !! o = Some w → ¬ knows (w_view w) (m_v o);
  unr_cond : cond (s_mem s) = m_cond_init;
  unr_cells o h m :
    cells (s_mem s) !! o = Some h → m ∈ h →
    mval m = 0%Z ∨ seeds !! o = Some (mval m);
  unr_pc : before_stop (m_pc (s_main s)) = true;
  unr_main o :
    knows (m_view (s_main s)) (m_v o) →
    initialised v (m_pc (s_main s)) o = true;
  unr_msgs o h m :
    cells (s_mem s) !! o = Some h → m ∈ h →
    view_sub (mview m) (m_view (s_main s));
}.

#[export] Instance unordered_access_dec o w : Decision (unordered_access o w).
Proof. unfold unordered_access. apply _. Defined.

(** ** The counter declared before the thread *)

Section ordered.
Context (v : variant) (Hv : thread_before_counter v = false).
Implicit Types (s : state) (o : nat) (p : pick).

Lemma ordered_init : ordered v state_init.
Proof.
  split; [done|]. intros o Ho.
  by apply (inv_cells _ _ (sys_inv_init v)) in Ho as [h Hh].
Qed.

Lemma worker_exec_ordered o p s s' :
  ordered v s → worker_exec v o p s = Some s' → ordered v s'.
Proof.
  intros [Hw Hm] (w & Hwo & ([w' mem'] & Hstep & [= <-])%bind_Some)%bind_Some.
  split; simpl; [|done].
  intros o' w0 [[<- <-]|[_ ?]]%lookup_insert_Some; [|by eapply Hw].
  eapply do_thing_step_knows; [done|by eapply Hw].
Qed.

(** A step of [main] outside the constructors. *)
Lemma ordered_plain s s' p :
  ordered v s → main_trans v p s s' →
  in_ctor (m_pc (s_main s)) = false → s_workers s' = s_workers s →
  ordered v s'.
Proof.
  intros [Hw Hm] Ht Hc Hws. split; [by rewrite Hws|].
  pose proof (main_trans_in_ctor v p s s' Ht Hc) as Hc'.
  intros o Ho. apply (main_trans_knows v p s s' Ht), Hm.
  unfold initialised in *. by destruct (m_pc (s_main s)), (m_pc (s_main s')).
Qed.

(** A step of a constructor: the thread is started by a [main] that
    knows of the counter. *)
Lemma ctor_step_exec_ordered o k c s s' :
  sys_inv v s → ordered v s →
  m_pc (s_main s) = m_ctor o k → ctor_steps v !! k = Some c →
  ctor_step_exec v o c (after_ctor_step v o k) s = Some s' → ordered v s'.
Proof.
  intros Hinv [Hw Hm] Hpc Hk Hstep.
  pose proof (mok_pc _ _ _ (inv_main _ _ Hinv)) as Hwf. rewrite Hpc in Hwf.
  destruct Hwf as [Ho _].
  pose proof (main_trans_knows v latest s s' (mt_ctor v latest s o k c s' Hpc Hk Hstep))
    as Hsub.
  assert (∀ o', initialised v (m_pc (s_main s')) o' = true →
    knows (m_view (s_main s)) (m_v o') ∨ c = init_m_v ∧ o' = o) as Hini.
  { intros o'. rewrite (ctor_step_exec_pc v _ _ _ _ _ Hstep). unfold initialised.
    rewrite (ctor_reached_step v o k c) by done. rewrite <-Hpc.
    intros [?|[?%bool_decide_eq_true ?%bool_decide_eq_true]%andb_true_iff]%orb_true_iff;
      [left; by apply Hm|by right]. }
  destruct c; simpl in Hstep.
  - injection Hstep as <-. split; simpl.
    + intros o' w [[<- <-]|[_ ?]]%lookup_insert_Some; [|by eapply Hw].
      apply Hm. rewrite Hpc. by apply thread_start_initialised.
    + intros o' [?|[? _]]%Hini; done.
  - injection Hstep as <-. split; simpl; [done|].
    intros o' [?|[_ ->]]%Hini; apply knows_vset; auto.
  - split; [|intros o' [?|[? _]]%Hini; [by apply Hsub|done]].
    apply bind_Some in Hstep as (i & _ & ([mem' cur'] & _ & [= <-])%bind_Some).
    done.
Qed.

Lemma main_trans_ordered p s s' :
  sys_inv v s → ordered v s → main_trans v p s s' → ordered v s'.
Proof.
  intros Hinv Ho Ht.
  destruct Ht as [o k c s' Hpc Hc Hstep|n Hpc|c o x cur' Hpc Hc|b cur' Hpc Hld
    |x cur' Hpc Hc Hx|x cur' Hpc Hc Hx|st' h' cur' Hpc Hts|mem' cur' Hpc Hdw
    |Hpc Hdw|o w Hpc Hj Hw Hd|o Hpc Hj] eqn:Ht';
    [by eapply ctor_step_exec_ordered|
     eapply (ordered_plain s _ p); [done| |by rewrite Hpc|done]..];
    clear Ht'; eauto using main_trans.
Qed.

Lemma exec_ordered l s s' :
  sys_inv v s → ordered v s → exec v l s = Some s' → ordered v s'.
Proof.
  intros Hinv Ho. destruct l as [[|o] p]; unfold exec; cbn [fst snd].
  - intros ?%main_step_sound. by eapply main_trans_ordered.
  - by apply worker_exec_ordered.
Qed.

Lemma reachable_ordered s : reachable v s → ordered v s.
Proof.
  intros Hr. cut (sys_inv v s ∧ ordered v s); [by intros []|].
  eapply (rtc_invariant (step v) (λ s, sys_inv v s ∧ ordered v s)); [|exact Hr|].
  - intros s1 s2 [Hinv Ho] [l Hex].
    split; [by eapply exec_inv|by eapply exec_ordered].
  - split; [apply sys_inv_init|apply ordered_init].
Qed.

End ordered.

(** ** The thread declared before the counter *)

Section races.
Implicit Types (s : state) (o : nat) (w : worker).

Lemma races_false s o w :
  races s = false → s_workers s !! o = Some w → w_pc w = w_work →
  knows (w_view w) (m_v o).
Proof.
  intros Hr%bool_decide_eq_false Hw Hpc.
  destruct (decide (knows (w_view w) (m_v o))) as [|Hn]; [done|].
  destruct Hr. by exists o, w.
Qed.

Lemma ordered_races v s : ordered v s → races s = false.
Proof.
  intros [Hw _]. apply bool_decide_eq_false.
  intros (o & w & Hwo & _ & Hn). by apply Hn, (Hw o).
Qed.

(** The first message of the flag releases nothing: a load of the flag
    that finds only this message reads [false] and learns of no
    counter. *)
Lemma load_m_cond_init mo p cur b cur' :
  atomic_load m_cond mo p m_cond_init cur = Some (b, cur') →
  b = false ∧ ∀ o, knows cur' (m_v o) → knows cur (m_v o).
Proof.
  intros Hld. split.
  - apply atomic_load_Some in Hld as (m & Hm%list_elem_of_lookup_2 & _ & -> & _).
    by apply list_elem_of_singleton in Hm as ->.
  - destruct (atomic_load_knows _ _ _ _ _ _ _ Hld) as [_ Hk].
    intros o [?|[?|(m & ->%list_elem_of_singleton & ?%knows_empty)]]%Hk; done.
Qed.

Lemma before_stop_after_ctor v o k : before_stop (after_ctor_step v o k) = true.
Proof. unfold after_ctor_step. by repeat case_decide. Qed.

Lemma in_ctor_before_stop pc : in_ctor pc = true → before_stop pc = true.
Proof. by destruct pc. Qed.

Lemma initialised_plain v pc pc' o :
  in_ctor pc = false → in_ctor pc' = false →
  initialised v pc' o = initialised v pc o.
Proof. unfold initialised. by destruct pc, pc'. Qed.

(** A step of a constructor initialises the counter of its object when
    it is the initialiser of [m_v], and no other. *)
Lemma initialised_after_ctor v o k c o' :
  o < length seeds → ctor_steps v !! k = Some c →
  initialised v (m_ctor o k) o' = true ∨ o' = o ∧ c = init_m_v →
  initialised v (after_ctor_step v o k) o' = true.
Proof.
  intros Ho Hk Hi. unfold initialised in *.
  rewrite (ctor_reached_step v o k c) by done.
  destruct Hi as [->|[-> ->]]; [done|].
  rewrite !bool_decide_eq_true_2 by done. apply orb_true_r.
Qed.

End races.

Section unraced.
Context (v : variant) (Hv : thread_before_counter v = true).
Context (H0 : signal_reached v 0 = false) (H1 : signal_reached v 1 = false).
Implicit Types (s : state) (o : nat) (p : pick).

Lemma unraced_init : unraced v state_init.
Proof. split; simpl; try done; by intros o [? ?]. Qed.

(** A step of [main] outside the constructors that writes to no
    counter. *)
Lemma unraced_plain s s' :
  sys_inv v s → unraced v s →
  s_workers s' = s_workers s → s_mem s' = s_mem s →
  in_ctor (m_pc (s_main s)) = false → before_stop (m_pc (s_main s')) = true →
  in_ctor (m_pc (s_main s')) = false →
  view_sub (m_view (s_main s)) (m_view (s_main s')) →
  (∀ o, knows (m_view (s_main s')) (m_v o) →
     knows (m_view (s_main s)) (m_v o) ∨ is_Some (cells (s_mem s) !! o)) →
  unraced v s'.
Proof.
  intros Hinv [Hw Hc Hcells Hp Hm Hmsg] Hws Hmem Hin Hb Hin' Hsub Hk.
  split; rewrite ?Hws, ?Hmem; try done.
  - intros o Ho. rewrite (initialised_plain v (m_pc (s_main s))) by done.
    destruct (Hk o Ho) as [?|?]; [by apply Hm|by apply (inv_cells _ _ Hinv)].
  - intros o h m Hh Hin0. etrans; [by eapply Hmsg|done].
Qed.

Lemma worker_exec_unraced o p s s' :
  sys_inv v s → unraced v s → races s = false →
  worker_exec v o p s = Some s' → unraced v s'.
Proof.
  intros Hinv Hu Hr (w & Hwo & ([w' mem'] & Hstep & [= <-])%bind_Some)%bind_Some.
  destruct (do_thing_step_pc v _ _ _ _ _ Hstep) as [Hpc|Hpc];
    [|destruct (unr_workers _ _ Hu o w Hwo); by eapply races_false].
  apply (do_thing_step_check v) in Hstep as (b & cur' & Hld & -> & ->); [|done].
  rewrite (unr_cond _ _ Hu) in Hld. apply load_m_cond_init in Hld as [-> Hk].
  destruct Hu as [Hw Hc Hcells Hp Hm Hmsg]. split; simpl; try done.
  intros o' w0 [[<- <-]|[_ ?]]%lookup_insert_Some; [|by eapply Hw].
  simpl. intros ?%Hk. by eapply Hw.
Qed.

(** What [count] reads and learns in a state that has not raced. *)
Lemma count_unraced s o p x cur' :
  unraced v s → count v o p (s_mem s) (m_view (s_main s)) = Some (x, cur') →
  view_sub (m_view (s_main s)) cur' ∧
  (∀ o', knows cur' (m_v o') →
     knows (m_view (s_main s)) (m_v o') ∨ is_Some (cells (s_mem s) !! o')) ∧
  (x = 0%Z ∨ seeds !! o = Some x).
Proof.
  intros Hu Hc. destruct (count_knows v _ _ _ _ _ _ Hc) as [Hsub Hk].
  apply count_Some in Hc as (h & Hh & Hld). split_and!; [done|..].
  - intros o' [[= ->]|[?|(h' & m & Hh' & Hm & Hkm)]]%Hk; [right; eauto|by left|].
    left. by eapply (unr_msgs _ _ Hu).
  - apply atomic_load_Some in Hld as (m & Hm%list_elem_of_lookup_2 & _ & -> & _).
    by eapply (unr_cells _ _ Hu).
Qed.

(** [main] reads [0] or [1] from the counter of [a], and goes on
    polling. *)
Lemma count_below s p x cur' :
  unraced v s → count v 0 p (s_mem s) (m_view (s_main s)) = Some (x, cur') →
  signal_reached v x = false.
Proof.
  intros Hu Hc. destruct (count_unraced s 0 p x cur' Hu Hc) as (_ & _ & [->|Hx]);
    [done|]. by injection Hx as <-.
Qed.

(** The steps of the constructor. *)
Lemma thread_start_unraced o k s :
  sys_inv v s → unraced v s → o < length seeds →
  m_pc (s_main s) = m_ctor o k → ctor_steps v !! k = Some init_m_thread →
  unraced v
    (State (s_mem s) (set_pc (after_ctor_step v o k) (s_main s))
       (<[o := worker_start (m_view (s_main s))]> (s_workers s))
       (<[o := joinable]> (s_handles s))).
Proof.
  intros Hinv [Hw Hc Hcells Hp Hm Hmsg] Ho Hpc Hk.
  split; simpl; try done; [|apply before_stop_after_ctor|].
  - intros o' w [[<- <-]|[_ ?]]%lookup_insert_Some; [|by eapply Hw].
    intros Hkn%Hm. by rewrite Hpc, thread_start_uninitialised in Hkn.
  - intros o' Hkn%Hm. eapply initialised_after_ctor; [done..|]. left. by rewrite <-Hpc.
Qed.

Lemma init_m_v_unraced o k s :
  sys_inv v s → unraced v s → o < length seeds →
  m_pc (s_main s) = m_ctor o k → ctor_steps v !! k = Some init_m_v →
  unraced v
    (State (Foo_init_m_v o (s_mem s))
       (MainState (after_ctor_step v o k) (vset (m_v o) 0 (m_view (s_main s)))
          (ckp (s_main s)) (cnt (s_main s)) (stop (s_main s)))
       (s_workers s) (s_handles s)).
Proof.
  intros Hinv [Hw Hc Hcells Hp Hm Hmsg] Ho Hpc Hk.
  split; simpl; try done; [|apply before_stop_after_ctor| |].
  - intros o' h m [[<- <-]|[_ ?]]%lookup_insert_Some; [|by eapply Hcells].
    intros ->%list_elem_of_singleton. by left.
  - intros o' [[= <-]|Hkn%Hm]%knows_vset;
      (eapply initialised_after_ctor; [done..|]); [by right|left; by rewrite <-Hpc].
  - intros o' h m [[<- <-]|[_ ?]]%lookup_insert_Some.
    + intros ->%list_elem_of_singleton. apply view_sub_empty.
    + intros ?. etrans; [by eapply Hmsg|apply view_sub_vset].
Qed.

Lemma ctor_body_unraced o k i s mem' cur' :
  sys_inv v s → unraced v s → o < length seeds →
  m_pc (s_main s) = m_ctor o k → ctor_steps v !! k = Some ctor_body →
  seeds !! o = Some i →
  Foo_ctor_body v o i (s_mem s) (m_view (s_main s)) = Some (mem', cur') →
  unraced v
    (State mem'
       (MainState (after_ctor_step v o k) cur' (ckp (s_main s)) (cnt (s_main s))
          (stop (s_main s)))
       (s_workers s) (s_handles s)).
Proof.
  intros Hinv [Hw Hc Hcells Hp Hm Hmsg] Ho Hpc Hk Hi Hb.
  apply Foo_ctor_body_knows in Hb
    as (Hsub & Hkn & h & m & Hh & -> & Hval & Hview).
  split; simpl; try done; [|apply before_stop_after_ctor| |].
  - intros o' h' m' [[<- <-]|[_ ?]]%lookup_insert_Some; [|by eapply Hcells].
    intros [?| ->%list_elem_of_singleton]%elem_of_app; [by eapply Hcells|].
    right. by rewrite Hval.
  - intros o' Ho'. eapply initialised_after_ctor; [done..|]. left.
    destruct (Hkn _ Ho') as [[= ->]|?%Hm]; [by apply ctor_body_initialised|].
    by rewrite <-Hpc.
  - intros o' h' m' [[<- <-]|[_ ?]]%lookup_insert_Some.
    + intros [?| ->%list_elem_of_singleton]%elem_of_app; [|done].
      etrans; [by eapply Hmsg|done].
    + intros ?. etrans; [by eapply Hmsg|done].
Qed.

Lemma ctor_step_exec_unraced o k c s s' :
  sys_inv v s → unraced v s →
  m_pc (s_main s) = m_ctor o k → ctor_steps v !! k = Some c →
  ctor_step_exec v o c (after_ctor_step v o k) s = Some s' → unraced v s'.
Proof.
  intros Hinv Hu Hpc Hk Hstep.
  pose proof (mok_pc _ _ _ (inv_main _ _ Hinv)) as Hwf. rewrite Hpc in Hwf.
  destruct Hwf as [Ho _]. destruct c; simpl in Hstep.
  - injection Hstep as <-. by apply thread_start_unraced.
  - injection Hstep as <-. by apply init_m_v_unraced.
  - apply bind_Some in Hstep as (i & Hi & ([mem' cur'] & Hb & [= <-])%bind_Some).
    by eapply ctor_body_unraced.
Qed.

(** Every step of [main]: it reads [0] or [1] from the counter of [a],
    and stays in the outer loop. *)
Lemma main_trans_unraced p s s' :
  sys_inv v s → unraced v s → main_trans v p s s' → unraced v s'.
Proof.
  intros Hinv Hu Ht. pose proof (unr_pc _ _ Hu) as Hb.
  destruct Ht as [o k c s' Hpc Hc Hstep|n Hpc|c o x cur' Hpc Hc|b cur' Hpc Hld
    |x cur' Hpc Hc Hx|x cur' Hpc Hc Hx|st' h' cur' Hpc Hts|mem' cur' Hpc Hdw
    |Hpc Hdw|o w Hpc Hj Hw Hd|o Hpc Hj]; rewrite Hpc in Hb;
    try done; [by eapply ctor_step_exec_unraced|..];
    try (rewrite (count_below s p x cur' Hu Hc) in Hx; done);
    (apply (unraced_plain s); simpl; rewrite ?Hpc; try done).
  - by destruct n.
  - by destruct n.
  - by left.
  - destruct c; [|done]. unfold after_ckp. by case_decide.
  - unfold after_ckp. case_decide; [done|]. by destruct c as [|[|c]].
  - by eapply count_unraced.
  - by eapply count_unraced.
  - rewrite (unr_cond _ _ Hu) in Hld. by apply load_m_cond_init in Hld as [-> _].
  - by destruct b.
  - by eapply atomic_load_knows.
  - rewrite (unr_cond _ _ Hu) in Hld. apply load_m_cond_init in Hld as [_ Hk].
    intros o' ?%Hk. by left.
  - by eapply count_unraced.
  - by eapply count_unraced.
Qed.

Lemma exec_unraced l s s' :
  sys_inv v s → unraced v s → races s = false →
  exec v l s = Some s' → unraced v s'.
Proof.
  intros Hinv Hu Hr. destruct l as [[|o] p]; unfold exec; cbn [fst snd].
  - intros ?%main_step_sound. by eapply main_trans_unraced.
  - by apply worker_exec_unraced.
Qed.

(** A run goes through a state that races, or ends in a state in which
    nothing has happened yet: no thread has incremented its counter, the
    flag is unset, and [main] has not left the outer loop. *)
Lemma run_unraced ls s s' :
  sys_inv v s → unraced v s → run v ls s = Some s' →
  run_races v ls s = true ∨ unraced v s'.
Proof.
  revert s. induction ls as [|l ls IH]; intros s Hinv Hu Hrun; simpl in *.
  - right. by simplify_eq.
  - apply bind_Some in Hrun as (s1 & Hex & Hrun). rewrite Hex. simpl.
    destruct (races s) eqn:Hr; [by left|]. simpl.
    apply IH; [by eapply exec_inv|by eapply exec_unraced|done].
Qed.

End unraced.

(** ** Properties *)

Section properties.
Context (v : variant).
Implicit Types (s : state) (o : nat) (w : worker).

(** C24 (padded_race_free): src/main_seqcst_padding.cpp has no race on
    the initialisation of the counter.  Where [m_v] is declared before
    [m_thread], in every reachable state the view of each thread knows of
    the counter of its object: the initialisation of the counter happens
    before every access of the thread to it, and no state races. *)
Theorem padded_race_free s :
  thread_before_counter v = false → reachable v s →
  races s = false ∧
  ∀ o w, s_workers s !! o = Some w → knows (w_view w) (m_v o).
Proof.
  intros Hv Hr. pose proof (reachable_ordered v Hv s Hr) as Ho.
  split; [by eapply ordered_races|apply Ho].
Qed.

(** C11 (thread_first_races): in src/main.cpp every run that leaves the
    outer loop races.  Where [m_thread] is declared before [m_v], and the
    threshold of [main] is above the seed of [a], a thread is started
    without knowing of its counter and can learn of it only by accessing
    it; until a thread does, the counter of [a] holds [0] or [1] and
    [main] goes on polling.  So a run from the start of the program to a
    state in which [main] is at the compare-exchange loop or past it, and
    so every run to the return of [main], goes through a state in which
    a thread is about to call [fetch_add] on a counter whose
    initialisation does not happen before the call. *)
Theorem thread_first_races ls s :
  thread_before_counter v = true →
  signal_reached v 0 = false → signal_reached v 1 = false →
  run v ls state_init = Some s → before_stop (m_pc (s_main s)) = false →
  run_races v ls state_init = true.
Proof.
  intros Hv H0 H1 Hrun Hpc.
  destruct (run_unraced v Hv H0 H1 ls state_init s) as [|Hu];
    [apply sys_inv_init|apply unraced_init|done..|].
  by rewrite (unr_pc _ _ Hu) in Hpc.
Qed.

End properties.

(** ** Witnesses *)

Lemma padded_race_free_witness :
  races at_exit = false ∧
  ∀ o w, s_workers at_exit !! o = Some w → knows (w_view w) (m_v o).
Proof.
  apply (padded_race_free main_seqcst_padding_cpp at_exit); [done|].
  apply state_after_reachable. vm_compute. by eexists.
Defined.

Lemma thread_first_races_witness :
  run_races main_cpp (sched_quiescent 9) state_init = true.
Proof.
  apply (thread_first_races main_cpp (sched_quiescent 9)
           (state_after main_cpp (sched_quiescent 9)));
    [done|done|done|vm_compute; reflexivity..].
Defined.
